(** * Scene graph and extension registry of the engine, embedded in Rocq

    The development follows two source units:
    - the class [DisplayObject] (transform propagation, bounds cache,
      sentinel parent, mask, destroy);
    - the object [extensions] of [Extensions.ts] (normalisation of
      submissions, pending queue, handlers, priority-ordered lists), with
      the two blend-mode classes that submit themselves to it.

    JavaScript objects live in explicit stores addressed by references, a
    method is a computation in a state-and-exception monad, and a [throw]
    keeps whatever was written before it. *)

From Stdlib Require Import Floats.PrimFloat ZArith Sorting.Sorted Sorting.Permutation.
From stdpp Require Import gmap strings list fin_maps pretty.

Local Open Scope Z_scope.

(** ** Exceptions and the method monad *)

(** What a [throw] carries: the two built-in error classes the code can
    raise implicitly, and [new Error(message)]. *)
Inductive Exn :=
  | TypeError
  | RangeError
  | Error (message : string).

Inductive Outcome (A : Type) :=
  | Return (a : A)
  | Throw (e : Exn).
Arguments Return {A} a.
Arguments Throw {A} e.

(** A method body: it reads and writes the state [S], and either returns
    or throws; the state reached at the [throw] is the one that remains. *)
Definition M (S A : Type) : Type := S → Outcome A * S.

Global Instance M_ret {S} : MRet (M S) := λ A a s, (Return a, s).
Global Instance M_bind {S} : MBind (M S) := λ A B f m s,
  match m s with
  | (Return a, s') => f a s'
  | (Throw e, s') => (Throw e, s')
  end.

Definition throw {S A} (e : Exn) : M S A := λ s, (Throw e, s).
Definition get_state {S} : M S S := λ s, (Return s, s).
Definition modify_state {S} (f : S → S) : M S unit := λ s, (Return tt, f s).

(** Dereferencing [null] or [undefined] is a TypeError. *)
Definition nonnull {S A} (v : option A) : M S A :=
  match v with
  | Some a => mret a
  | None => throw TypeError
  end.

(** [list.forEach(f)], stopping at the first throw. *)
Fixpoint forEach {S A} (l : list A) (f : A → M S unit) : M S unit :=
  match l with
  | [] => mret tt
  | a :: l' => f a ;; forEach l' f
  end.

(** ** The scene graph: class [DisplayObject] *)

Module Scene.

Definition ref := positive.

Module Point.
Record t := { x : float; y : float }.
End Point.

(** Modelled from the spec: the classes [Transform], [Matrix], [Rectangle]
    (package [@pixi/math]) and [Bounds] (file [./Bounds]) are not part of
    the sources at hand; the spec consumes them as opaque value types with
    these operations.  [Transform_updateTransform t p] is the state of a
    transform [t] after [t.updateTransform(p)], where it recomputes its
    world matrix from that of [p]; [Matrix_apply t] and
    [Matrix_applyInverse t] are [t.worldTransform.apply] and
    [t.worldTransform.applyInverse]; [Bounds_getRectangle b] is the
    rectangle that [b.getRectangle(rect)] writes into [rect] before it
    returns [rect]. *)
Class MathLib := {
  Transform : Type;
  Transform_new : Transform;
  position : Transform → Point.t;
  scale : Transform → Point.t;
  rotation : Transform → float;
  skew : Transform → Point.t;
  pivot : Transform → Point.t;
  Transform_updateTransform : Transform → Transform → Transform;
  Matrix_apply : Transform → Point.t → Point.t;
  Matrix_applyInverse : Transform → Point.t → Point.t;
  Rectangle : Type;
  Rectangle_new : Rectangle;
  Bounds : Type;
  Bounds_new : Bounds;
  Bounds_getRectangle : Bounds → Rectangle
}.

(** [a !== b] on numbers. *)
Definition strict_ne (a b : float) : bool := negb (PrimFloat.eqb a b).

Section DisplayObject.
Context `{MathLib}.

(** The fields the constructor initialises, in its order, after the
    listener table of [EventEmitter]; then the properties that other code
    attaches ([_currentBounds], [hitArea], [interactive],
    [interactiveChildren], [maskObject] of a mask wrapper, and [children]
    of a container).  [_boundsID] and [_lastBoundsID] are counters that
    start at 0 and -1 and only ever move by [++]: they are integers. *)
Record DisplayObject := {
  _events : list string;
  tempDisplayObjectParent : option ref;
  _transform : option ref;
  _alpha : float;
  _visible : bool;
  _renderable : bool;
  parent : option ref;
  worldAlpha : float;
  _lastSortedIndex : Z;
  _zIndex : Z;
  filterArea : option Rectangle;
  filters : option (list ref);
  _enabledFilters : option (list ref);
  _bounds : option Bounds;
  _boundsID : Z;
  _lastBoundsID : Z;
  _boundsRect : option ref;
  _localBoundsRect : option ref;
  _mask : option ref;
  _destroyed : bool;
  isSprite : bool;
  isMask : bool;
  _currentBounds : option Bounds;
  hitArea : option Rectangle;
  interactive : option bool;
  interactiveChildren : option bool;
  maskObject : option ref;
  children : list ref
}.

Definition set__events (v : list string) (o : DisplayObject) : DisplayObject :=
  {| _events := v; tempDisplayObjectParent := tempDisplayObjectParent o; _transform := _transform o; _alpha
     := _alpha o; _visible := _visible o; _renderable := _renderable o; parent := parent o; worldAlpha :=
     worldAlpha o; _lastSortedIndex := _lastSortedIndex o; _zIndex := _zIndex o; filterArea := filterArea o;
     filters := filters o; _enabledFilters := _enabledFilters o; _bounds := _bounds o; _boundsID :=
     _boundsID o; _lastBoundsID := _lastBoundsID o; _boundsRect := _boundsRect o; _localBoundsRect :=
     _localBoundsRect o; _mask := _mask o; _destroyed := _destroyed o; isSprite := isSprite o; isMask :=
     isMask o; _currentBounds := _currentBounds o; hitArea := hitArea o; interactive := interactive o;
     interactiveChildren := interactiveChildren o; maskObject := maskObject o; children := children o |}.
Definition set_tempDisplayObjectParent (v : option ref) (o : DisplayObject) : DisplayObject :=
  {| _events := _events o; tempDisplayObjectParent := v; _transform := _transform o; _alpha := _alpha o;
     _visible := _visible o; _renderable := _renderable o; parent := parent o; worldAlpha := worldAlpha o;
     _lastSortedIndex := _lastSortedIndex o; _zIndex := _zIndex o; filterArea := filterArea o; filters :=
     filters o; _enabledFilters := _enabledFilters o; _bounds := _bounds o; _boundsID := _boundsID o;
     _lastBoundsID := _lastBoundsID o; _boundsRect := _boundsRect o; _localBoundsRect := _localBoundsRect o;
     _mask := _mask o; _destroyed := _destroyed o; isSprite := isSprite o; isMask := isMask o;
     _currentBounds := _currentBounds o; hitArea := hitArea o; interactive := interactive o;
     interactiveChildren := interactiveChildren o; maskObject := maskObject o; children := children o |}.
Definition set__transform (v : option ref) (o : DisplayObject) : DisplayObject :=
  {| _events := _events o; tempDisplayObjectParent := tempDisplayObjectParent o; _transform := v; _alpha :=
     _alpha o; _visible := _visible o; _renderable := _renderable o; parent := parent o; worldAlpha :=
     worldAlpha o; _lastSortedIndex := _lastSortedIndex o; _zIndex := _zIndex o; filterArea := filterArea o;
     filters := filters o; _enabledFilters := _enabledFilters o; _bounds := _bounds o; _boundsID :=
     _boundsID o; _lastBoundsID := _lastBoundsID o; _boundsRect := _boundsRect o; _localBoundsRect :=
     _localBoundsRect o; _mask := _mask o; _destroyed := _destroyed o; isSprite := isSprite o; isMask :=
     isMask o; _currentBounds := _currentBounds o; hitArea := hitArea o; interactive := interactive o;
     interactiveChildren := interactiveChildren o; maskObject := maskObject o; children := children o |}.
Definition set__alpha (v : float) (o : DisplayObject) : DisplayObject :=
  {| _events := _events o; tempDisplayObjectParent := tempDisplayObjectParent o; _transform := _transform o;
     _alpha := v; _visible := _visible o; _renderable := _renderable o; parent := parent o; worldAlpha :=
     worldAlpha o; _lastSortedIndex := _lastSortedIndex o; _zIndex := _zIndex o; filterArea := filterArea o;
     filters := filters o; _enabledFilters := _enabledFilters o; _bounds := _bounds o; _boundsID :=
     _boundsID o; _lastBoundsID := _lastBoundsID o; _boundsRect := _boundsRect o; _localBoundsRect :=
     _localBoundsRect o; _mask := _mask o; _destroyed := _destroyed o; isSprite := isSprite o; isMask :=
     isMask o; _currentBounds := _currentBounds o; hitArea := hitArea o; interactive := interactive o;
     interactiveChildren := interactiveChildren o; maskObject := maskObject o; children := children o |}.
Definition set__visible (v : bool) (o : DisplayObject) : DisplayObject :=
  {| _events := _events o; tempDisplayObjectParent := tempDisplayObjectParent o; _transform := _transform o;
     _alpha := _alpha o; _visible := v; _renderable := _renderable o; parent := parent o; worldAlpha :=
     worldAlpha o; _lastSortedIndex := _lastSortedIndex o; _zIndex := _zIndex o; filterArea := filterArea o;
     filters := filters o; _enabledFilters := _enabledFilters o; _bounds := _bounds o; _boundsID :=
     _boundsID o; _lastBoundsID := _lastBoundsID o; _boundsRect := _boundsRect o; _localBoundsRect :=
     _localBoundsRect o; _mask := _mask o; _destroyed := _destroyed o; isSprite := isSprite o; isMask :=
     isMask o; _currentBounds := _currentBounds o; hitArea := hitArea o; interactive := interactive o;
     interactiveChildren := interactiveChildren o; maskObject := maskObject o; children := children o |}.
Definition set__renderable (v : bool) (o : DisplayObject) : DisplayObject :=
  {| _events := _events o; tempDisplayObjectParent := tempDisplayObjectParent o; _transform := _transform o;
     _alpha := _alpha o; _visible := _visible o; _renderable := v; parent := parent o; worldAlpha :=
     worldAlpha o; _lastSortedIndex := _lastSortedIndex o; _zIndex := _zIndex o; filterArea := filterArea o;
     filters := filters o; _enabledFilters := _enabledFilters o; _bounds := _bounds o; _boundsID :=
     _boundsID o; _lastBoundsID := _lastBoundsID o; _boundsRect := _boundsRect o; _localBoundsRect :=
     _localBoundsRect o; _mask := _mask o; _destroyed := _destroyed o; isSprite := isSprite o; isMask :=
     isMask o; _currentBounds := _currentBounds o; hitArea := hitArea o; interactive := interactive o;
     interactiveChildren := interactiveChildren o; maskObject := maskObject o; children := children o |}.
Definition set_parent (v : option ref) (o : DisplayObject) : DisplayObject :=
  {| _events := _events o; tempDisplayObjectParent := tempDisplayObjectParent o; _transform := _transform o;
     _alpha := _alpha o; _visible := _visible o; _renderable := _renderable o; parent := v; worldAlpha :=
     worldAlpha o; _lastSortedIndex := _lastSortedIndex o; _zIndex := _zIndex o; filterArea := filterArea o;
     filters := filters o; _enabledFilters := _enabledFilters o; _bounds := _bounds o; _boundsID :=
     _boundsID o; _lastBoundsID := _lastBoundsID o; _boundsRect := _boundsRect o; _localBoundsRect :=
     _localBoundsRect o; _mask := _mask o; _destroyed := _destroyed o; isSprite := isSprite o; isMask :=
     isMask o; _currentBounds := _currentBounds o; hitArea := hitArea o; interactive := interactive o;
     interactiveChildren := interactiveChildren o; maskObject := maskObject o; children := children o |}.
Definition set_worldAlpha (v : float) (o : DisplayObject) : DisplayObject :=
  {| _events := _events o; tempDisplayObjectParent := tempDisplayObjectParent o; _transform := _transform o;
     _alpha := _alpha o; _visible := _visible o; _renderable := _renderable o; parent := parent o;
     worldAlpha := v; _lastSortedIndex := _lastSortedIndex o; _zIndex := _zIndex o; filterArea := filterArea
     o; filters := filters o; _enabledFilters := _enabledFilters o; _bounds := _bounds o; _boundsID :=
     _boundsID o; _lastBoundsID := _lastBoundsID o; _boundsRect := _boundsRect o; _localBoundsRect :=
     _localBoundsRect o; _mask := _mask o; _destroyed := _destroyed o; isSprite := isSprite o; isMask :=
     isMask o; _currentBounds := _currentBounds o; hitArea := hitArea o; interactive := interactive o;
     interactiveChildren := interactiveChildren o; maskObject := maskObject o; children := children o |}.
Definition set_filterArea (v : option Rectangle) (o : DisplayObject) : DisplayObject :=
  {| _events := _events o; tempDisplayObjectParent := tempDisplayObjectParent o; _transform := _transform o;
     _alpha := _alpha o; _visible := _visible o; _renderable := _renderable o; parent := parent o;
     worldAlpha := worldAlpha o; _lastSortedIndex := _lastSortedIndex o; _zIndex := _zIndex o; filterArea :=
     v; filters := filters o; _enabledFilters := _enabledFilters o; _bounds := _bounds o; _boundsID :=
     _boundsID o; _lastBoundsID := _lastBoundsID o; _boundsRect := _boundsRect o; _localBoundsRect :=
     _localBoundsRect o; _mask := _mask o; _destroyed := _destroyed o; isSprite := isSprite o; isMask :=
     isMask o; _currentBounds := _currentBounds o; hitArea := hitArea o; interactive := interactive o;
     interactiveChildren := interactiveChildren o; maskObject := maskObject o; children := children o |}.
Definition set_filters (v : option (list ref)) (o : DisplayObject) : DisplayObject :=
  {| _events := _events o; tempDisplayObjectParent := tempDisplayObjectParent o; _transform := _transform o;
     _alpha := _alpha o; _visible := _visible o; _renderable := _renderable o; parent := parent o;
     worldAlpha := worldAlpha o; _lastSortedIndex := _lastSortedIndex o; _zIndex := _zIndex o; filterArea :=
     filterArea o; filters := v; _enabledFilters := _enabledFilters o; _bounds := _bounds o; _boundsID :=
     _boundsID o; _lastBoundsID := _lastBoundsID o; _boundsRect := _boundsRect o; _localBoundsRect :=
     _localBoundsRect o; _mask := _mask o; _destroyed := _destroyed o; isSprite := isSprite o; isMask :=
     isMask o; _currentBounds := _currentBounds o; hitArea := hitArea o; interactive := interactive o;
     interactiveChildren := interactiveChildren o; maskObject := maskObject o; children := children o |}.
Definition set__bounds (v : option Bounds) (o : DisplayObject) : DisplayObject :=
  {| _events := _events o; tempDisplayObjectParent := tempDisplayObjectParent o; _transform := _transform o;
     _alpha := _alpha o; _visible := _visible o; _renderable := _renderable o; parent := parent o;
     worldAlpha := worldAlpha o; _lastSortedIndex := _lastSortedIndex o; _zIndex := _zIndex o; filterArea :=
     filterArea o; filters := filters o; _enabledFilters := _enabledFilters o; _bounds := v; _boundsID :=
     _boundsID o; _lastBoundsID := _lastBoundsID o; _boundsRect := _boundsRect o; _localBoundsRect :=
     _localBoundsRect o; _mask := _mask o; _destroyed := _destroyed o; isSprite := isSprite o; isMask :=
     isMask o; _currentBounds := _currentBounds o; hitArea := hitArea o; interactive := interactive o;
     interactiveChildren := interactiveChildren o; maskObject := maskObject o; children := children o |}.
Definition set__boundsID (v : Z) (o : DisplayObject) : DisplayObject :=
  {| _events := _events o; tempDisplayObjectParent := tempDisplayObjectParent o; _transform := _transform o;
     _alpha := _alpha o; _visible := _visible o; _renderable := _renderable o; parent := parent o;
     worldAlpha := worldAlpha o; _lastSortedIndex := _lastSortedIndex o; _zIndex := _zIndex o; filterArea :=
     filterArea o; filters := filters o; _enabledFilters := _enabledFilters o; _bounds := _bounds o;
     _boundsID := v; _lastBoundsID := _lastBoundsID o; _boundsRect := _boundsRect o; _localBoundsRect :=
     _localBoundsRect o; _mask := _mask o; _destroyed := _destroyed o; isSprite := isSprite o; isMask :=
     isMask o; _currentBounds := _currentBounds o; hitArea := hitArea o; interactive := interactive o;
     interactiveChildren := interactiveChildren o; maskObject := maskObject o; children := children o |}.
Definition set__lastBoundsID (v : Z) (o : DisplayObject) : DisplayObject :=
  {| _events := _events o; tempDisplayObjectParent := tempDisplayObjectParent o; _transform := _transform o;
     _alpha := _alpha o; _visible := _visible o; _renderable := _renderable o; parent := parent o;
     worldAlpha := worldAlpha o; _lastSortedIndex := _lastSortedIndex o; _zIndex := _zIndex o; filterArea :=
     filterArea o; filters := filters o; _enabledFilters := _enabledFilters o; _bounds := _bounds o;
     _boundsID := _boundsID o; _lastBoundsID := v; _boundsRect := _boundsRect o; _localBoundsRect :=
     _localBoundsRect o; _mask := _mask o; _destroyed := _destroyed o; isSprite := isSprite o; isMask :=
     isMask o; _currentBounds := _currentBounds o; hitArea := hitArea o; interactive := interactive o;
     interactiveChildren := interactiveChildren o; maskObject := maskObject o; children := children o |}.
Definition set__boundsRect (v : option ref) (o : DisplayObject) : DisplayObject :=
  {| _events := _events o; tempDisplayObjectParent := tempDisplayObjectParent o; _transform := _transform o;
     _alpha := _alpha o; _visible := _visible o; _renderable := _renderable o; parent := parent o;
     worldAlpha := worldAlpha o; _lastSortedIndex := _lastSortedIndex o; _zIndex := _zIndex o; filterArea :=
     filterArea o; filters := filters o; _enabledFilters := _enabledFilters o; _bounds := _bounds o;
     _boundsID := _boundsID o; _lastBoundsID := _lastBoundsID o; _boundsRect := v; _localBoundsRect :=
     _localBoundsRect o; _mask := _mask o; _destroyed := _destroyed o; isSprite := isSprite o; isMask :=
     isMask o; _currentBounds := _currentBounds o; hitArea := hitArea o; interactive := interactive o;
     interactiveChildren := interactiveChildren o; maskObject := maskObject o; children := children o |}.
Definition set__localBoundsRect (v : option ref) (o : DisplayObject) : DisplayObject :=
  {| _events := _events o; tempDisplayObjectParent := tempDisplayObjectParent o; _transform := _transform o;
     _alpha := _alpha o; _visible := _visible o; _renderable := _renderable o; parent := parent o;
     worldAlpha := worldAlpha o; _lastSortedIndex := _lastSortedIndex o; _zIndex := _zIndex o; filterArea :=
     filterArea o; filters := filters o; _enabledFilters := _enabledFilters o; _bounds := _bounds o;
     _boundsID := _boundsID o; _lastBoundsID := _lastBoundsID o; _boundsRect := _boundsRect o;
     _localBoundsRect := v; _mask := _mask o; _destroyed := _destroyed o; isSprite := isSprite o; isMask :=
     isMask o; _currentBounds := _currentBounds o; hitArea := hitArea o; interactive := interactive o;
     interactiveChildren := interactiveChildren o; maskObject := maskObject o; children := children o |}.
Definition set__mask (v : option ref) (o : DisplayObject) : DisplayObject :=
  {| _events := _events o; tempDisplayObjectParent := tempDisplayObjectParent o; _transform := _transform o;
     _alpha := _alpha o; _visible := _visible o; _renderable := _renderable o; parent := parent o;
     worldAlpha := worldAlpha o; _lastSortedIndex := _lastSortedIndex o; _zIndex := _zIndex o; filterArea :=
     filterArea o; filters := filters o; _enabledFilters := _enabledFilters o; _bounds := _bounds o;
     _boundsID := _boundsID o; _lastBoundsID := _lastBoundsID o; _boundsRect := _boundsRect o;
     _localBoundsRect := _localBoundsRect o; _mask := v; _destroyed := _destroyed o; isSprite := isSprite o;
     isMask := isMask o; _currentBounds := _currentBounds o; hitArea := hitArea o; interactive :=
     interactive o; interactiveChildren := interactiveChildren o; maskObject := maskObject o; children :=
     children o |}.
Definition set__destroyed (v : bool) (o : DisplayObject) : DisplayObject :=
  {| _events := _events o; tempDisplayObjectParent := tempDisplayObjectParent o; _transform := _transform o;
     _alpha := _alpha o; _visible := _visible o; _renderable := _renderable o; parent := parent o;
     worldAlpha := worldAlpha o; _lastSortedIndex := _lastSortedIndex o; _zIndex := _zIndex o; filterArea :=
     filterArea o; filters := filters o; _enabledFilters := _enabledFilters o; _bounds := _bounds o;
     _boundsID := _boundsID o; _lastBoundsID := _lastBoundsID o; _boundsRect := _boundsRect o;
     _localBoundsRect := _localBoundsRect o; _mask := _mask o; _destroyed := v; isSprite := isSprite o;
     isMask := isMask o; _currentBounds := _currentBounds o; hitArea := hitArea o; interactive :=
     interactive o; interactiveChildren := interactiveChildren o; maskObject := maskObject o; children :=
     children o |}.
Definition set_isMask (v : bool) (o : DisplayObject) : DisplayObject :=
  {| _events := _events o; tempDisplayObjectParent := tempDisplayObjectParent o; _transform := _transform o;
     _alpha := _alpha o; _visible := _visible o; _renderable := _renderable o; parent := parent o;
     worldAlpha := worldAlpha o; _lastSortedIndex := _lastSortedIndex o; _zIndex := _zIndex o; filterArea :=
     filterArea o; filters := filters o; _enabledFilters := _enabledFilters o; _bounds := _bounds o;
     _boundsID := _boundsID o; _lastBoundsID := _lastBoundsID o; _boundsRect := _boundsRect o;
     _localBoundsRect := _localBoundsRect o; _mask := _mask o; _destroyed := _destroyed o; isSprite :=
     isSprite o; isMask := v; _currentBounds := _currentBounds o; hitArea := hitArea o; interactive :=
     interactive o; interactiveChildren := interactiveChildren o; maskObject := maskObject o; children :=
     children o |}.
Definition set__currentBounds (v : option Bounds) (o : DisplayObject) : DisplayObject :=
  {| _events := _events o; tempDisplayObjectParent := tempDisplayObjectParent o; _transform := _transform o;
     _alpha := _alpha o; _visible := _visible o; _renderable := _renderable o; parent := parent o;
     worldAlpha := worldAlpha o; _lastSortedIndex := _lastSortedIndex o; _zIndex := _zIndex o; filterArea :=
     filterArea o; filters := filters o; _enabledFilters := _enabledFilters o; _bounds := _bounds o;
     _boundsID := _boundsID o; _lastBoundsID := _lastBoundsID o; _boundsRect := _boundsRect o;
     _localBoundsRect := _localBoundsRect o; _mask := _mask o; _destroyed := _destroyed o; isSprite :=
     isSprite o; isMask := isMask o; _currentBounds := v; hitArea := hitArea o; interactive := interactive
     o; interactiveChildren := interactiveChildren o; maskObject := maskObject o; children := children o |}.
Definition set_hitArea (v : option Rectangle) (o : DisplayObject) : DisplayObject :=
  {| _events := _events o; tempDisplayObjectParent := tempDisplayObjectParent o; _transform := _transform o;
     _alpha := _alpha o; _visible := _visible o; _renderable := _renderable o; parent := parent o;
     worldAlpha := worldAlpha o; _lastSortedIndex := _lastSortedIndex o; _zIndex := _zIndex o; filterArea :=
     filterArea o; filters := filters o; _enabledFilters := _enabledFilters o; _bounds := _bounds o;
     _boundsID := _boundsID o; _lastBoundsID := _lastBoundsID o; _boundsRect := _boundsRect o;
     _localBoundsRect := _localBoundsRect o; _mask := _mask o; _destroyed := _destroyed o; isSprite :=
     isSprite o; isMask := isMask o; _currentBounds := _currentBounds o; hitArea := v; interactive :=
     interactive o; interactiveChildren := interactiveChildren o; maskObject := maskObject o; children :=
     children o |}.
Definition set_interactive (v : option bool) (o : DisplayObject) : DisplayObject :=
  {| _events := _events o; tempDisplayObjectParent := tempDisplayObjectParent o; _transform := _transform o;
     _alpha := _alpha o; _visible := _visible o; _renderable := _renderable o; parent := parent o;
     worldAlpha := worldAlpha o; _lastSortedIndex := _lastSortedIndex o; _zIndex := _zIndex o; filterArea :=
     filterArea o; filters := filters o; _enabledFilters := _enabledFilters o; _bounds := _bounds o;
     _boundsID := _boundsID o; _lastBoundsID := _lastBoundsID o; _boundsRect := _boundsRect o;
     _localBoundsRect := _localBoundsRect o; _mask := _mask o; _destroyed := _destroyed o; isSprite :=
     isSprite o; isMask := isMask o; _currentBounds := _currentBounds o; hitArea := hitArea o; interactive
     := v; interactiveChildren := interactiveChildren o; maskObject := maskObject o; children := children o
     |}.
Definition set_interactiveChildren (v : option bool) (o : DisplayObject) : DisplayObject :=
  {| _events := _events o; tempDisplayObjectParent := tempDisplayObjectParent o; _transform := _transform o;
     _alpha := _alpha o; _visible := _visible o; _renderable := _renderable o; parent := parent o;
     worldAlpha := worldAlpha o; _lastSortedIndex := _lastSortedIndex o; _zIndex := _zIndex o; filterArea :=
     filterArea o; filters := filters o; _enabledFilters := _enabledFilters o; _bounds := _bounds o;
     _boundsID := _boundsID o; _lastBoundsID := _lastBoundsID o; _boundsRect := _boundsRect o;
     _localBoundsRect := _localBoundsRect o; _mask := _mask o; _destroyed := _destroyed o; isSprite :=
     isSprite o; isMask := isMask o; _currentBounds := _currentBounds o; hitArea := hitArea o; interactive
     := interactive o; interactiveChildren := v; maskObject := maskObject o; children := children o |}.
Definition set_children (v : list ref) (o : DisplayObject) : DisplayObject :=
  {| _events := _events o; tempDisplayObjectParent := tempDisplayObjectParent o; _transform := _transform o;
     _alpha := _alpha o; _visible := _visible o; _renderable := _renderable o; parent := parent o;
     worldAlpha := worldAlpha o; _lastSortedIndex := _lastSortedIndex o; _zIndex := _zIndex o; filterArea :=
     filterArea o; filters := filters o; _enabledFilters := _enabledFilters o; _bounds := _bounds o;
     _boundsID := _boundsID o; _lastBoundsID := _lastBoundsID o; _boundsRect := _boundsRect o;
     _localBoundsRect := _localBoundsRect o; _mask := _mask o; _destroyed := _destroyed o; isSprite :=
     isSprite o; isMask := isMask o; _currentBounds := _currentBounds o; hitArea := hitArea o; interactive
     := interactive o; interactiveChildren := interactiveChildren o; maskObject := maskObject o; children :=
     v |}.

(** The page: the objects, transforms and rectangles allocated so far,
    the global flag [window.pixiChanged], and the list of receivers on
    which [calculateBounds] has been invoked (kept by the embedding, out
    of reach of the code). *)
Record World := {
  objects : gmap ref DisplayObject;
  transforms : gmap ref Transform;
  rectangles : gmap ref Rectangle;
  pixiChanged : bool;
  calculateBounds_calls : list ref
}.

Definition set_objects (v : gmap ref DisplayObject) (w : World) : World :=
  {| objects := v; transforms := transforms w; rectangles := rectangles w;
     pixiChanged := pixiChanged w; calculateBounds_calls := calculateBounds_calls w |}.
Definition set_transforms (v : gmap ref Transform) (w : World) : World :=
  {| objects := objects w; transforms := v; rectangles := rectangles w;
     pixiChanged := pixiChanged w; calculateBounds_calls := calculateBounds_calls w |}.
Definition set_rectangles (v : gmap ref Rectangle) (w : World) : World :=
  {| objects := objects w; transforms := transforms w; rectangles := v;
     pixiChanged := pixiChanged w; calculateBounds_calls := calculateBounds_calls w |}.
Definition set_pixiChanged (v : bool) (w : World) : World :=
  {| objects := objects w; transforms := transforms w; rectangles := rectangles w;
     pixiChanged := v; calculateBounds_calls := calculateBounds_calls w |}.
Definition set_calculateBounds_calls (v : list ref) (w : World) : World :=
  {| objects := objects w; transforms := transforms w; rectangles := rectangles w;
     pixiChanged := pixiChanged w; calculateBounds_calls := v |}.

Definition empty_world : World :=
  {| objects := ∅; transforms := ∅; rectangles := ∅; pixiChanged := false;
     calculateBounds_calls := [] |}.

(** *** Access to the stores

    A reference that names nothing cannot arise in JavaScript; the
    embedding answers it with a TypeError, like a [null]. *)

Definition load (this : ref) : M World DisplayObject := λ w,
  match objects w !! this with
  | Some o => (Return o, w)
  | None => (Throw TypeError, w)
  end.

(** [this.field = v], as the record update [f]. *)
Definition store (this : ref) (f : DisplayObject → DisplayObject) : M World unit := λ w,
  match objects w !! this with
  | Some o => (Return tt, set_objects (<[this := f o]> (objects w)) w)
  | None => (Throw TypeError, w)
  end.

Definition load_transform (t : ref) : M World Transform := λ w,
  match transforms w !! t with
  | Some T => (Return T, w)
  | None => (Throw TypeError, w)
  end.

Definition new_object (o : DisplayObject) : M World ref := λ w,
  let r := fresh (dom (objects w)) in
  (Return r, set_objects (<[r := o]> (objects w)) w).

Definition new_Transform : M World ref := λ w,
  let r := fresh (dom (transforms w)) in
  (Return r, set_transforms (<[r := Transform_new]> (transforms w)) w).

Definition new_Rectangle : M World ref := λ w,
  let r := fresh (dom (rectangles w)) in
  (Return r, set_rectangles (<[r := Rectangle_new]> (rectangles w)) w).

(** *** The class *)

(** [constructor()]: the fields as it leaves them, [t] being the
    transform it has just made. *)
Definition constructed (t : ref) : DisplayObject :=
  {| _events := [];
     tempDisplayObjectParent := None;
     _transform := Some t;
     _alpha := 1%float;
     _visible := true;
     _renderable := true;
     parent := None;
     worldAlpha := 1%float;
     _lastSortedIndex := 0;
     _zIndex := 0;
     filterArea := None;
     filters := None;
     _enabledFilters := None;
     _bounds := Some Bounds_new;
     _boundsID := 0;
     _lastBoundsID := -1;
     _boundsRect := None;
     _localBoundsRect := None;
     _mask := None;
     _destroyed := false;
     isSprite := false;
     isMask := false;
     _currentBounds := None;
     hitArea := None;
     interactive := None;
     interactiveChildren := None;
     maskObject := None;
     children := [] |}.

Definition constructor : M World ref :=
  t ← new_Transform;
  new_object (constructed t).

(** [t.updateTransform(p)] on the transform objects at [t] and [p]. *)
Definition transform_updateTransform (t p : ref) : M World unit :=
  T ← load_transform t;
  P ← load_transform p;
  modify_state (λ w, set_transforms (<[t := Transform_updateTransform T P]> (transforms w)) w).

(** [set transform(value)]: the flag is computed with [||], so the
    components are compared (through [this._transform] and [value]) only
    while [window.pixiChanged] is falsy. *)
Definition transform_setter (this : ref) (value : option ref) : M World unit :=
  w ← get_state;
  changed ←
    (if pixiChanged w then mret true
     else
       o ← load this;
       t ← nonnull (_transform o);
       T ← load_transform t;
       v ← nonnull value;
       V ← load_transform v;
       mret (strict_ne (Point.x (position T)) (Point.x (position V))
             || strict_ne (Point.y (position T)) (Point.y (position V))
             || strict_ne (Point.x (scale T)) (Point.x (scale V))
             || strict_ne (Point.y (scale T)) (Point.y (scale V))
             || strict_ne (rotation T) (rotation V)
             || strict_ne (Point.x (skew T)) (Point.x (skew V))
             || strict_ne (Point.y (skew T)) (Point.y (skew V))
             || strict_ne (Point.x (pivot T)) (Point.x (pivot V))
             || strict_ne (Point.y (pivot T)) (Point.y (pivot V))));
  modify_state (set_pixiChanged changed) ;;
  store this (set__transform value).

(** [set visible(value)] *)
Definition visible_setter (this : ref) (value : bool) : M World unit :=
  o ← load this;
  modify_state (λ w, set_pixiChanged (pixiChanged w || negb (eqb (_visible o) value)) w) ;;
  store this (set__visible value).

(** [set alpha(value)] *)
Definition alpha_setter (this : ref) (value : float) : M World unit :=
  o ← load this;
  modify_state (λ w, set_pixiChanged (pixiChanged w || strict_ne (_alpha o) value) w) ;;
  store this (set__alpha value).

(** [set renderable(value)] *)
Definition renderable_setter (this : ref) (value : bool) : M World unit :=
  o ← load this;
  modify_state (λ w, set_pixiChanged (pixiChanged w || negb (eqb (_renderable o) value)) w) ;;
  store this (set__renderable value).

(** [get _tempDisplayObjectParent()]: the sentinel is a field of the
    receiver, built on first use. *)
Definition _tempDisplayObjectParent (this : ref) : M World ref :=
  o ← load this;
  match tempDisplayObjectParent o with
  | None =>
      p ← constructor;
      store this (set_tempDisplayObjectParent (Some p)) ;;
      mret p
  | Some p => mret p
  end.

(** [updateTransform()] *)
Definition updateTransform (this : ref) : M World unit :=
  store this (λ o, set__boundsID (_boundsID o + 1) o) ;;
  o ← load this;
  t ← nonnull (_transform o);
  p ← nonnull (parent o);
  po ← load p;
  pt ← nonnull (_transform po);
  transform_updateTransform t pt ;;
  o ← load this;
  p ← nonnull (parent o);
  po ← load p;
  store this (set_worldAlpha (_alpha o * worldAlpha po)%float).

(** [DisplayObject.prototype.displayObjectUpdateTransform] is the method
    above under a second name. *)
Definition displayObjectUpdateTransform : ref → M World unit := updateTransform.

Section Engine.

(** [calculateBounds()] does nothing in this class and is meant to be
    overwritten: the methods below take the implementation in force for
    each receiver as [calculateBounds].  [stack] is the depth of nested
    calls the engine allows before it raises a RangeError. *)
Variable calculateBounds : ref → M World unit.
Variable stack : nat.

(** The call [this.calculateBounds()], recorded. *)
Definition invoke_calculateBounds (this : ref) : M World unit := λ w,
  let '(r, w') := calculateBounds this w in
  (r, set_calculateBounds_calls (calculateBounds_calls w ++ [this]) w').

(** [_recursivePostUpdateTransform()] *)
Fixpoint _recursivePostUpdateTransform_at (depth : nat) (this : ref) : M World unit :=
  match depth with
  | O => throw RangeError
  | S depth' =>
      o ← load this;
      match parent o with
      | Some p =>
          _recursivePostUpdateTransform_at depth' p ;;
          o ← load this;
          t ← nonnull (_transform o);
          p ← nonnull (parent o);
          po ← load p;
          pt ← nonnull (_transform po);
          transform_updateTransform t pt
      | None =>
          t ← nonnull (_transform o);
          s ← _tempDisplayObjectParent this;
          so ← load s;
          st ← nonnull (_transform so);
          transform_updateTransform t st
      end
  end.

Definition _recursivePostUpdateTransform : ref → M World unit :=
  _recursivePostUpdateTransform_at stack.

(** [getBounds(skipUpdate, rect)] *)
Definition getBounds (this : ref) (skipUpdate : bool) (rect : option ref) : M World ref :=
  (if skipUpdate then mret tt
   else
     o ← load this;
     match parent o with
     | None =>
         p ← _tempDisplayObjectParent this;
         store this (set_parent (Some p)) ;;
         updateTransform this ;;
         store this (set_parent None)
     | Some _ =>
         _recursivePostUpdateTransform this ;;
         updateTransform this
     end) ;;
  o ← load this;
  (if bool_decide (_boundsID o ≠ _lastBoundsID o) then
     invoke_calculateBounds this ;;
     store this (λ o, set__lastBoundsID (_boundsID o) o)
   else mret tt) ;;
  rect ←
    match rect with
    | Some r => mret r
    | None =>
        o ← load this;
        match _boundsRect o with
        | None =>
            r ← new_Rectangle;
            store this (set__boundsRect (Some r)) ;;
            mret r
        | Some r => mret r
        end
    end;
  o ← load this;
  b ← nonnull (_bounds o);
  modify_state (λ w, set_rectangles (<[rect := Bounds_getRectangle b]> (rectangles w)) w) ;;
  mret rect.

(** [getLocalBounds(rect)] *)
Definition getLocalBounds (this : ref) (rect : option ref) : M World ref :=
  o ← load this;
  let transformRef := _transform o in
  let parentRef := parent o in
  store this (set_parent None) ;;
  s ← _tempDisplayObjectParent this;
  so ← load s;
  transform_setter this (_transform so) ;;
  rect ←
    match rect with
    | Some r => mret r
    | None =>
        o ← load this;
        match _localBoundsRect o with
        | None =>
            r ← new_Rectangle;
            store this (set__localBoundsRect (Some r)) ;;
            mret r
        | Some r => mret r
        end
    end;
  bounds ← getBounds this false (Some rect);
  store this (set_parent parentRef) ;;
  transform_setter this transformRef ;;
  mret bounds.

(** [toGlobal(position, point, skipUpdate = false)]; points are values
    here, so the optional output [point] is left out. *)
Definition toGlobal (this : ref) (position : Point.t) (skipUpdate : bool) : M World Point.t :=
  (if skipUpdate then mret tt
   else
     _recursivePostUpdateTransform this ;;
     o ← load this;
     match parent o with
     | None =>
         p ← _tempDisplayObjectParent this;
         store this (set_parent (Some p)) ;;
         displayObjectUpdateTransform this ;;
         store this (set_parent None)
     | Some _ => displayObjectUpdateTransform this
     end) ;;
  o ← load this;
  t ← nonnull (_transform o);
  T ← load_transform t;
  mret (Matrix_apply T position).

(** [toLocal(position, from, point, skipUpdate)] *)
Definition toLocal (this : ref) (position : Point.t) (from : option ref) (skipUpdate : bool)
    : M World Point.t :=
  position ←
    match from with
    | Some f => toGlobal f position skipUpdate
    | None => mret position
    end;
  (if skipUpdate then mret tt
   else
     _recursivePostUpdateTransform this ;;
     o ← load this;
     match parent o with
     | None =>
         p ← _tempDisplayObjectParent this;
         store this (set_parent (Some p)) ;;
         displayObjectUpdateTransform this ;;
         store this (set_parent None)
     | Some _ => displayObjectUpdateTransform this
     end) ;;
  o ← load this;
  t ← nonnull (_transform o);
  T ← load_transform t;
  mret (Matrix_applyInverse T position).

End Engine.

(** The implementation of [calculateBounds] in this class: [// OVERWRITE]. *)
Definition calculateBounds : ref → M World unit := λ _, mret tt.

(** Modelled from the spec: [Container.removeChild] is not part of the
    sources at hand; by the spec it takes the child out of the parent's
    child collection and leaves it without a parent. *)
Definition Container_removeChild (container child : ref) : M World unit :=
  c ← load container;
  if bool_decide (child ∈ children c) then
    store container (λ c, set_children (filter (λ k, k ≠ child) (children c)) c) ;;
    store child (set_parent None)
  else mret tt.

(** Modelled from the spec: [EventEmitter.removeAllListeners] is not part
    of the sources at hand; it clears the listener table. *)
Definition removeAllListeners (this : ref) : M World unit :=
  store this (set__events []).

(** [destroy()] *)
Definition destroy (this : ref) : M World unit :=
  o ← load this;
  match parent o with
  | Some p => Container_removeChild p this
  | None => mret tt
  end ;;
  removeAllListeners this ;;
  transform_setter this None ;;
  store this (set_parent None) ;;
  store this (set__bounds None) ;;
  store this (set__currentBounds None) ;;
  store this (set__mask None) ;;
  store this (set_filters None) ;;
  store this (set_filterArea None) ;;
  store this (set_hitArea None) ;;
  store this (set_interactive (Some false)) ;;
  store this (set_interactiveChildren (Some false)) ;;
  store this (set__destroyed true).

(** [set mask(value)] *)
Definition mask_setter (this : ref) (value : option ref) : M World unit :=
  modify_state (λ w, set_pixiChanged (pixiChanged w || true) w) ;;
  o ← load this;
  match _mask o with
  | Some m =>
      mo ← load m;
      let maskObject := default m (maskObject mo) in
      renderable_setter maskObject true ;;
      store maskObject (set_isMask false)
  | None => mret tt
  end ;;
  store this (set__mask value) ;;
  o ← load this;
  match _mask o with
  | Some m =>
      mo ← load m;
      let maskObject := default m (maskObject mo) in
      renderable_setter maskObject false ;;
      store maskObject (set_isMask true)
  | None => mret tt
  end.

(** *** Detached nodes and their sentinel *)

(** A sentinel already built is a live object with a live transform. *)
Definition sentinel_ready (w : World) (o : DisplayObject) : Prop :=
  ∀ s, tempDisplayObjectParent o = Some s →
    ∃ so st ST, objects w !! s = Some so ∧ _transform so = Some st ∧
                transforms w !! st = Some ST.

(** A live detached node. *)
Definition detached (w : World) (n : ref) (o : DisplayObject) : Prop :=
  objects w !! n = Some o ∧ parent o = None ∧
  (∃ t T, _transform o = Some t ∧ transforms w !! t = Some T) ∧
  sentinel_ready w o.

(** What a query leaves of the borrowing: the node is detached again and
    holds its sentinel, the one it had or else a new object as the
    constructor makes it (no parent, [worldAlpha = 1], a transform of its
    own as [new Transform()] gives it); and every object that existed has
    the parent it had. *)
Definition sentinel_returned (n : ref) (o : DisplayObject) (w w' : World) : Prop :=
  (∃ o' s,
     objects w' !! n = Some o' ∧ parent o' = None ∧
     tempDisplayObjectParent o' = Some s ∧
     match tempDisplayObjectParent o with
     | Some s0 => s = s0
     | None =>
         objects w !! s = None ∧
         ∃ so st,
           objects w' !! s = Some so ∧ parent so = None ∧
           worldAlpha so = 1%float ∧ tempDisplayObjectParent so = None ∧
           _transform so = Some st ∧ transforms w !! st = None ∧
           transforms w' !! st = Some Transform_new
     end) ∧
  (∀ k ok, objects w !! k = Some ok →
     ∃ ok', objects w' !! k = Some ok' ∧ parent ok' = parent ok).

(** The borrowing itself, step by step: the node asks for its sentinel,
    takes it for parent, is updated by [updateTransform] while it is the
    child of the sentinel, and is detached again. *)
Definition borrowed (n : ref) (w w' : World) : Prop :=
  ∃ s w1 w2 w3,
    _tempDisplayObjectParent n w = (Return s, w1) ∧
    store n (set_parent (Some s)) w1 = (Return tt, w2) ∧
    (∃ o2, objects w2 !! n = Some o2 ∧ parent o2 = Some s) ∧
    updateTransform n w2 = (Return tt, w3) ∧
    store n (set_parent None) w3 = (Return tt, w').

End DisplayObject.

(** *** An instance to run the methods on

    Transforms that only translate: a transform is its local offset and
    its world offset, and the world offset of a child is the parent's
    plus its own local one.  Bounds are kept as the rectangle they
    enclose. *)
Definition Point_add (a b : Point.t) : Point.t :=
  {| Point.x := Point.x a + Point.x b; Point.y := Point.y a + Point.y b |}%float.
Definition Point_sub (a b : Point.t) : Point.t :=
  {| Point.x := Point.x a - Point.x b; Point.y := Point.y a - Point.y b |}%float.
Definition origin : Point.t := {| Point.x := 0; Point.y := 0 |}%float.
Definition unit_scale : Point.t := {| Point.x := 1; Point.y := 1 |}%float.

Definition translations : MathLib :=
  {| Transform := Point.t * Point.t;
     Transform_new := (origin, origin);
     position := fst;
     scale := λ _, unit_scale;
     rotation := λ _, 0%float;
     skew := λ _, origin;
     pivot := λ _, origin;
     Transform_updateTransform := λ t p, (t.1, Point_add p.2 t.1);
     Matrix_apply := λ t q, Point_add q t.2;
     Matrix_applyInverse := λ t q, Point_sub q t.2;
     Rectangle := Point.t * Point.t;
     Rectangle_new := (origin, origin);
     Bounds := Point.t * Point.t;
     Bounds_new := (origin, origin);
     Bounds_getRectangle := λ b, b |}.

(** The world left by a computation, whatever its outcome. *)
Definition after `{MathLib} {A} (m : M World A) (w : World) : World := (m w).2.

(** The call [m] made [k] times in a row. *)
Fixpoint times `{MathLib} {A} (k : nat) (m : M World A) : M World unit :=
  match k with
  | O => mret tt
  | S k' => m ;; times k' m
  end.


(** *** Worlds to run the methods in *)

Section Worlds.
Local Existing Instance translations.

Definition root : ref := 1%positive.
Definition child : ref := 2%positive.

(** A root and its child, both half transparent, on a page just
    repainted ([window.pixiChanged] cleared). *)
Definition family : World :=
  after
    (r ← constructor;
     c ← constructor;
     store c (set_parent (Some r)) ;;
     store r (set_children [c]) ;;
     store r (set_worldAlpha 0.5%float) ;;
     alpha_setter c 0.5%float ;;
     modify_state (set_pixiChanged false))
    empty_world.

(** Two detached nodes. *)
Definition two_nodes : World := after (constructor ;; constructor) empty_world.

End Worlds.


(** *** [worldVisible] and the way up to the root *)

Section Ancestors.
Context `{MathLib}.

(** [get worldVisible()].  The loop follows [parent] and has no bound of
    its own: [steps] is how many times its body may run, and [None] says
    that it is still running after that many. *)
Fixpoint worldVisible_from (steps : nat) (item : ref) (w : World) : option (Outcome bool) :=
  match steps with
  | O => None
  | S steps' =>
      match load item w with
      | (Return o, _) =>
          if negb (_visible o) then Some (Return false)
          else
            match parent o with
            | Some p => worldVisible_from steps' p w
            | None => Some (Return true)
            end
      | (Throw e, _) => Some (Throw e)
      end
  end.

Definition worldVisible (steps : nat) (this : ref) (w : World) : option (Outcome bool) :=
  worldVisible_from steps this w.

(** The objects met from [n] upwards, in that order, and where the
    parent of the last of them points. *)
Fixpoint path (w : World) (n : ref) (l : list DisplayObject) (top : option ref) : Prop :=
  match l with
  | [] => False
  | o :: above =>
      objects w !! n = Some o ∧
      match above with
      | [] => parent o = top
      | _ => ∃ p, parent o = Some p ∧ path w p above top
      end
  end.

(** A set of live nodes that the parent links never leave. *)
Definition closed_under_parent (w : World) (C : ref → Prop) : Prop :=
  ∀ k, C k → ∃ o p, objects w !! k = Some o ∧ parent o = Some p ∧ C p.

(** The test of the setter of [transform]: whether two transforms differ
    in one of the components it compares. *)
Definition differ (T V : Transform) : bool :=
  strict_ne (Point.x (position T)) (Point.x (position V))
  || strict_ne (Point.y (position T)) (Point.y (position V))
  || strict_ne (Point.x (scale T)) (Point.x (scale V))
  || strict_ne (Point.y (scale T)) (Point.y (scale V))
  || strict_ne (rotation T) (rotation V)
  || strict_ne (Point.x (skew T)) (Point.x (skew V))
  || strict_ne (Point.y (skew T)) (Point.y (skew V))
  || strict_ne (Point.x (pivot T)) (Point.x (pivot V))
  || strict_ne (Point.y (pivot T)) (Point.y (pivot V)).

(** [maskObject] is set by the mask wrapper that carries it. *)
Definition set_maskObject (v : option ref) (o : DisplayObject) : DisplayObject :=
  {| _events := _events o; tempDisplayObjectParent := tempDisplayObjectParent o; _transform := _transform o;
     _alpha := _alpha o; _visible := _visible o; _renderable := _renderable o; parent := parent o;
     worldAlpha := worldAlpha o; _lastSortedIndex := _lastSortedIndex o; _zIndex := _zIndex o; filterArea :=
     filterArea o; filters := filters o; _enabledFilters := _enabledFilters o; _bounds := _bounds o;
     _boundsID := _boundsID o; _lastBoundsID := _lastBoundsID o; _boundsRect := _boundsRect o;
     _localBoundsRect := _localBoundsRect o; _mask := _mask o; _destroyed := _destroyed o; isSprite :=
     isSprite o; isMask := isMask o; _currentBounds := _currentBounds o; hitArea := hitArea o; interactive
     := interactive o; interactiveChildren := interactiveChildren o; maskObject := v; children :=
     children o |}.

(** *** What the methods keep *)

(** A method keeps [P] when [P] holds in the world it leaves, returning
    or throwing, whenever it held in the world it was called in. *)
Definition keeps {A} (P : World → Prop) (m : M World A) : Prop :=
  ∀ w out w', P w → m w = (out, w') → P w'.

(** [window.pixiChanged] is set. *)
Definition marked (w : World) : Prop := pixiChanged w = true.

(** The node [n] is there and its [_boundsID] is at least [k]. *)
Definition counted (n : ref) (k : Z) (w : World) : Prop :=
  ∃ o, objects w !! n = Some o ∧ k ≤ _boundsID o.

(** The methods of the class, over the [calculateBounds] in force and
    the depth of calls allowed. *)
Definition every_method (hook : ref → M World unit) (stack : nat) (P : World → Prop) : Prop :=
  keeps P constructor
  ∧ (∀ this value, keeps P (transform_setter this value))
  ∧ (∀ this value, keeps P (visible_setter this value))
  ∧ (∀ this value, keeps P (alpha_setter this value))
  ∧ (∀ this value, keeps P (renderable_setter this value))
  ∧ (∀ this value, keeps P (mask_setter this value))
  ∧ (∀ this, keeps P (_tempDisplayObjectParent this))
  ∧ (∀ this, keeps P (updateTransform this))
  ∧ (∀ this, keeps P (_recursivePostUpdateTransform stack this))
  ∧ (∀ this skipUpdate rect, keeps P (getBounds hook stack this skipUpdate rect))
  ∧ (∀ this rect, keeps P (getLocalBounds hook stack this rect))
  ∧ (∀ this position skipUpdate, keeps P (toGlobal stack this position skipUpdate))
  ∧ (∀ this position from skipUpdate, keeps P (toLocal stack this position from skipUpdate))
  ∧ (∀ this, keeps P (destroy this)).

(** Predicates that no single write of the methods can break: a write
    to an object that does not lower its [_boundsID], a new object, any
    change to the transforms, the rectangles or the record of calls, and
    any write to [window.pixiChanged] that does not clear it. *)
Record stable (P : World → Prop) : Prop := {
  stable_store : ∀ w this o (f : DisplayObject → DisplayObject),
    P w → objects w !! this = Some o → _boundsID o ≤ _boundsID (f o) →
    P (set_objects (<[this := f o]> (objects w)) w);
  stable_new : ∀ w o,
    P w → P (set_objects (<[fresh (dom (objects w)) := o]> (objects w)) w);
  stable_transforms : ∀ w v, P w → P (set_transforms v w);
  stable_rectangles : ∀ w v, P w → P (set_rectangles v w);
  stable_calls : ∀ w v, P w → P (set_calculateBounds_calls v w);
  stable_flag : ∀ w b, P w → (pixiChanged w = true → b = true) → P (set_pixiChanged b w)
}.

End Ancestors.

(** *** More worlds *)

Section MoreWorlds.
Local Existing Instance translations.

Definition third : ref := 3%positive.

(** Three detached nodes. *)
Definition three_nodes : World :=
  after (constructor ;; constructor ;; constructor) empty_world.

(** Three nodes, the second a mask wrapper around the third. *)
Definition wrapped : World :=
  after (store child (set_maskObject (Some third))) three_nodes.

(** A node that is its own parent. *)
Definition knot : World :=
  after (r ← constructor; store r (set_parent (Some r))) empty_world.

(** The family with the root hidden. *)
Definition hidden_root : World := after (visible_setter root false) family.

(** The family once the child has been made more transparent: the page
    is marked as changed. *)
Definition faded : World := after (alpha_setter child 0.25%float) family.

(** A detached node moved away from the origin, on a page just repainted. *)
Definition away : @Transform translations :=
  ({| Point.x := 3; Point.y := 4 |}%float, origin).

Definition moved : World :=
  after
    (n ← constructor;
     modify_state (λ w, set_transforms (<[1%positive := away]> (transforms w)) w))
    empty_world.

End MoreWorlds.
End Scene.

(** ** The extension registry: [Extensions.ts] *)

Module Registry.

(** *** Values

    The values a submission can be, as far as the registry looks at them:
    primitives, arrays, and objects with their own properties and their
    prototype ([VNull] where the chain ends); a class is a callable
    object, its static members are its own properties and the class it
    extends is its prototype.  [id] is the identity of an object; numbers
    are integers, as priorities are.  Properties are data: no accessor
    runs when one is read. *)
Local Unset Elimination Schemes.
Inductive Value :=
  | VUndefined
  | VNull
  | VBoolean (b : bool)
  | VNumber (n : Z)
  | VString (s : string)
  | VArray (id : positive) (elements : list Value)
  | VObject (id : positive) (callable : bool) (own : list (string * Value)) (proto : Value).
Local Set Elimination Schemes.

(** [typeof v] *)
Definition typeof (v : Value) : string :=
  match v with
  | VUndefined => "undefined"
  | VNull => "object"
  | VBoolean _ => "boolean"
  | VNumber _ => "number"
  | VString _ => "string"
  | VArray _ _ => "object"
  | VObject _ callable _ _ => if callable then "function" else "object"
  end.

(** Whether [v] counts as true in a condition. *)
Definition truthy (v : Value) : bool :=
  match v with
  | VUndefined | VNull => false
  | VBoolean b => b
  | VNumber n => negb (n =? 0)
  | VString s => negb (String.eqb s "")
  | VArray _ _ | VObject _ _ _ _ => true
  end.

(** Own properties, in insertion order. *)
Definition Properties := list (string * Value).

Fixpoint own_property (name : string) (o : Properties) : option Value :=
  match o with
  | [] => None
  | (k, v) :: o' => if String.eqb k name then Some v else own_property name o'
  end.

(** [o.name] on a fresh object: [undefined] when absent. *)
Definition prop (name : string) (o : Properties) : Value :=
  default VUndefined (own_property name o).

(** [o.name = v] on a fresh object: in place when present, else appended. *)
Fixpoint set_prop (name : string) (v : Value) (o : Properties) : Properties :=
  match o with
  | [] => [(name, v)]
  | (k, x) :: o' =>
      if String.eqb k name then (k, v) :: o' else (k, x) :: set_prop name v o'
  end.

(** The index keys of an array. *)
Definition indexed (l : list Value) : Properties :=
  imap (λ i v, (pretty i, v)) l.

(** The properties a spread [{...v}] copies. *)
Definition own_properties (v : Value) : Properties :=
  match v with
  | VObject _ _ own _ => own
  | VArray _ l => indexed l
  | _ => []
  end.

(** Lookup along the prototype chain. *)
Fixpoint lookup_chain (name : string) (v : Value) : Value :=
  match v with
  | VObject _ _ own proto =>
      match own_property name own with
      | Some x => x
      | None => lookup_chain name proto
      end
  | VArray _ l => prop name (indexed l)
  | _ => VUndefined
  end.

(** Every [Outcome] is a computation of its own. *)
Global Instance Outcome_ret : MRet Outcome := λ A a, Return a.
Global Instance Outcome_bind : MBind Outcome := λ A B f m,
  match m with
  | Return a => f a
  | Throw e => Throw e
  end.

Definition lift {S A} (r : Outcome A) : M S A := λ s, (r, s).

(** [v.name]: reading a property of [null] or [undefined] is a TypeError. *)
Definition get (v : Value) (name : string) : Outcome Value :=
  match v with
  | VUndefined | VNull => Throw TypeError
  | _ => Return (lookup_chain name v)
  end.

(** [includes] and [indexOf] compare objects by identity and primitives
    by value (on integers the two comparisons agree). *)
Definition same_value (a b : Value) : bool :=
  match a, b with
  | VUndefined, VUndefined => true
  | VNull, VNull => true
  | VBoolean x, VBoolean y => eqb x y
  | VNumber x, VNumber y => x =? y
  | VString x, VString y => String.eqb x y
  | VArray i _, VArray j _ => Pos.eqb i j
  | VObject i _ _ _, VObject j _ _ _ => Pos.eqb i j
  | _, _ => false
  end.

Definition includes (l : list Value) (v : Value) : bool := existsb (same_value v) l.

(** The text of a value used as a property key.  An extension point is a
    string and is its own key; for an object the key is what its
    [toString()] gives, here the default text for all of them. *)
Fixpoint to_key (v : Value) : string :=
  match v with
  | VUndefined => "undefined"
  | VNull => "null"
  | VBoolean b => if b then "true" else "false"
  | VNumber n => pretty n
  | VString s => s
  | VArray _ l =>
      String.concat ","
        (map (λ x, match x with VUndefined | VNull => "" | _ => to_key x end) l)
  | VObject _ _ _ _ => "[object Object]"
  end.

(** *** [ExtensionType] *)

Module ExtensionType.
Definition BlendMode := "blend-mode".
End ExtensionType.

(** *** Normalisation *)

(** The record [normalizeExtension] returns is an object it has just
    made: its properties. *)
Definition ExtensionFormat := Properties.

(** The array [[ext.type]] is new as well; nothing looks at its identity. *)
Definition new_array (l : list Value) : Value := VArray 1 l.

(** [normalizeExtension(ext)]; the lines between [#if _DEBUG] and
    [#endif] are part of the function. *)
Definition normalizeExtension (ext : Value) : Outcome ExtensionFormat :=
  submitted ←
    (if bool_decide (typeof ext = "function") then mret true
     else if bool_decide (typeof ext = "object") then
       extension ← get ext "extension"; mret (truthy extension)
     else mret false);
  ext ←
    (if submitted : bool then
       extension ← get ext "extension";
       if negb (truthy extension) then
         Throw (Error "Extension class must have an extension object")
       else
         let metadata :=
           if bool_decide (typeof extension ≠ "object") then [("type", extension)]
           else own_properties extension in
         mret (inr (set_prop "ref" ext metadata) : Value + Properties)
     else mret (inl ext));
  ext ←
    match ext with
    | inr fresh => mret fresh
    | inl given =>
        if bool_decide (typeof given = "object") then mret (own_properties given)
        else Throw (Error "Invalid extension type")
    end;
  if bool_decide (typeof (prop "type" ext) = "string") then
    mret (set_prop "type" (new_array [prop "type" ext]) ext)
  else mret ext.

(** [a ?? b] *)
Definition nullish (a b : Value) : Value :=
  match a with
  | VUndefined | VNull => b
  | _ => a
  end.

(** [normalizeExtensionPriority(ext, defaultPriority)] *)
Definition normalizeExtensionPriority (ext : Value) (defaultPriority : Z) : Outcome Value :=
  e ← normalizeExtension ext;
  mret (nullish (prop "priority" e) (VNumber defaultPriority)).


(** *** Reading a table

    [_addHandlers], [_removeHandlers] and [_queue] are object literals
    [{}]: [table[type]] is the table's own entry of that name or, where
    it has none, the member of that name that every object inherits from
    [Object.prototype]. *)
Definition Object_prototype_members : list string :=
  ["constructor"; "__defineGetter__"; "__defineSetter__"; "hasOwnProperty";
   "__lookupGetter__"; "__lookupSetter__"; "isPrototypeOf"; "propertyIsEnumerable";
   "toString"; "valueOf"; "__proto__"; "toLocaleString"].

Inductive Slot (A : Type) :=
  | Own (a : A)
  | Inherited (name : string)
  | Missing.
Arguments Own {A} a.
Arguments Inherited {A} name.
Arguments Missing {A}.

Definition read {A} (table : gmap string A) (type : string) : Slot A :=
  match table !! type with
  | Some a => Own a
  | None =>
      if bool_decide (type ∈ Object_prototype_members) then Inherited type else Missing
  end.

(** Whether [table[type]] is [undefined]; whatever else it is, an entry
    or an inherited member, counts as true in a condition. *)
Definition is_missing {A} (s : Slot A) : bool :=
  match s with
  | Missing => true
  | _ => false
  end.

(** [table[name](ext)] where [table[name]] is inherited.  [__proto__] is
    the prototype itself, an object that cannot be called, and
    [__defineGetter__] and [__defineSetter__] refuse a second argument
    that is no function: a TypeError.  The other members return, without
    any effect, and what they return is dropped; those that take a
    property key make one of the record, which as in [to_key] is the
    default text. *)
Definition call_inherited {S} (name : string) : M S unit :=
  if bool_decide (name ∈ ["__proto__"; "__defineGetter__"; "__defineSetter__"])
  then throw TypeError
  else mret tt.

(** *** The registry

    A handler is a function of the code that claims an extension point;
    it works on that code's own state [Env] and may throw.  It does not
    call back into the registry. *)
Section Extensions.
Context {Env : Type}.

Definition ExtensionHandler := ExtensionFormat → M Env unit.

Record Extensions := {
  _addHandlers : gmap string ExtensionHandler;
  _removeHandlers : gmap string ExtensionHandler;
  _queue : gmap string (list ExtensionFormat)
}.

Definition empty_extensions : Extensions :=
  {| _addHandlers := ∅; _removeHandlers := ∅; _queue := ∅ |}.

Definition set__queue (q : gmap string (list ExtensionFormat)) (r : Extensions) : Extensions :=
  {| _addHandlers := _addHandlers r; _removeHandlers := _removeHandlers r; _queue := q |}.

(** The registry together with the state of the code around it. *)
Definition Page : Type := Extensions * Env.

(** Calling a handler. *)
Definition call (h : ExtensionHandler) (ext : ExtensionFormat) : M Page unit := λ p,
  let '(out, e) := h ext p.2 in (out, (p.1, e)).

(** [extensions.map(normalizeExtension)] *)
Fixpoint map_normalizeExtension (extensions : list Value) : Outcome (list ExtensionFormat) :=
  match extensions with
  | [] => mret []
  | x :: rest =>
      e ← normalizeExtension x;
      es ← map_normalizeExtension rest;
      mret (e :: es)
  end.

(** [ext.type.forEach(f)]: the elements of the array to go through.  A
    [type] that is no array and carries no [forEach] has none to call.
    A [type] that carries a [forEach] of the submitter's making would run
    that code, which is outside this embedding; it is answered like a
    [type] without one, and the statements below that depend on it take
    such a [type] out by hypothesis. *)
Definition type_forEach (ext : ExtensionFormat) (f : string → M Page unit) : M Page unit :=
  match prop "type" ext with
  | VArray _ types => forEach (map to_key types) f
  | _ => throw TypeError
  end.

(** [remove(...extensions)] *)
Definition remove (extensions : list Value) : M Page unit :=
  exts ← lift (map_normalizeExtension extensions);
  forEach exts (λ ext,
    type_forEach ext (λ type,
      p ← get_state;
      match read (_removeHandlers p.1) type with
      | Own handler => call handler ext
      | Inherited name => call_inherited name
      | Missing => mret tt
      end)).

(** What [add] does with one record under one of its types.  The
    record is queued only under a [type] for which [handlers[type]] is
    [undefined]; such a [type] names no inherited member, so that
    [queue[type]] is the queue's own entry. *)
Definition add_under (ext : ExtensionFormat) (type : string) : M Page unit :=
  p ← get_state;
  match read (_addHandlers p.1) type with
  | Missing =>
      modify_state (λ p : Page,
        (set__queue (<[type := default [] (_queue p.1 !! type) ++ [ext]]> (_queue p.1)) p.1,
         p.2))
  | Own handler => call handler ext
  | Inherited name => call_inherited name
  end.

(** [add(...extensions)] *)
Definition add (extensions : list Value) : M Page unit :=
  exts ← lift (map_normalizeExtension extensions);
  forEach exts (λ ext, type_forEach ext (add_under ext)).

(** [handle(type, onAdd, onRemove)]; the lines between [#if _DEBUG] and
    [#endif] are part of the method.  A [type] that gets past the test
    names no inherited member, so that [queue[type]] further down is the
    queue's own entry. *)
Definition handle (type : string) (onAdd onRemove : ExtensionHandler) : M Page unit :=
  p ← get_state;
  if negb (is_missing (read (_addHandlers p.1) type))
     || negb (is_missing (read (_removeHandlers p.1) type))
  then throw (Error ("Extension type " +:+ type +:+ " already has a handler"))
  else
    modify_state (λ p : Page,
      ({| _addHandlers := <[type := onAdd]> (_addHandlers p.1);
          _removeHandlers := <[type := onRemove]> (_removeHandlers p.1);
          _queue := _queue p.1 |}, p.2)) ;;
    p ← get_state;
    match _queue p.1 !! type with
    | Some queued =>
        forEach queued (call onAdd) ;;
        modify_state (λ p : Page, (set__queue (delete type (_queue p.1)) p.1, p.2))
    | None => mret tt
    end.

End Extensions.
Arguments Extensions Env : clear implicits.
Arguments Page Env : clear implicits.
Arguments ExtensionHandler Env : clear implicits.

(** *** [handleByList]

    The target list is an array of the claiming code; arrays are kept by
    address. *)
Definition Arrays := gmap positive (list Value).

Definition read_array (a : positive) : M Arrays (list Value) := λ h,
  match h !! a with
  | Some l => (Return l, h)
  | None => (Throw TypeError, h)
  end.

Definition write_array (a : positive) (l : list Value) : M Arrays unit :=
  modify_state (<[a := l]>).

(** The number a value is in a subtraction; [None] is NaN.  A priority is
    declared a number, and only numbers are converted exactly. *)
Definition to_number (v : Value) : option Z :=
  match v with
  | VNumber n => Some n
  | VBoolean b => Some (if b then 1 else 0)
  | VNull => Some 0
  | _ => None
  end.

(** [a - b] *)
Definition subtract (a b : Value) : option Z :=
  x ← to_number a; y ← to_number b; Some (x - y).

(** [Array.prototype.sort(comparefn)].  The sort is stable and takes
    [comparefn(x, y) > 0] to mean that [y] goes first, anything else
    (NaN too) that the two stay as they are; [undefined] elements go
    last without being compared.  It is written here as an insertion
    sort; when [comparefn] throws, the array is left as it was. *)
Definition is_positive (c : option Z) : bool :=
  match c with
  | Some n => bool_decide (0 < n)
  | None => false
  end.

Section Sort.
Variable comparefn : Value → Value → Outcome (option Z).

Fixpoint insert_sorted (x : Value) (sorted : list Value) : Outcome (list Value) :=
  match sorted with
  | [] => mret [x]
  | y :: rest =>
      c ← comparefn x y;
      if is_positive c then
        r ← insert_sorted x rest; mret (y :: r)
      else mret (x :: y :: rest)
  end.

Fixpoint sort_defined (l : list Value) : Outcome (list Value) :=
  match l with
  | [] => mret []
  | x :: rest => s ← sort_defined rest; insert_sorted x s
  end.

Definition is_undefined (v : Value) : bool :=
  match v with VUndefined => true | _ => false end.

Definition Array_sort (l : list Value) : Outcome (list Value) :=
  s ← sort_defined (filter (λ v, is_undefined v = false) l);
  mret (s ++ filter (λ v, is_undefined v = true) l).

End Sort.

(** The comparison [handleByList] sorts with. *)
Definition by_priority (defaultPriority : Z) (a b : Value) : Outcome (option Z) :=
  pb ← normalizeExtensionPriority b defaultPriority;
  pa ← normalizeExtensionPriority a defaultPriority;
  mret (subtract pb pa).

Definition handleByList_onAdd (list : positive) (defaultPriority : Z)
    : ExtensionHandler Arrays := λ extension,
  l ← read_array list;
  if includes l (prop "ref" extension) then mret tt
  else
    write_array list (l ++ [prop "ref" extension]) ;;
    sorted ← lift (Array_sort (by_priority defaultPriority) (l ++ [prop "ref" extension]));
    write_array list sorted.

(** [list.indexOf(v)]; [None] is -1. *)
Fixpoint indexOf (l : list Value) (v : Value) : option nat :=
  match l with
  | [] => None
  | x :: rest => if same_value v x then Some O else S <$> indexOf rest v
  end.

Definition handleByList_onRemove (list : positive) : ExtensionHandler Arrays := λ extension,
  l ← read_array list;
  match indexOf l (prop "ref" extension) with
  | Some index => write_array list (delete index l)
  | None => mret tt
  end.

(** [handleByList(type, list, defaultPriority = -1)] *)
Definition handleByList (type : string) (list : positive) (defaultPriority : option Z)
    : M (Page Arrays) unit :=
  handle type
    (handleByList_onAdd list (default (-1) defaultPriority))
    (handleByList_onRemove list).

(** *** The blend-mode classes

    [NegationBlend] and [ExclusionBlend] extend [BlendModeFilter], which
    is not part of the sources at hand and is a parameter here.  Each
    declares one static member, named [extensions]. *)
Definition Object_prototype : Value := VObject 2 false [] VNull.

Definition NegationBlend (BlendModeFilter : Value) : Value :=
  VObject 11 true
    [("extensions",
      VObject 12 false
        [("name", VString "negation"); ("type", VString ExtensionType.BlendMode)]
        Object_prototype)]
    BlendModeFilter.

Definition ExclusionBlend (BlendModeFilter : Value) : Value :=
  VObject 13 true
    [("extensions",
      VObject 14 false
        [("name", VString "exclusion"); ("type", VString ExtensionType.BlendMode)]
        Object_prototype)]
    BlendModeFilter.

(** *** Claimed points and queues *)

Section Handle.
Context {Env : Type}.
Implicit Types (r : Extensions Env) (onAdd onRemove : ExtensionHandler Env).

Definition already (type : string) : Exn :=
  Error ("Extension type " +:+ type +:+ " already has a handler").

(** The registry once [handle] has stored the two handlers. *)
Definition claimed (type : string) onAdd onRemove r : Extensions Env :=
  {| _addHandlers := <[type := onAdd]> (_addHandlers r);
     _removeHandlers := <[type := onRemove]> (_removeHandlers r);
     _queue := _queue r |}.

(** The records waiting for a handler of [type]. *)
Definition pending r (type : string) : list ExtensionFormat :=
  default [] (_queue r !! type).


End Handle.

(** *** Priorities of the entries of a list *)

(** The priority the sort reads off a stored ref, when it is a number. *)
Definition priority_of (defaultPriority : Z) (v : Value) : option Z :=
  match normalizeExtensionPriority v defaultPriority with
  | Return (VNumber n) => Some n
  | _ => None
  end.

Section Sorting.
Variable defaultPriority : Z.

Definition key (v : Value) : Z := default 0 (priority_of defaultPriority v).

(** Higher priority first. *)
Definition goes_before (a b : Value) : Prop := key b ≤ key a.

(** The list the sort produces when every comparison succeeds. *)
Fixpoint insert_desc (x : Value) (sorted : list Value) : list Value :=
  match sorted with
  | [] => [x]
  | y :: rest => if bool_decide (key x < key y) then y :: insert_desc x rest else x :: y :: rest
  end.

Definition sort_desc (l : list Value) : list Value := foldr insert_desc [] l.

End Sorting.

(** *** Submissions and pages to run the registry on *)

Definition Function_prototype : Value := VObject 3 false [] Object_prototype.

(** A class that carries its metadata in a static [extension], with or
    without a priority. *)
Definition plugin (id : positive) (type : string) (priority : option Z) : Value :=
  VObject id true
    [("extension",
      VObject (id + 100) false
        (("type", VString type) ::
         match priority with Some n => [("priority", VNumber n)] | None => [] end)
        Object_prototype)]
    Function_prototype.

(** An object with no metadata of its own, and a descriptor that submits
    it under a priority. *)
Definition bare (id : positive) : Value := VObject id false [] Object_prototype.

Definition descriptor (id : positive) (type : string) (ref : Value) (priority : Z) : Value :=
  VObject id false
    [("type", VString type); ("ref", ref); ("priority", VNumber priority)]
    Object_prototype.

(** A page whose only array, at address 1, is empty. *)
Definition start : Page Arrays := (empty_extensions, {[1%positive := []]}).

Definition target (p : Page Arrays) : option (list Value) := p.2 !! 1%positive.

Definition ran {A} (m : M (Page Arrays) A) : Page Arrays := (m start).2.

(** A handler that notes what it is called with, for an owner whose
    state is the list of its notes. *)
Definition note : ExtensionHandler (list ExtensionFormat) := λ ext,
  modify_state (λ notes, notes ++ [ext]).


Definition normalized (v : Value) : ExtensionFormat :=
  match normalizeExtension v with
  | Return e => e
  | Throw _ => []
  end.


(** *** [handleByMap]

    The target map is an object of the claiming code, kept by address: a
    dictionary of its own data properties, each under the text of its
    key. *)
Definition Maps := gmap positive (gmap string Value).

Definition read_map (a : positive) : M Maps (gmap string Value) := λ h,
  match h !! a with
  | Some m => (Return m, h)
  | None => (Throw TypeError, h)
  end.

Definition write_map (a : positive) (m : gmap string Value) : M Maps unit :=
  modify_state (<[a := m]>).

Definition handleByMap_onAdd (map : positive) : ExtensionHandler Maps := λ extension,
  m ← read_map map;
  write_map map (<[to_key (prop "name" extension) := prop "ref" extension]> m).

Definition handleByMap_onRemove (map : positive) : ExtensionHandler Maps := λ extension,
  m ← read_map map;
  write_map map (delete (to_key (prop "name" extension)) m).

(** [handleByMap(type, map)] *)
Definition handleByMap (type : string) (map : positive) : M (Page Maps) unit :=
  handle type (handleByMap_onAdd map) (handleByMap_onRemove map).

(** *** [handleByNamedList]

    The entries of the target array are objects [{ name, value }]; the
    handler makes a new one for each name it takes, and nothing looks at
    its identity. *)
Definition new_item (name value : Value) : Value :=
  VObject 4 false [("name", name); ("value", value)] Object_prototype.

(** [map.findIndex((item) => item.name === name)]; [None] is -1.  On the
    values at hand [===] is the comparison [same_value] makes. *)
Fixpoint findIndex_name (l : list Value) (name : Value) : Outcome (option nat) :=
  match l with
  | [] => mret None
  | item :: rest =>
      n ← get item "name";
      if same_value n name then mret (Some O)
      else
        index ← findIndex_name rest name;
        mret (S <$> index)
  end.

(** The comparison [handleByNamedList] sorts with. *)
Definition by_value_priority (defaultPriority : Z) (a b : Value) : Outcome (option Z) :=
  vb ← get b "value";
  pb ← normalizeExtensionPriority vb defaultPriority;
  va ← get a "value";
  pa ← normalizeExtensionPriority va defaultPriority;
  mret (subtract pb pa).

Definition handleByNamedList_onAdd (map : positive) (defaultPriority : Z)
    : ExtensionHandler Arrays := λ extension,
  l ← read_array map;
  index ← lift (findIndex_name l (prop "name" extension));
  match index with
  | Some _ => mret tt
  | None =>
      let item := new_item (prop "name" extension) (prop "ref" extension) in
      write_array map (l ++ [item]) ;;
      sorted ← lift (Array_sort (by_value_priority defaultPriority) (l ++ [item]));
      write_array map sorted
  end.

Definition handleByNamedList_onRemove (map : positive) : ExtensionHandler Arrays := λ extension,
  l ← read_array map;
  index ← lift (findIndex_name l (prop "name" extension));
  match index with
  | Some i => write_array map (delete i l)
  | None => mret tt
  end.

(** [handleByNamedList(type, map, defaultPriority = -1)] *)
Definition handleByNamedList (type : string) (map : positive) (defaultPriority : option Z)
    : M (Page Arrays) unit :=
  handle type
    (handleByNamedList_onAdd map (default (-1) defaultPriority))
    (handleByNamedList_onRemove map).

(** *** Orders and removals, for the statements *)

(** A list sorted by descending [k], built by insertion from the right:
    what the sort produces when every comparison gives the difference of
    the [k] of its arguments. *)
Section SortBy.
Variable k : Value → Z.

Fixpoint insert_by (x : Value) (sorted : list Value) : list Value :=
  match sorted with
  | [] => [x]
  | y :: rest => if bool_decide (k x < k y) then y :: insert_by x rest else x :: y :: rest
  end.

Definition sort_by (l : list Value) : list Value := foldr insert_by [] l.

End SortBy.

(** The list without the first entry that is [v]. *)
Definition without (v : Value) (l : list Value) : list Value :=
  match indexOf l v with
  | Some index => delete index l
  | None => l
  end.

(** The entries of a named list: what they are called and what they hold. *)
Definition name_of (item : Value) : Value := lookup_chain "name" item.
Definition value_of (item : Value) : Value := lookup_chain "value" item.

Definition is_object (v : Value) : Prop :=
  match v with
  | VObject _ _ _ _ => True
  | _ => False
  end.

(** Whether a submission goes the way of a class or object that carries
    its metadata: the first test of [normalizeExtension]. *)
Definition carries_metadata (v : Value) : bool :=
  bool_decide (typeof v = "function")
  || (bool_decide (typeof v = "object") && truthy (lookup_chain "extension" v)).

(** A class with no [extension] at all, the descriptor that submits it,
    and a descriptor that names no [type]. *)
Definition unmarked (id : positive) : Value := VObject id true [] Function_prototype.

Definition typeless (id : positive) (ref : Value) : Value :=
  VObject id false [("ref", ref)] Object_prototype.

(** A named class, and pages for the map and the named list. *)
Definition named_plugin (id : positive) (name type : string) (priority : option Z) : Value :=
  VObject id true
    [("extension",
      VObject (id + 100) false
        (("type", VString type) :: ("name", VString name) ::
         match priority with Some n => [("priority", VNumber n)] | None => [] end)
        Object_prototype)]
    Function_prototype.



(** Whether [v.forEach] is there to be called: it is for an array, and
    for an object that has or inherits a [forEach] that is a function. *)
Definition has_forEach (v : Value) : bool :=
  match v with
  | VArray _ _ => true
  | VObject _ _ _ _ => bool_decide (typeof (lookup_chain "forEach" v) = "function")
  | _ => false
  end.

(** What [add] calls for a record once its points have their handlers. *)
Definition dispatch {Env} (r : Extensions Env) (ext : ExtensionFormat) (type : string)
    : M Env unit :=
  match _addHandlers r !! type with
  | Some handler => handler ext
  | None => mret tt
  end.

(** The registry with one more record waiting for a handler of [type]. *)
Definition queued {Env} (type : string) (ext : ExtensionFormat) (r : Extensions Env)
    : Extensions Env :=
  set__queue (<[type := pending r type ++ [ext]]> (_queue r)) r.
End Registry.
(** * Proofs *)

(** ** The method monad *)

Lemma bind_Return {S A B} (m : M S A) (f : A → M S B) s a s' :
  m s = (Return a, s') → (m ≫= f) s = f a s'.
Proof. intros E. unfold mbind, M_bind. by rewrite E. Qed.

Lemma bind_Throw {S A B} (m : M S A) (f : A → M S B) s e s' :
  m s = (Throw e, s') → (m ≫= f) s = (Throw e, s').
Proof. intros E. unfold mbind, M_bind. by rewrite E. Qed.

Lemma bind_assoc {S A B C} (m : M S A) (f : A → M S B) (g : B → M S C) s :
  ((m ≫= f) ≫= g) s = (m ≫= λ a, f a ≫= g) s.
Proof. unfold mbind, M_bind. by destruct (m s) as [[a|e] s1]. Qed.

Lemma bind_inv {S A B} (m : M S A) (f : A → M S B) s b s2 :
  (m ≫= f) s = (Return b, s2) →
  ∃ a s1, m s = (Return a, s1) ∧ f a s1 = (Return b, s2).
Proof.
  unfold mbind, M_bind. destruct (m s) as [[a|e] s1]; [eauto | discriminate].
Qed.

Lemma forEach_app {S A} (l1 l2 : list A) (f : A → M S unit) s :
  forEach (l1 ++ l2) f s = (forEach l1 f ;; forEach l2 f) s.
Proof.
  revert s. induction l1 as [|a l1 IH]; intros s; [done|].
  cbn [forEach app]. unfold mbind, M_bind in *.
  destruct (f a s) as [[[]|e] s1]; [apply IH | done].
Qed.


(** ** The scene graph *)

Module SceneFacts.
Import Scene.

(** *** Running a method step by step *)

Section Facts.
Context `{MathLib}.

Lemma load_Some this w o :
  objects w !! this = Some o → load this w = (Return o, w).
Proof. intros E. unfold load. by rewrite E. Qed.

Lemma store_Some this f w o :
  objects w !! this = Some o →
  store this f w = (Return tt, set_objects (<[this := f o]> (objects w)) w).
Proof. intros E. unfold store. by rewrite E. Qed.

Lemma load_transform_Some t w T :
  transforms w !! t = Some T → load_transform t w = (Return T, w).
Proof. intros E. unfold load_transform. by rewrite E. Qed.

Lemma load_inv this w o w' :
  load this w = (Return o, w') → objects w !! this = Some o ∧ w' = w.
Proof. unfold load. destruct (objects w !! this); naive_solver. Qed.

Lemma store_inv this f w w' :
  store this f w = (Return tt, w') →
  ∃ o, objects w !! this = Some o ∧ w' = set_objects (<[this := f o]> (objects w)) w.
Proof. unfold store. destruct (objects w !! this); naive_solver. Qed.

Lemma nonnull_inv {A} (v : option A) (w w' : World) a :
  nonnull v w = (Return a, w') → v = Some a ∧ w' = w.
Proof. destruct v; intros [=]; by subst. Qed.

Lemma load_transform_inv t w T w' :
  load_transform t w = (Return T, w') → transforms w !! t = Some T ∧ w' = w.
Proof. unfold load_transform. destruct (transforms w !! t); naive_solver. Qed.

End Facts.

(** [fields] computes the projections of updated records. *)
Ltac fields :=
  cbn [
       _events tempDisplayObjectParent _transform _alpha _visible _renderable parent
       worldAlpha _lastSortedIndex _zIndex filterArea filters _enabledFilters _bounds
       _boundsID _lastBoundsID _boundsRect _localBoundsRect _mask _destroyed isSprite
       isMask _currentBounds hitArea interactive interactiveChildren maskObject children
       set__events set_tempDisplayObjectParent set__transform set__alpha set__visible set__renderable set_parent
       set_worldAlpha set_filterArea set_filters set__bounds set__boundsID
       set__lastBoundsID set__boundsRect set__localBoundsRect set__mask set__destroyed
       set_isMask set__currentBounds set_hitArea set_interactive set_interactiveChildren
       set_children
       objects transforms rectangles pixiChanged calculateBounds_calls set_objects
       set_transforms set_rectangles set_pixiChanged set_calculateBounds_calls] in *.

(** [mrun] pushes a computation through the binds in the goal, using the
    lookups known from the context. *)
Ltac mrun_step :=
  first
    [ progress (unfold set_objects, set_transforms, set_rectangles, set_pixiChanged,
                  set_calculateBounds_calls)
    | progress fields
    | rewrite insert_insert_eq
    | progress cbn [nonnull mret M_ret modify_state get_state default from_option id]
    | match goal with
      | E : ?f ?o = _ |- context [?f ?o] => rewrite E
      end
    | rewrite bind_assoc
    | erewrite bind_Return by
        first [ apply load_Some; simplify_map_eq; reflexivity
              | apply store_Some; simplify_map_eq; reflexivity
              | apply load_transform_Some; simplify_map_eq; reflexivity
              | reflexivity ]
    | erewrite store_Some by (simplify_map_eq; reflexivity)
    | erewrite load_Some by (simplify_map_eq; reflexivity)
    | erewrite load_transform_Some by (simplify_map_eq; reflexivity)
    | erewrite bind_Throw by reflexivity ].
Ltac mrun := repeat mrun_step.

(** [by_run L] takes the next step of the computation with the lemma [L],
    whose premises are lookups. *)
Ltac lookup_premise :=
  fields; simplify_map_eq; fields; first [reflexivity | eassumption].
Ltac by_run L :=
  erewrite bind_Return by (eapply L; [> lookup_premise ..]).

(** [found] settles [∃ o', objects w' !! k = Some o' ∧ ...] on an explicit
    store. *)
Ltac found :=
  eexists; split; [fields; simplify_map_eq; reflexivity | fields; try done].

(** [same_world] compares two worlds store by store. *)
Ltac same_world :=
  unfold set_objects, set_transforms, set_rectangles, set_pixiChanged,
    set_calculateBounds_calls;
  fields; rewrite ?insert_insert_eq; try reflexivity.

Section UpdateTransform.
Context `{MathLib}.

(** [updateTransform] on a node whose parent and transforms are live. *)
Lemma updateTransform_run (w : World) (N P t pt : ref)
    (o po : DisplayObject) (T PT : Transform) :
  objects w !! N = Some o →
  parent o = Some P →
  objects w !! P = Some po →
  _transform o = Some t →
  transforms w !! t = Some T →
  _transform po = Some pt →
  transforms w !! pt = Some PT →
  updateTransform N w =
    (Return tt,
     set_transforms (<[t := Transform_updateTransform T PT]> (transforms w))
       (set_objects
          (<[N := set_worldAlpha (_alpha o * worldAlpha po)%float
                    (set__boundsID (_boundsID o + 1) o)]> (objects w)) w)).
Proof.
  intros HN HP HPo Ht HT Hpt HPT. unfold updateTransform, transform_updateTransform.
  destruct (decide (P = N)) as [->|Hne].
  - assert (po = o) as -> by congruence.
    assert (pt = t) as -> by congruence.
    assert (PT = T) as -> by congruence.
    mrun. same_world.
  - mrun. same_world.
Qed.

(** C1.  For a node [N] with a live parent [P], [updateTransform(N)]
    returns, and it has changed exactly this: [N._boundsID] is one more
    than before, the transform of [N] is the one its [updateTransform]
    computes from the transform of [P], and [N.worldAlpha] is
    [N.alpha * P.worldAlpha]. *)
Theorem updateTransform_spec (w : World) (N P t pt : ref)
    (o po : DisplayObject) (T PT : Transform) :
  objects w !! N = Some o →
  parent o = Some P →
  objects w !! P = Some po →
  _transform o = Some t →
  transforms w !! t = Some T →
  _transform po = Some pt →
  transforms w !! pt = Some PT →
  updateTransform N w =
    (Return tt,
     set_transforms (<[t := Transform_updateTransform T PT]> (transforms w))
       (set_objects
          (<[N := set_worldAlpha (_alpha o * worldAlpha po)%float
                    (set__boundsID (_boundsID o + 1) o)]> (objects w)) w)).
Proof. apply updateTransform_run. Qed.

Lemma transform_updateTransform_run (w : World) (t p : ref) (T P : Transform) :
  transforms w !! t = Some T →
  transforms w !! p = Some P →
  transform_updateTransform t p w =
    (Return tt, set_transforms (<[t := Transform_updateTransform T P]> (transforms w)) w).
Proof. intros Ht Hp. unfold transform_updateTransform. mrun. same_world. Qed.

(** The sentinel getter, on a node that has its sentinel and on one that
    has none yet. *)
Lemma sentinel_get (w : World) (this s : ref) (o : DisplayObject) :
  objects w !! this = Some o →
  tempDisplayObjectParent o = Some s →
  _tempDisplayObjectParent this w = (Return s, w).
Proof. intros Ho Hs. unfold _tempDisplayObjectParent. mrun. reflexivity. Qed.

Lemma sentinel_build (w : World) (this : ref) (o : DisplayObject) :
  objects w !! this = Some o →
  tempDisplayObjectParent o = None →
  let s := fresh (dom (objects w)) in
  let st := fresh (dom (transforms w)) in
  _tempDisplayObjectParent this w =
    (Return s,
     set_objects
       (<[this := set_tempDisplayObjectParent (Some s) o]>
          (<[s := constructed st]> (objects w)))
       (set_transforms (<[st := Transform_new]> (transforms w)) w)).
Proof.
  intros Ho Hs s st.
  assert (s ≠ this).
  { intros E. pose proof (is_fresh (dom (objects w))) as Hf.
    apply Hf. fold s. rewrite E. apply elem_of_dom. eauto. }
  unfold _tempDisplayObjectParent, constructor, new_Transform, new_object. mrun.
  fold s st. mrun. same_world.
Qed.

End UpdateTransform.

Section GetBounds.
Context `{MathLib}.
Variable hook : ref → M World unit.
Variable stack : nat.

(** After the cache test of [getBounds], the two ids agree. *)
Lemma refresh_ids_agree this o w w2 :
  objects w !! this = Some o →
  (if bool_decide (_boundsID o ≠ _lastBoundsID o)
   then invoke_calculateBounds hook this ;;
        store this (λ o, set__lastBoundsID (_boundsID o) o)
   else mret tt) w = (Return tt, w2) →
  ∃ o2, objects w2 !! this = Some o2 ∧ _boundsID o2 = _lastBoundsID o2.
Proof.
  intros Ho E. case_bool_decide as Hid.
  - apply bind_inv in E as ([] & w' & _ & (o' & Ho' & ->)%store_inv).
    eexists. split; [by simplify_map_eq | done].
  - injection E as <-. exists o. split; [done|]. lia.
Qed.

(** The rectangle [getBounds] writes to: the caller's, or the node's own. *)
Lemma output_rect this rect o2 w2 r w3 :
  objects w2 !! this = Some o2 →
  match rect with
  | Some r => mret r
  | None =>
      o ← load this;
      match _boundsRect o with
      | Some r => mret r
      | None => r ← new_Rectangle; store this (set__boundsRect (Some r)) ;; mret r
      end
  end w2 = (Return r, w3) →
  calculateBounds_calls w3 = calculateBounds_calls w2 ∧
  ∃ o3, objects w3 !! this = Some o3 ∧
        _boundsID o3 = _boundsID o2 ∧ _lastBoundsID o3 = _lastBoundsID o2 ∧
        match rect with Some r' => r' = r | None => _boundsRect o3 = Some r end.
Proof.
  intros Ho E. destruct rect as [r'|].
  - injection E as <- <-. split; eauto.
  - rewrite (bind_Return _ _ w2 o2 w2) in E by by apply load_Some.
    destruct (_boundsRect o2) as [r'|] eqn:Hr.
    + injection E as <- <-. split; eauto.
    + unfold new_Rectangle in E.
      erewrite bind_Return in E by reflexivity.
      erewrite bind_Return in E by (apply store_Some; fields; done).
      injection E as <- <-. split; [done|].
      eexists. split; [by simplify_map_eq | done].
Qed.

(** A second query finds the world as the first one left it. *)
Lemma getBounds_again this rect w r w1 :
  getBounds hook stack this true rect w = (Return r, w1) →
  getBounds hook stack this true rect w1 = (Return r, w1).
Proof.
  intros E. unfold getBounds in E.
  rewrite (bind_Return _ _ w tt w) in E by reflexivity.
  apply bind_inv in E as (o & w' & [Ho ->]%load_inv & E).
  apply bind_inv in E as ([] & w2 & E2 & E).
  apply bind_inv in E as (r' & w3 & E3 & E).
  apply bind_inv in E as (o3' & w3' & [Ho3 ->]%load_inv & E).
  apply bind_inv in E as (b & w3' & Eb & E).
  destruct (refresh_ids_agree _ _ _ _ Ho E2) as (o2 & Ho2 & Hid).
  destruct (output_rect _ _ _ _ _ _ Ho2 E3) as (_ & o3 & Ho3' & Hb & Hl & Hrect).
  assert (o3' = o3) as -> by congruence. clear Ho3'.
  destruct (_bounds o3) as [b'|] eqn:Hbounds; [|discriminate].
  injection Eb as <- <-. injection E as <- <-.
  unfold getBounds. mrun.
  rewrite bool_decide_eq_false_2 by (intros ?; congruence).
  destruct rect as [r0|]; [subst r0|]; mrun; same_world.
Qed.

(** With the ids equal the query goes straight to the rectangle. *)
Lemma getBounds_cached this rect w o b :
  objects w !! this = Some o →
  _boundsID o = _lastBoundsID o →
  _bounds o = Some b →
  ∃ r w',
    getBounds hook stack this true rect w = (Return r, w') ∧
    calculateBounds_calls w' = calculateBounds_calls w ∧
    rectangles w' !! r = Some (Bounds_getRectangle b) ∧
    ∃ o', objects w' !! this = Some o' ∧
          _boundsID o' = _boundsID o ∧ _lastBoundsID o' = _lastBoundsID o.
Proof.
  intros Ho Hid Hb. unfold getBounds. mrun.
  rewrite bool_decide_eq_false_2 by (intros ?; congruence).
  destruct rect as [r|]; [|destruct (_boundsRect o) as [r|] eqn:Hr].
  - mrun. do 2 eexists. split; [reflexivity|]. fields.
    repeat split; [by simplify_map_eq | eauto].
  - mrun. do 2 eexists. split; [reflexivity|]. fields.
    repeat split; [by simplify_map_eq | eauto].
  - unfold new_Rectangle. mrun. do 2 eexists. split; [reflexivity|]. fields.
    repeat split; [by simplify_map_eq|]. eexists. split; [by simplify_map_eq | done].
Qed.

(** With the ids apart the query goes through [calculateBounds] once. *)
Lemma getBounds_stale this rect w o r w' :
  objects w !! this = Some o →
  _boundsID o ≠ _lastBoundsID o →
  getBounds hook stack this true rect w = (Return r, w') →
  calculateBounds_calls w' = calculateBounds_calls w ++ [this].
Proof.
  intros Ho Hid E. unfold getBounds in E.
  rewrite (bind_Return _ _ w tt w) in E by reflexivity.
  rewrite (bind_Return _ _ w o w) in E by by apply load_Some.
  rewrite bool_decide_eq_true_2 in E by done.
  apply bind_inv in E as ([] & w2 & E2 & E).
  apply bind_inv in E2 as ([] & w1 & E1 & (o1 & Ho1 & ->)%store_inv).
  apply bind_inv in E as (r' & w3 & E3 & E).
  apply bind_inv in E as (o3' & w3' & [Ho3 ->]%load_inv & E).
  apply bind_inv in E as (b & w3' & [_ ->]%nonnull_inv & E).
  injection E as <- <-.
  assert (calculateBounds_calls w1 = calculateBounds_calls w ++ [this]) as Hc.
  { unfold invoke_calculateBounds in E1. destruct (hook this w) as [out wh].
    by injection E1 as _ <-. }
  eapply output_rect in E3 as (Hc3 & _); [|fields; by simplify_map_eq].
  fields. by rewrite Hc3.
Qed.

End GetBounds.

(** In this class [calculateBounds] returns, so the query does too; it
    writes to the receiver's cache fields, to the output rectangle and to
    nothing else. *)
Lemma getBounds_returns `{MathLib} stack this rect w o b :
  objects w !! this = Some o →
  _bounds o = Some b →
  ∃ r w' o',
    getBounds calculateBounds stack this true rect w = (Return r, w') ∧
    objects w' = <[this := o']> (objects w) ∧
    transforms w' = transforms w ∧
    parent o' = parent o ∧
    tempDisplayObjectParent o' = tempDisplayObjectParent o ∧
    _transform o' = _transform o ∧
    _boundsID o' = _boundsID o.
Proof.
  intros Ho Hb. unfold getBounds. mrun.
  case_bool_decide; mrun.
  all: destruct rect as [r|]; [|destruct (_boundsRect o) as [r|] eqn:Hr].
  all: unfold new_Rectangle; mrun.
  all: eexists _, _, _; split; [reflexivity|]; fields; try done.
  all: split; [symmetry; by apply insert_id|done].
Qed.

(** C2.  [getBounds(skipUpdate = true)] asked twice in a row: the second
    call returns the same rectangle object with the same contents and
    leaves the whole world as the first call left it, so [_lastBoundsID]
    is unchanged and [calculateBounds] has not been invoked again.  Once
    [_lastBoundsID] equals [_boundsID], the call returns the rectangle of
    the stored bounds without invoking [calculateBounds] and without
    touching either id; with the two ids apart, as [updateTransform]
    leaves them, a call that returns has invoked [calculateBounds] once.
    For a node of this class with its bounds in place, the call always
    returns. *)
Theorem getBounds_skipUpdate_idempotent `{MathLib}
    (hook : ref → M World unit) (stack : nat) (this : ref) (rect : option ref) (w : World) :
  (∀ r w1,
     getBounds hook stack this true rect w = (Return r, w1) →
     getBounds hook stack this true rect w1 = (Return r, w1))
  ∧ (∀ o b,
       objects w !! this = Some o →
       _boundsID o = _lastBoundsID o →
       _bounds o = Some b →
       ∃ r w',
         getBounds hook stack this true rect w = (Return r, w') ∧
         calculateBounds_calls w' = calculateBounds_calls w ∧
         rectangles w' !! r = Some (Bounds_getRectangle b) ∧
         ∃ o', objects w' !! this = Some o' ∧
               _boundsID o' = _boundsID o ∧ _lastBoundsID o' = _lastBoundsID o)
  ∧ (∀ o r w',
       objects w !! this = Some o →
       _boundsID o ≠ _lastBoundsID o →
       getBounds hook stack this true rect w = (Return r, w') →
       calculateBounds_calls w' = calculateBounds_calls w ++ [this])
  ∧ (∀ o b,
       objects w !! this = Some o →
       _bounds o = Some b →
       ∃ r w', getBounds calculateBounds stack this true rect w = (Return r, w')).
Proof.
  split; [|split; [|split]].
  - apply getBounds_again.
  - apply getBounds_cached.
  - intros o r w'. apply getBounds_stale.
  - intros o b Ho Hb.
    destruct (getBounds_returns stack this rect w o b Ho Hb) as (r & w' & _ & E & _).
    eauto.
Qed.


Section Mask.
Context `{MathLib}.

Ltac mask_run :=
  unfold mask_setter, renderable_setter; mrun.

(** C8.  Assigning a mask node [M] (a display object, not a mask
    wrapper) to [node.mask] leaves [M] with [renderable = false] and
    [isMask = true]; a mask node held before, if it is another one, is
    back to [renderable = true] and [isMask = false]; and assigning
    [null] afterwards puts [M] back as well. *)
Theorem mask_setter_spec (w : World) (node M : ref) (o m : DisplayObject) :
  objects w !! node = Some o →
  objects w !! M = Some m →
  maskObject m = None →
  (∀ prev, _mask o = Some prev →
     ∃ p, objects w !! prev = Some p ∧ maskObject p = None) →
  ∃ w1,
    mask_setter node (Some M) w = (Return tt, w1) ∧
    (∃ m1, objects w1 !! M = Some m1 ∧ _renderable m1 = false ∧ isMask m1 = true) ∧
    (∃ o1, objects w1 !! node = Some o1 ∧ _mask o1 = Some M) ∧
    (∀ prev, _mask o = Some prev → prev ≠ M →
       ∃ p1, objects w1 !! prev = Some p1 ∧ _renderable p1 = true ∧ isMask p1 = false) ∧
    ∃ w2,
      mask_setter node None w1 = (Return tt, w2) ∧
      (∃ m2, objects w2 !! M = Some m2 ∧ _renderable m2 = true ∧ isMask m2 = false) ∧
      (∃ o2, objects w2 !! node = Some o2 ∧ _mask o2 = None).
Proof.
  intros Ho Hm HmO Hprev.
  destruct (_mask o) as [prev|] eqn:Hmask.
  - destruct (Hprev prev eq_refl) as (p & Hp & HpO). clear Hprev.
    destruct (decide (prev = M)) as [->|HpM];
    destruct (decide (node = M)) as [->|HnM];
    try destruct (decide (prev = node)) as [->|Hpn];
    simplify_eq.
    all: eexists; split; [mask_run; reflexivity|].
    all: split; [found|]; split; [found|]; split;
      [intros q [= <-] Hq; try done; found|].
    all: eexists; split; [mask_run; reflexivity|]; split; found.
  - clear Hprev. destruct (decide (node = M)) as [->|HnM]; simplify_eq.
    all: eexists; split; [mask_run; reflexivity|].
    all: split; [found|]; split; [found|]; split; [intros q [=]|].
    all: eexists; split; [mask_run; reflexivity|]; split; found.
Qed.
End Mask.

Section Destroy.
Context `{MathLib}.

(** C9, the failing path.  On a page whose [window.pixiChanged] is falsy,
    [destroy()] of a detached live node gets as far as
    [this.transform = null]: the setter compares the components of the
    old transform with those of [null] and raises a TypeError.  The
    listeners are gone, nothing else has been released, and [_destroyed]
    is as it was. *)
Theorem destroy_throws_in_transform_setter (w : World) (this t : ref)
    (o : DisplayObject) (T : Transform) :
  objects w !! this = Some o →
  parent o = None →
  _transform o = Some t →
  transforms w !! t = Some T →
  pixiChanged w = false →
  destroy this w =
    (Throw TypeError, set_objects (<[this := set__events [] o]> (objects w)) w).
Proof.
  intros Ho Hp Ht HT Hc.
  unfold destroy, removeAllListeners, transform_setter. mrun. reflexivity.
Qed.

(** The other path: with [window.pixiChanged] already truthy the setter
    compares nothing, and [destroy()] runs to its end. *)
Lemma destroy_completes_when_changed (w : World) (this : ref) (o : DisplayObject) :
  objects w !! this = Some o →
  pixiChanged w = true →
  (∀ p, parent o = Some p → is_Some (objects w !! p)) →
  ∃ w' o',
    destroy this w = (Return tt, w') ∧
    objects w' !! this = Some o' ∧
    parent o' = None ∧ _events o' = [] ∧ _transform o' = None ∧ _bounds o' = None ∧
    _mask o' = None ∧ filters o' = None ∧ filterArea o' = None ∧ _destroyed o' = true ∧
    (∀ p c', parent o = Some p → objects w' !! p = Some c' → this ∉ children c').
Proof.
  intros Ho Hc Hp.
  unfold destroy, removeAllListeners, transform_setter, Container_removeChild.
  destruct (parent o) as [p|] eqn:Hparent.
  - destruct (Hp p eq_refl) as [c Hc']. clear Hp.
    destruct (decide (p = this)) as [->|Hne]; simplify_eq.
    + mrun. case_bool_decide; mrun.
      all: do 2 eexists; split; [reflexivity|]; split; [fields; by simplify_map_eq|].
      all: fields; repeat split; try done.
      all: intros q c' [= <-] Hl; simplify_map_eq; fields.
      all: rewrite ?list_elem_of_filter; first [done | by intros [? _]].
    + mrun. case_bool_decide; mrun.
      all: do 2 eexists; split; [reflexivity|]; split; [fields; by simplify_map_eq|].
      all: fields; repeat split; try done.
      all: intros q c' [= <-] Hl; simplify_map_eq; fields.
      all: rewrite ?list_elem_of_filter; first [done | by intros [? _]].
  - clear Hp. mrun.
    do 2 eexists; split; [reflexivity|]; split; [fields; by simplify_map_eq|].
    fields; repeat split; try done.
Qed.

End Destroy.

Section GetLocalBounds.
Context `{MathLib}.
Variable hook : ref → M World unit.
Variable stack : nat.

(** What the setter of [transform] leaves when it returns. *)
Lemma transform_setter_inv this value w w' :
  transform_setter this value w = (Return tt, w') →
  ∃ o changed,
    objects w !! this = Some o ∧
    w' = set_objects (<[this := set__transform value o]> (objects w))
           (set_pixiChanged changed w).
Proof.
  unfold transform_setter. intros E.
  rewrite (bind_Return _ _ w w w) in E by reflexivity.
  apply bind_inv in E as (changed & w1 & E1 & E).
  assert (w1 = w) as ->.
  { destruct (pixiChanged w); [by injection E1|].
    apply bind_inv in E1 as (? & ? & [_ ->]%load_inv & E1).
    apply bind_inv in E1 as (? & ? & [_ ->]%nonnull_inv & E1).
    apply bind_inv in E1 as (? & ? & [_ ->]%load_transform_inv & E1).
    apply bind_inv in E1 as (? & ? & [_ ->]%nonnull_inv & E1).
    apply bind_inv in E1 as (? & ? & [_ ->]%load_transform_inv & E1).
    by injection E1. }
  rewrite (bind_Return _ _ w tt (set_pixiChanged changed w)) in E by reflexivity.
  apply store_inv in E as (o & Ho & ->). eauto.
Qed.

(** C7.  Whenever [getLocalBounds] returns, the node holds the
    transform and the parent it held before the call. *)
Theorem getLocalBounds_restores_on_return (this : ref) (rect : option ref)
    (w w' : World) (o : DisplayObject) (r : ref) :
  objects w !! this = Some o →
  getLocalBounds hook stack this rect w = (Return r, w') →
  ∃ o', objects w' !! this = Some o' ∧
        _transform o' = _transform o ∧ parent o' = parent o.
Proof.
  intros Ho E. unfold getLocalBounds in E.
  rewrite (bind_Return _ _ w o w) in E by by apply load_Some.
  apply bind_inv in E as ([] & w1 & _ & E).
  apply bind_inv in E as (s & w2 & _ & E).
  apply bind_inv in E as (so & w3 & _ & E).
  apply bind_inv in E as ([] & w4 & _ & E).
  apply bind_inv in E as (rect' & w5 & _ & E).
  apply bind_inv in E as (bounds & w6 & _ & E).
  apply bind_inv in E as ([] & w7 & (o7 & Ho7 & ->)%store_inv & E).
  apply bind_inv in E as ([] & w8 & (o8 & c & Ho8 & ->)%transform_setter_inv & E).
  injection E as <- <-. fields. simplify_map_eq. fields.
  eexists. split; [by simplify_map_eq|done].
Qed.

End GetLocalBounds.

(** [ready] shows that a node of an explicit world is detached. *)
Ltac ready :=
  unfold detached, sentinel_ready; fields;
  split; [simplify_map_eq; reflexivity|]; fields; split; [done|]; split;
  [ eexists _, _; split; [done|]; by simplify_map_eq
  | intros ? ?; simplify_eq; eexists _, _, _;
    (split; [by simplify_map_eq|]); fields; split; [done|]; by simplify_map_eq ].

Section Sentinel.
Context `{MathLib}.

Lemma fresh_object (w : World) (n : ref) (o : DisplayObject) :
  objects w !! n = Some o →
  objects w !! fresh (dom (objects w)) = None ∧ fresh (dom (objects w)) ≠ n.
Proof.
  intros Ho. pose proof (is_fresh (dom (objects w))) as Hf.
  split; [by apply not_elem_of_dom|]. intros E. rewrite E in Hf.
  apply Hf, elem_of_dom. eauto.
Qed.

Lemma fresh_transform (w : World) (t : ref) (T : Transform) :
  transforms w !! t = Some T →
  transforms w !! fresh (dom (transforms w)) = None ∧ fresh (dom (transforms w)) ≠ t.
Proof.
  intros Ho. pose proof (is_fresh (dom (transforms w))) as Hf.
  split; [by apply not_elem_of_dom|]. intros E. rewrite E in Hf.
  apply Hf, elem_of_dom. eauto.
Qed.

(** Every object of [w] is in the store [m], with the parent it had. *)
Ltac parents_kept n s :=
  let k := fresh "k" in let ok := fresh "ok" in let Hk := fresh "Hk" in
  intros k ok Hk;
  destruct (decide (k = n)) as [->|]; [|destruct (decide (k = s)) as [->|]];
  simplify_map_eq; (eexists; split; [reflexivity | fields; congruence]).

(** The update that [toGlobal] and [toLocal] run on a detached node. *)
Lemma borrow_for_update stack n o w :
  detached w n o →
  stack ≠ O →
  ∃ w',
    (_recursivePostUpdateTransform stack n ;;
     o ← load n;
     match parent o with
     | None =>
         p ← _tempDisplayObjectParent n;
         store n (set_parent (Some p)) ;;
         displayObjectUpdateTransform n ;;
         store n (set_parent None)
     | Some _ => displayObjectUpdateTransform n
     end) w = (Return tt, w') ∧
    sentinel_returned n o w w' ∧
    (∃ o' t T, objects w' !! n = Some o' ∧ _transform o' = Some t ∧
               transforms w' !! t = Some T).
Proof.
  intros (Ho & Hp & (t & T & Ht & HT) & Hs) Hstack.
  destruct stack as [|depth]; [done|]. clear Hstack.
  unfold _recursivePostUpdateTransform, displayObjectUpdateTransform, sentinel_returned.
  cbn [_recursivePostUpdateTransform_at].
  destruct (tempDisplayObjectParent o) as [s|] eqn:Hts.
  - destruct (Hs s Hts) as (so & st & ST & Hso & Hst & HST). clear Hs.
    destruct (decide (s = n)) as [->|Hsn]; destruct (decide (st = t)) as [->|Hstt];
      simplify_eq.
    all: mrun; by_run sentinel_get; mrun; by_run transform_updateTransform_run.
    all: mrun; by_run sentinel_get; mrun; by_run updateTransform_run; mrun.
    all: eexists; split; [reflexivity|]; fields.
    all: split; [split; [do 2 eexists; split; [by simplify_map_eq|fields; done]|]|].
    all: try (eexists _, _, _; split; [by simplify_map_eq|];
              split; [fields; done | by simplify_map_eq]).
    all: parents_kept n n.
  - clear Hs.
    destruct (fresh_object w n o Ho) as [Hfo Hfn].
    destruct (fresh_transform w t T HT) as [Hft Hftn].
    pose proof (sentinel_build w n o Ho Hts) as Hbuild. cbv zeta in Hbuild.
    set (s := fresh (dom (objects w))) in *.
    set (st := fresh (dom (transforms w))) in *. clearbody s st.
    mrun. erewrite bind_Return by exact Hbuild.
    mrun; by_run transform_updateTransform_run.
    mrun; by_run sentinel_get; mrun; by_run updateTransform_run; mrun.
    eexists; split; [reflexivity|]; fields.
    split; [split|].
    + eexists _, s. split; [by simplify_map_eq|]. fields. do 3 (split; [done|]).
      eexists _, st. split; [by simplify_map_eq|]. fields.
      do 5 (split; [done|]). by simplify_map_eq.
    + parents_kept n s.
    + eexists _, _, _; split; [by simplify_map_eq|].
      split; [fields; done | by simplify_map_eq].
Qed.

(** [_recursivePostUpdateTransform] on a detached node leaves it
    detached. *)
Lemma recursive_keeps_detached stack n o w w0 :
  detached w n o →
  _recursivePostUpdateTransform stack n w = (Return tt, w0) →
  ∃ o0, objects w0 !! n = Some o0 ∧ parent o0 = None.
Proof.
  intros (Ho & Hp & _ & _) E. unfold _recursivePostUpdateTransform in E.
  destruct stack as [|depth]; [discriminate|].
  cbn [_recursivePostUpdateTransform_at] in E.
  apply bind_inv in E as (o1 & w1 & [Ho1 ->]%load_inv & E).
  assert (o1 = o) as -> by congruence. rewrite Hp in E.
  apply bind_inv in E as (t & w1 & [_ ->]%nonnull_inv & E).
  apply bind_inv in E as (s & w2 & Es & E).
  apply bind_inv in E as (so & w3 & [_ ->]%load_inv & E).
  apply bind_inv in E as (st & w3 & [_ ->]%nonnull_inv & E).
  assert (objects w0 = objects w2) as ->.
  { unfold transform_updateTransform in E.
    apply bind_inv in E as (T & w3 & [_ ->]%load_transform_inv & E).
    apply bind_inv in E as (P & w3 & [_ ->]%load_transform_inv & E).
    by injection E as <-. }
  destruct (tempDisplayObjectParent o) as [s0|] eqn:Hts.
  - rewrite (sentinel_get w n s0 o Ho Hts) in Es. injection Es as _ <-. eauto.
  - rewrite (sentinel_build w n o Ho Hts) in Es. injection Es as _ <-.
    fields. eexists. split; [by rewrite lookup_insert_eq|]. by fields.
Qed.

(** The four steps of the borrowing, read off a run of them. *)
Lemma borrowed_intro n w w' :
  (p ← _tempDisplayObjectParent n;
   store n (set_parent (Some p)) ;;
   updateTransform n ;;
   store n (set_parent None)) w = (Return tt, w') →
  borrowed n w w'.
Proof.
  intros E.
  apply bind_inv in E as (s & w1 & E1 & E).
  apply bind_inv in E as ([] & w2 & E2 & E).
  apply bind_inv in E as ([] & w3 & E3 & E4).
  exists s, w1, w2, w3. split; [done|]. split; [done|]. split; [|done].
  apply store_inv in E2 as (o1 & Ho1 & ->).
  eexists. split; [fields; by rewrite lookup_insert_eq | done].
Qed.

(** The update that [getBounds] runs on a detached node. *)
Lemma borrow_for_bounds n o w :
  detached w n o →
  ∃ w' o',
    (p ← _tempDisplayObjectParent n;
     store n (set_parent (Some p)) ;;
     updateTransform n ;;
     store n (set_parent None)) w = (Return tt, w') ∧
    sentinel_returned n o w w' ∧
    detached w' n o' ∧ _bounds o' = _bounds o ∧ _boundsID o' = _boundsID o + 1.
Proof.
  intros (Ho & Hp & (t & T & Ht & HT) & Hs).
  unfold sentinel_returned.
  destruct (tempDisplayObjectParent o) as [s|] eqn:Hts.
  - destruct (Hs s Hts) as (so & st & ST & Hso & Hst & HST). clear Hs.
    destruct (decide (s = n)) as [->|Hsn]; destruct (decide (st = t)) as [->|Hstt];
      simplify_eq.
    all: by_run sentinel_get; mrun; by_run updateTransform_run; mrun.
    all: eexists _, _; split; [reflexivity|]; fields.
    all: split;
      [split; [do 2 eexists; split; [by simplify_map_eq|fields; done]|parents_kept n n]|].
    all: split; [ready | fields; done].
  - clear Hs.
    destruct (fresh_object w n o Ho) as [Hfo Hfn].
    destruct (fresh_transform w t T HT) as [Hft Hftn].
    pose proof (sentinel_build w n o Ho Hts) as Hbuild. cbv zeta in Hbuild.
    set (s := fresh (dom (objects w))) in *.
    set (st := fresh (dom (transforms w))) in *. clearbody s st.
    erewrite bind_Return by exact Hbuild.
    mrun; by_run updateTransform_run; mrun.
    eexists _, _; split; [reflexivity|]; fields.
    split; [split|].
    + eexists _, s. split; [by simplify_map_eq|]. fields. do 3 (split; [done|]).
      eexists _, st. split; [by simplify_map_eq|]. fields.
      do 5 (split; [done|]). by simplify_map_eq.
    + parents_kept n s.
    + split; [ready | fields; done].
Qed.

(** Writing to fields of the node other than [parent] and
    [tempDisplayObjectParent] keeps what the borrowing left. *)
Lemma sentinel_returned_write n o w w1 w2 o1 o2 :
  objects w !! n = Some o →
  sentinel_returned n o w w1 →
  objects w1 !! n = Some o1 →
  objects w2 = <[n := o2]> (objects w1) →
  transforms w2 = transforms w1 →
  parent o2 = parent o1 →
  tempDisplayObjectParent o2 = tempDisplayObjectParent o1 →
  sentinel_returned n o w w2.
Proof.
  intros Ho [(o' & s & Ho' & Hp & Hs & Hold) Hkept] Ho1 Hobj Htr Hp2 Hs2.
  assert (o' = o1) as -> by congruence.
  split.
  - exists o2, s. rewrite Hobj, Htr. split; [by simplify_map_eq|].
    split; [congruence|]. split; [congruence|].
    destruct (tempDisplayObjectParent o); [done|].
    destruct Hold as (Hnew & so & st & Hso & Hrest). split; [done|].
    assert (s ≠ n) by congruence.
    exists so, st. by simplify_map_eq.
  - intros k ok Hk. destruct (Hkept k ok Hk) as (ok' & Hk' & Hpk).
    rewrite Hobj. destruct (decide (k = n)) as [->|]; simplify_map_eq; eauto.
    eexists. split; [done|]. congruence.
Qed.

(** Writing to fields of the node other than [parent],
    [tempDisplayObjectParent] and [_transform] keeps it detached. *)
Lemma detached_write n w1 w2 o1 o2 :
  detached w1 n o1 →
  objects w2 = <[n := o2]> (objects w1) →
  transforms w2 = transforms w1 →
  parent o2 = parent o1 →
  tempDisplayObjectParent o2 = tempDisplayObjectParent o1 →
  _transform o2 = _transform o1 →
  detached w2 n o2.
Proof.
  intros (Ho & Hp & (t & T & Ht & HT) & Hs) Hobj Htr Hp2 Hs2 Ht2.
  split; [rewrite Hobj; by rewrite lookup_insert_eq|]. split; [congruence|]. split.
  - exists t, T. split; [congruence|]. by rewrite Htr.
  - intros s Hts. rewrite Hs2 in Hts.
    destruct (Hs s Hts) as (so & st & ST & Hso & Hst & HST).
    rewrite Hobj, Htr. destruct (decide (s = n)) as [->|Hne].
    + exists o2, st, ST. rewrite lookup_insert_eq. split; [done|].
      split; [congruence | done].
    + exists so, st, ST. by rewrite lookup_insert_ne.
Qed.

Lemma getBounds_detached stack n o w rect :
  detached w n o →
  is_Some (_bounds o) →
  ∃ w1 r w' o',
    borrowed n w w1 ∧
    getBounds calculateBounds stack n true rect w1 = (Return r, w') ∧
    getBounds calculateBounds stack n false rect w = (Return r, w') ∧
    sentinel_returned n o w w' ∧
    detached w' n o' ∧ _boundsID o' = _boundsID o + 1.
Proof.
  intros Hd [b Hb]. pose proof Hd as (Ho & Hp & _).
  destruct (borrow_for_bounds n o w Hd) as (w1 & o1 & E1 & Hret & Hd1 & Hb1 & Hid1).
  pose proof Hd1 as (Ho1 & _).
  destruct (getBounds_returns stack n rect w1 o1 b Ho1 ltac:(congruence))
    as (r & w2 & o2 & E2 & Hobj & Htr & Hp2 & Hs2 & Ht2 & Hid2).
  exists w1, r, w2, o2. split; [by apply borrowed_intro|]. split; [done|].
  split; [|split; [by eapply sentinel_returned_write|]].
  - rewrite <- E2. unfold getBounds at 1.
    rewrite bind_assoc. erewrite bind_Return by (by apply load_Some).
    rewrite Hp. by erewrite bind_Return by exact E1.
  - split; [by eapply detached_write | congruence].
Qed.

(** What [toGlobal] and [toLocal] begin with on a detached node. *)
Lemma update_detached stack n o w :
  detached w n o →
  stack ≠ O →
  ∃ w0 w1 o1 t T,
    _recursivePostUpdateTransform stack n w = (Return tt, w0) ∧
    borrowed n w0 w1 ∧
    (_recursivePostUpdateTransform stack n ;;
     o ← load n;
     match parent o with
     | None =>
         p ← _tempDisplayObjectParent n;
         store n (set_parent (Some p)) ;;
         displayObjectUpdateTransform n ;;
         store n (set_parent None)
     | Some _ => displayObjectUpdateTransform n
     end) w = (Return tt, w1) ∧
    sentinel_returned n o w w1 ∧
    objects w1 !! n = Some o1 ∧ _transform o1 = Some t ∧ transforms w1 !! t = Some T.
Proof.
  intros Hd Hstack.
  destruct (borrow_for_update stack n o w Hd Hstack)
    as (w1 & E1 & Hret & o1 & t & T & Ho1 & Ht & HT).
  pose proof E1 as E. apply bind_inv in E as ([] & w0 & E0 & E).
  destruct (recursive_keeps_detached stack n o w w0 Hd E0) as (o0 & Ho0 & Hp0).
  rewrite (bind_Return _ _ _ _ _ (load_Some _ _ _ Ho0)) in E. rewrite Hp0 in E.
  unfold displayObjectUpdateTransform in E. apply borrowed_intro in E.
  by exists w0, w1, o1, t, T.
Qed.

Lemma toGlobal_detached stack n o w position :
  detached w n o →
  stack ≠ O →
  ∃ w0 w1 q,
    _recursivePostUpdateTransform stack n w = (Return tt, w0) ∧
    borrowed n w0 w1 ∧
    toGlobal stack n position true w1 = (Return q, w1) ∧
    toGlobal stack n position false w = (Return q, w1) ∧
    sentinel_returned n o w w1.
Proof.
  intros Hd Hstack.
  destruct (update_detached stack n o w Hd Hstack)
    as (w0 & w1 & o1 & t & T & E0 & Hb & E1 & Hret & Ho1 & Ht & HT).
  exists w0, w1, (Matrix_apply T position).
  split; [done|]. split; [done|]. split; [|split; [|done]].
  - unfold toGlobal. mrun. reflexivity.
  - unfold toGlobal. etrans; [exact (bind_Return _ _ _ _ _ E1)|]. mrun. reflexivity.
Qed.

Lemma toLocal_detached stack n o w position :
  detached w n o →
  stack ≠ O →
  ∃ w0 w1 q,
    _recursivePostUpdateTransform stack n w = (Return tt, w0) ∧
    borrowed n w0 w1 ∧
    toLocal stack n position None true w1 = (Return q, w1) ∧
    toLocal stack n position None false w = (Return q, w1) ∧
    sentinel_returned n o w w1.
Proof.
  intros Hd Hstack.
  destruct (update_detached stack n o w Hd Hstack)
    as (w0 & w1 & o1 & t & T & E0 & Hb & E1 & Hret & Ho1 & Ht & HT).
  exists w0, w1, (Matrix_applyInverse T position).
  split; [done|]. split; [done|]. split; [|split; [|done]].
  - unfold toLocal. mrun. reflexivity.
  - unfold toLocal. etrans; [exact (bind_Return _ _ _ _ _ eq_refl)|].
    etrans; [exact (bind_Return _ _ _ _ _ E1)|]. mrun. reflexivity.
Qed.

Lemma toLocal_from stack n f position q w0 w :
  toGlobal stack f position false w0 = (Return q, w) →
  toLocal stack n position (Some f) false w0 = toLocal stack n q None false w.
Proof.
  intros E. unfold toLocal. etrans; [exact (bind_Return _ _ _ _ _ E)|].
  symmetry. exact (bind_Return _ _ _ _ _ eq_refl).
Qed.

End Sentinel.

(** C6.  The sentinel belongs to the node: it is the object
    in the node's own field [tempDisplayObjectParent], built by the
    constructor the first time the node needs it and found there
    afterwards.  A live detached node queried through [getBounds],
    [toGlobal] or [toLocal] (transforms not skipped; for [toLocal] with
    a [from], once [from.toGlobal] has returned) borrows it: the node
    asks for its sentinel, takes it for parent, is updated by
    [updateTransform] as the child of the sentinel, and is detached
    again; the query then answers as it does with the update skipped,
    from the world the borrowing has left.  For [toGlobal] and [toLocal]
    the borrowing comes after [_recursivePostUpdateTransform] has
    returned; for [getBounds] the node's [_boundsID] is one more than
    before.  Afterwards the node is detached again and holds its
    sentinel; a sentinel built by the query is an object that was not
    there before, with no parent, [worldAlpha = 1] and a transform of its
    own as [new Transform()] makes it; and no object that existed has
    changed parent, so a sentinel has not gained one. *)
Theorem sentinel_borrowed_and_returned `{MathLib}
    (stack : nat) (n : ref) (o : DisplayObject) (w : World) :
  detached w n o →
  (∀ rect, is_Some (_bounds o) →
     ∃ w1 r w' o',
       borrowed n w w1 ∧
       getBounds calculateBounds stack n true rect w1 = (Return r, w') ∧
       getBounds calculateBounds stack n false rect w = (Return r, w') ∧
       sentinel_returned n o w w' ∧
       detached w' n o' ∧ _boundsID o' = _boundsID o + 1)
  ∧ (∀ position, stack ≠ O →
       ∃ w0 w1 q,
         _recursivePostUpdateTransform stack n w = (Return tt, w0) ∧
         borrowed n w0 w1 ∧
         toGlobal stack n position true w1 = (Return q, w1) ∧
         toGlobal stack n position false w = (Return q, w1) ∧
         sentinel_returned n o w w1)
  ∧ (∀ position, stack ≠ O →
       ∃ w0 w1 q,
         _recursivePostUpdateTransform stack n w = (Return tt, w0) ∧
         borrowed n w0 w1 ∧
         toLocal stack n position None true w1 = (Return q, w1) ∧
         toLocal stack n position None false w = (Return q, w1) ∧
         sentinel_returned n o w w1)
  ∧ (∀ position f q w0, stack ≠ O →
       toGlobal stack f position false w0 = (Return q, w) →
       ∃ w1 w2 q',
         _recursivePostUpdateTransform stack n w = (Return tt, w1) ∧
         borrowed n w1 w2 ∧
         toLocal stack n q None true w2 = (Return q', w2) ∧
         toLocal stack n position (Some f) false w0 = (Return q', w2) ∧
         sentinel_returned n o w w2).
Proof.
  intros Hd. repeat split.
  - intros rect Hb. by apply getBounds_detached.
  - intros position Hs. by apply toGlobal_detached.
  - intros position Hs. by apply toLocal_detached.
  - intros position f q w0 Hs E. rewrite (toLocal_from _ _ _ _ _ _ _ E).
    by apply toLocal_detached.
Qed.

(** *** The methods at work *)

Section Examples.
Local Existing Instance translations.

Lemma updateTransform_spec_witness :
  ∃ w',
    updateTransform child family = (Return tt, w') ∧
    worldAlpha <$> objects w' !! child = Some 0.25%float ∧
    _boundsID <$> objects w' !! child = Some 1.
Proof.
  eexists. split.
  - eapply (updateTransform_spec family child root 2%positive 1%positive);
      vm_compute; reflexivity.
  - vm_compute. done.
Defined.

Lemma getBounds_skipUpdate_idempotent_witness :
  ∃ r w1,
    getBounds calculateBounds 8 child true None family = (Return r, w1) ∧
    getBounds calculateBounds 8 child true None w1 = (Return r, w1) ∧
    calculateBounds_calls w1 = [child].
Proof.
  eexists _, _. split; [|split].
  - vm_compute. reflexivity.
  - apply (proj1 (getBounds_skipUpdate_idempotent calculateBounds 8 child None family)).
    vm_compute. reflexivity.
  - vm_compute. reflexivity.
Defined.

(** Each of two detached nodes, once queried, has a sentinel of its own. *)
Lemma sentinel_not_shared :
  let queried :=
    after (getBounds calculateBounds 8 root false None ;;
           getBounds calculateBounds 8 child false None) two_nodes in
  (tempDisplayObjectParent <$> objects queried !! root,
   tempDisplayObjectParent <$> objects queried !! child)
  = (Some (Some 3%positive), Some (Some 4%positive)).
Proof. vm_compute. reflexivity. Qed.

Lemma sentinel_borrowed_and_returned_witness :
  (∃ w1 r w' o',
     borrowed root two_nodes w1 ∧
     getBounds calculateBounds 8 root true None w1 = (Return r, w') ∧
     getBounds calculateBounds 8 root false None two_nodes = (Return r, w') ∧
     sentinel_returned root (constructed 1%positive) two_nodes w' ∧
     detached w' root o' ∧ _boundsID o' = 1)
  ∧ (∃ w0 w1 q,
       _recursivePostUpdateTransform 8 root two_nodes = (Return tt, w0) ∧
       borrowed root w0 w1 ∧
       toGlobal 8 root {| Point.x := 3; Point.y := 4 |} true w1 = (Return q, w1) ∧
       toGlobal 8 root {| Point.x := 3; Point.y := 4 |} false two_nodes = (Return q, w1) ∧
       sentinel_returned root (constructed 1%positive) two_nodes w1).
Proof.
  destruct (sentinel_borrowed_and_returned 8 root (constructed 1%positive) two_nodes)
    as (Hbounds & Hglobal & _).
  - split; [vm_compute; reflexivity|]. split; [reflexivity|]. split.
    + eexists _, _. split; [reflexivity | vm_compute; reflexivity].
    + intros s [=].
  - split.
    + apply (Hbounds None). by eexists.
    + apply (Hglobal {| Point.x := 3; Point.y := 4 |}). discriminate.
Defined.

(** A node whose [calculateBounds] raises: [getLocalBounds] lets the
    error through, and the child is left without its parent and with the
    sentinel's transform instead of its own. *)
Lemma getLocalBounds_not_restored_on_throw :
  let failing : ref → M World unit := λ _, throw (Error "no geometry") in
  let before := objects family !! child in
  let result := getLocalBounds failing 8 child None family in
  (parent <$> before, _transform <$> before) = (Some (Some root), Some (Some 2%positive)) ∧
  result.1 = Throw (Error "no geometry") ∧
  (parent <$> objects result.2 !! child, _transform <$> objects result.2 !! child)
  = (Some None, Some (Some 3%positive)).
Proof. vm_compute. done. Qed.

Lemma getLocalBounds_restores_on_return_witness :
  ∃ o',
    objects (after (getLocalBounds calculateBounds 8 child None) family) !! child = Some o' ∧
    _transform o' = Some 2%positive ∧ parent o' = Some root.
Proof.
  destruct (getLocalBounds_restores_on_return calculateBounds 8 child None family
              (after (getLocalBounds calculateBounds 8 child None) family)
              (set__alpha 0.5%float (set_parent (Some root) (constructed 2%positive)))
              1%positive)
    as (o' & Ho' & Ht & Hp).
  - vm_compute. reflexivity.
  - vm_compute. reflexivity.
  - exists o'. split; [exact Ho'|]. split; [exact Ht | exact Hp].
Defined.

Lemma mask_setter_spec_witness :
  ∃ w1,
    mask_setter root (Some child) two_nodes = (Return tt, w1) ∧
    (∃ m1, objects w1 !! child = Some m1 ∧ _renderable m1 = false ∧ isMask m1 = true) ∧
    ∃ w2,
      mask_setter root None w1 = (Return tt, w2) ∧
      (∃ m2, objects w2 !! child = Some m2 ∧ _renderable m2 = true ∧ isMask m2 = false).
Proof.
  destruct (mask_setter_spec two_nodes root child
              (constructed 1%positive) (constructed 2%positive))
    as (w1 & E1 & Hm1 & _ & _ & w2 & E2 & Hm2 & _).
  - vm_compute. reflexivity.
  - vm_compute. reflexivity.
  - reflexivity.
  - intros prev [=].
  - exists w1. split; [exact E1|]. split; [exact Hm1|].
    exists w2. split; [exact E2 | exact Hm2].
Defined.

Lemma destroy_throws_in_transform_setter_witness :
  pixiChanged two_nodes = false ∧
  (destroy root two_nodes).1 = Throw TypeError ∧
  _destroyed <$> objects (destroy root two_nodes).2 !! root = Some false.
Proof.
  split; [reflexivity|].
  rewrite (destroy_throws_in_transform_setter two_nodes root 1%positive
             (constructed 1%positive) (origin, origin));
    [|vm_compute; reflexivity ..].
  split; [reflexivity | vm_compute; reflexivity].
Defined.

Lemma destroy_completes_when_changed_witness :
  let changed := after (alpha_setter child 0.25%float) family in
  pixiChanged changed = true ∧
  ∃ w' o',
    destroy child changed = (Return tt, w') ∧
    objects w' !! child = Some o' ∧
    parent o' = None ∧ _transform o' = None ∧ _destroyed o' = true ∧
    children <$> objects w' !! root = Some [].
Proof.
  intros changed. split; [reflexivity|].
  destruct (destroy_completes_when_changed changed child
              (set__alpha 0.25%float
                 (set__alpha 0.5%float (set_parent (Some root) (constructed 2%positive)))))
    as (w' & o' & E & Ho' & Hp & _ & Ht & _ & _ & _ & _ & Hd & _).
  - vm_compute. reflexivity.
  - reflexivity.
  - intros p [= <-]. by eexists.
  - exists w', o'. repeat (split; [done|]).
    vm_compute in E. injection E as <-. vm_compute. reflexivity.
Defined.

End Examples.


(** *** Visibility along the parents *)

Section WorldVisible.
Context `{MathLib}.

Lemma worldVisible_up (w : World) (n : ref) (l : list DisplayObject) (steps : nat) :
  path w n l None →
  (length l ≤ steps)%nat →
  worldVisible steps n w = Some (Return (forallb _visible l)).
Proof.
  unfold worldVisible. revert n steps.
  induction l as [|o above IH]; intros n steps Hpath Hlen; [done|].
  destruct steps as [|steps]; [cbn in Hlen; lia|].
  destruct Hpath as [Ho Hup]. cbn [worldVisible_from forallb].
  rewrite (load_Some n w o Ho).
  destruct (_visible o); cbn [negb andb]; [|done].
  destruct above as [|o' above].
  - by rewrite Hup.
  - destruct Hup as (p & -> & Hp). apply IH; [done|]. cbn in *. lia.
Qed.

Lemma worldVisible_hidden (w : World) (n : ref) (below : list DisplayObject)
    (o : DisplayObject) (top : option ref) (steps : nat) :
  path w n (below ++ [o]) top →
  forallb _visible below = true →
  _visible o = false →
  (length below < steps)%nat →
  worldVisible steps n w = Some (Return false).
Proof.
  unfold worldVisible. revert n steps.
  induction below as [|b below IH]; intros n steps Hpath Hvis Hhid Hlen.
  - destruct steps as [|steps]; [cbn in Hlen; lia|].
    destruct Hpath as [Ho _]. cbn [worldVisible_from].
    rewrite (load_Some n w o Ho). by rewrite Hhid.
  - destruct steps as [|steps]; [cbn in Hlen; lia|].
    cbn [forallb] in Hvis. apply andb_prop in Hvis as [Hb Hvis].
    destruct Hpath as [Ho Hup]. cbn [worldVisible_from].
    rewrite (load_Some n w b Ho). rewrite Hb. cbn [negb].
    change ((b :: below) ++ [o]) with (b :: (below ++ [o])) in Hup.
    destruct (below ++ [o]) as [|x rest] eqn:E; [by destruct below|].
    destruct Hup as (p & -> & Hp). apply IH; try done. cbn in Hlen. lia.
Qed.

(** What [worldVisible] answers.  On a node whose parents lead up to a
    root it is the conjunction of [visible] over the node and all its
    ancestors, found in one round of the loop for each of them.  And the
    loop stops at the first node that is not visible: the answer is
    [false] whatever lies above that node, a root, a link to nothing or
    a cycle. *)
Theorem worldVisible_answers (w : World) (n : ref) (l : list DisplayObject)
    (top : option ref) (steps : nat) :
  path w n l top →
  (length l ≤ steps)%nat →
  (top = None → worldVisible steps n w = Some (Return (forallb _visible l)))
  ∧ (∀ below o,
       l = below ++ [o] →
       forallb _visible below = true →
       _visible o = false →
       worldVisible steps n w = Some (Return false)).
Proof.
  intros Hpath Hlen. split.
  - intros ->. by apply worldVisible_up.
  - intros below o -> Hvis Hhid. eapply worldVisible_hidden; try done.
    rewrite length_app in Hlen. cbn in Hlen. lia.
Qed.

(** Where the parent links go round (a node that is its own ancestor)
    and every node on the way is visible, the loop never ends, however
    many rounds it is given. *)
Theorem worldVisible_never_ends_on_a_cycle (w : World) (C : ref → Prop) (n : ref) :
  closed_under_parent w C →
  (∀ k o, C k → objects w !! k = Some o → _visible o = true) →
  C n →
  ∀ steps, worldVisible steps n w = None.
Proof.
  intros Hclosed Hvis Hn steps. unfold worldVisible. revert n Hn.
  induction steps as [|steps IH]; intros n Hn; [done|].
  destruct (Hclosed n Hn) as (o & p & Ho & Hp & Hcp).
  cbn [worldVisible_from]. rewrite (load_Some n w o Ho).
  rewrite (Hvis n o Hn Ho), Hp. cbn [negb]. by apply IH.
Qed.

End WorldVisible.

(** *** Cycles and missing parents under the updates *)

Section Updates.
Context `{MathLib}.
Variable hook : ref → M World unit.

Lemma recursive_on_a_cycle (w : World) (C : ref → Prop) (n : ref) (depth : nat) :
  closed_under_parent w C →
  C n →
  _recursivePostUpdateTransform_at depth n w = (Throw RangeError, w).
Proof.
  intros Hclosed. revert n. induction depth as [|depth IH]; intros n Hn; [done|].
  destruct (Hclosed n Hn) as (o & p & Ho & Hp & Hcp).
  cbn [_recursivePostUpdateTransform_at].
  erewrite bind_Return by (by apply load_Some). rewrite Hp.
  erewrite bind_Throw by (by apply IH). reflexivity.
Qed.

(** Nothing in the class checks that the parent links form a tree.  On
    nodes whose links go round, [_recursivePostUpdateTransform] recurses
    until the engine gives up: it, and with it [getBounds], [toGlobal]
    and [toLocal] when they are to update the transforms, raise a
    RangeError whatever the depth allowed, and leave the world as it
    was. *)
Theorem updates_overflow_on_a_cycle (w : World) (C : ref → Prop) (n : ref) (stack : nat) :
  closed_under_parent w C →
  C n →
  _recursivePostUpdateTransform stack n w = (Throw RangeError, w)
  ∧ (∀ rect, getBounds hook stack n false rect w = (Throw RangeError, w))
  ∧ (∀ position, toGlobal stack n position false w = (Throw RangeError, w))
  ∧ (∀ position, toLocal stack n position None false w = (Throw RangeError, w)).
Proof.
  intros Hclosed Hn.
  pose proof (recursive_on_a_cycle w C n stack Hclosed Hn) as Hrec.
  destruct (Hclosed n Hn) as (o & p & Ho & Hp & Hcp).
  split; [exact Hrec|]. split; [|split].
  - intros rect. unfold getBounds. rewrite bind_assoc.
    erewrite bind_Return by (by apply load_Some). rewrite Hp.
    rewrite !bind_assoc. by erewrite bind_Throw by exact Hrec.
  - intros position. unfold toGlobal. rewrite !bind_assoc.
    by erewrite bind_Throw by exact Hrec.
  - intros position. unfold toLocal.
    erewrite bind_Return by reflexivity. rewrite !bind_assoc.
    by erewrite bind_Throw by exact Hrec.
Qed.

(** [updateTransform] on a node without a parent fails with a TypeError,
    and the failed call has already counted: [_boundsID] is one more
    than it was, so the bounds the node had cached are out of date. *)
Theorem updateTransform_without_parent (w : World) (n : ref) (o : DisplayObject) :
  objects w !! n = Some o →
  parent o = None →
  updateTransform n w =
    (Throw TypeError,
     set_objects (<[n := set__boundsID (_boundsID o + 1) o]> (objects w)) w).
Proof.
  intros Ho Hp. unfold updateTransform.
  destruct (_transform o) as [t|] eqn:Ht; mrun; reflexivity.
Qed.

End Updates.

(** *** Masks that are shared, wrapped, or left behind *)

Section Masks.
Context `{MathLib}.

Ltac mask_run :=
  unfold mask_setter, renderable_setter; mrun.

(** A mask used by two nodes follows the last assignment, whoever made
    it: when the first node gives the mask up, the mask is renderable
    again and no longer marked as a mask, although the second node still
    holds it. *)
Theorem mask_shared_last_write_wins (w : World) (A B M : ref) (a b m : DisplayObject) :
  objects w !! A = Some a →
  objects w !! B = Some b →
  objects w !! M = Some m →
  A ≠ B → A ≠ M → B ≠ M →
  _mask a = None →
  _mask b = None →
  maskObject m = None →
  ∃ w' b' m',
    (mask_setter A (Some M) ;; mask_setter B (Some M) ;; mask_setter A None) w
      = (Return tt, w') ∧
    objects w' !! B = Some b' ∧ _mask b' = Some M ∧
    objects w' !! M = Some m' ∧ _renderable m' = true ∧ isMask m' = false.
Proof.
  intros Ha Hb Hm HAB HAM HBM Hma Hmb HmO.
  eexists _, _, _. split; [mask_run; reflexivity|].
  fields. split; [by simplify_map_eq|]. split; [done|].
  split; [by simplify_map_eq|]. done.
Qed.

(** A mask wrapper: when the value assigned has a [maskObject], it is
    that object which is hidden and marked, and put back when the mask
    is taken away; the wrapper itself is left as it is. *)
Theorem mask_wrapper_marks_its_object (w : World) (node D Q : ref)
    (o d q : DisplayObject) :
  objects w !! node = Some o →
  objects w !! D = Some d →
  objects w !! Q = Some q →
  node ≠ D → node ≠ Q → D ≠ Q →
  _mask o = None →
  maskObject d = Some Q →
  ∃ w1 q1,
    mask_setter node (Some D) w = (Return tt, w1) ∧
    objects w1 !! D = Some d ∧
    objects w1 !! Q = Some q1 ∧ _renderable q1 = false ∧ isMask q1 = true ∧
    ∃ w2 q2,
      mask_setter node None w1 = (Return tt, w2) ∧
      objects w2 !! D = Some d ∧
      objects w2 !! Q = Some q2 ∧ _renderable q2 = true ∧ isMask q2 = false.
Proof.
  intros Ho Hd Hq HnD HnQ HDQ Hmask HdQ.
  eexists _, _. split; [mask_run; reflexivity|].
  fields. split; [by simplify_map_eq|]. split; [by simplify_map_eq|].
  split; [done|]. split; [done|].
  eexists _, _. split; [mask_run; reflexivity|].
  fields. split; [by simplify_map_eq|]. split; [by simplify_map_eq|]. done.
Qed.

(** [destroy] clears the field [_mask] directly, not through the setter:
    the mask of a destroyed node stays hidden and marked as a mask.  The
    assignment of the mask has raised [window.pixiChanged], so this
    [destroy] runs to its end. *)
Theorem destroy_leaves_the_mask_hidden (w : World) (node M : ref) (o m : DisplayObject) :
  objects w !! node = Some o →
  objects w !! M = Some m →
  node ≠ M →
  parent o = None →
  _mask o = None →
  maskObject m = None →
  ∃ w' o' m',
    (mask_setter node (Some M) ;; destroy node) w = (Return tt, w') ∧
    objects w' !! node = Some o' ∧ _destroyed o' = true ∧ _mask o' = None ∧
    objects w' !! M = Some m' ∧ _renderable m' = false ∧ isMask m' = true.
Proof.
  intros Ho Hm HnM Hp Hmask HmO.
  eexists _, _, _. split.
  - unfold mask_setter, renderable_setter, destroy, removeAllListeners, transform_setter.
    mrun. rewrite orb_true_r. cbn [orb]. mrun. reflexivity.
  - fields. split; [by simplify_map_eq|]. split; [done|]. split; [done|].
    split; [by simplify_map_eq|]. done.
Qed.

End Masks.

(** *** [destroy], once more *)

Section DestroyAgain.
Context `{MathLib}.

(** The setter of [transform] takes [null] only on a page already
    marked as changed. *)
Lemma transform_setter_null (this : ref) (w w' : World) :
  transform_setter this None w = (Return tt, w') →
  pixiChanged w = true ∧
  ∃ o, objects w !! this = Some o ∧
       w' = set_objects (<[this := set__transform None o]> (objects w))
              (set_pixiChanged true w).
Proof.
  unfold transform_setter. intros E.
  rewrite (bind_Return _ _ w w w) in E by reflexivity.
  destruct (pixiChanged w) eqn:Hc.
  - split; [done|].
    rewrite (bind_Return _ _ w true w) in E by reflexivity.
    rewrite (bind_Return _ _ w tt (set_pixiChanged true w)) in E by reflexivity.
    apply store_inv in E as (o & Ho & ->). eauto.
  - exfalso.
    apply bind_inv in E as (changed & w1 & E1 & _).
    apply bind_inv in E1 as (? & ? & [_ ->]%load_inv & E1).
    apply bind_inv in E1 as (? & ? & [_ ->]%nonnull_inv & E1).
    apply bind_inv in E1 as (? & ? & [_ ->]%load_transform_inv & E1).
    by apply bind_inv in E1 as (? & ? & [? _]%nonnull_inv & _).
Qed.

(** A node that has all the marks of a destroyed one is left alone. *)
Lemma destroy_destroyed (w : World) (this : ref) (o : DisplayObject) :
  objects w !! this = Some o →
  pixiChanged w = true →
  _events o = [] → _transform o = None → parent o = None → _bounds o = None →
  _currentBounds o = None → _mask o = None → filters o = None → filterArea o = None →
  hitArea o = None → interactive o = Some false → interactiveChildren o = Some false →
  _destroyed o = true →
  destroy this w = (Return tt, w).
Proof.
  intros Ho Hc. destruct o, w. cbn in Ho, Hc |- *. intros; subst.
  unfold destroy, removeAllListeners, transform_setter. mrun.
  unfold set_objects. cbn. by rewrite insert_id.
Qed.

Ltac store_step E :=
  let o := fresh "o" in let Ho := fresh "Ho" in
  apply bind_inv in E as ([] & ? & (o & Ho & ->)%store_inv & E);
  fields; rewrite lookup_insert_eq in Ho; injection Ho as <-;
  rewrite insert_insert_eq in E.

(** A [destroy] that has returned can be repeated: the second call
    returns as well and changes nothing at all. *)
Theorem destroy_twice (w w1 : World) (this : ref) :
  destroy this w = (Return tt, w1) →
  destroy this w1 = (Return tt, w1).
Proof.
  intros E. unfold destroy, removeAllListeners in E.
  apply bind_inv in E as (o & w0 & [Ho ->]%load_inv & E).
  apply bind_inv in E as ([] & wa & _ & E).
  apply bind_inv in E as ([] & wb & (oa & Hoa & ->)%store_inv & E).
  apply bind_inv in E as ([] & wc & (Hc & oc & Hoc & ->)%transform_setter_null & E).
  fields. rewrite lookup_insert_eq in Hoc. injection Hoc as <-. clear Hc.
  rewrite insert_insert_eq in E.
  do 9 store_step E.
  apply store_inv in E as (o' & Ho' & ->).
  fields. rewrite lookup_insert_eq in Ho'. injection Ho' as <-.
  rewrite insert_insert_eq.
  eapply destroy_destroyed; fields; first [by rewrite lookup_insert_eq | done].
Qed.

End DestroyAgain.

(** *** The bounds cache under [getBounds()] *)

Section Recompute.
Context `{MathLib}.

(** The update that [getBounds] runs on a detached node, seen from the
    cache: [_boundsID] has moved on by one and nothing else of the cache
    has changed. *)
Lemma borrow_counts n o w :
  detached w n o →
  ∃ w' o',
    (p ← _tempDisplayObjectParent n;
     store n (set_parent (Some p)) ;;
     updateTransform n ;;
     store n (set_parent None)) w = (Return tt, w') ∧
    objects w' !! n = Some o' ∧ parent o' = None ∧
    _boundsID o' = _boundsID o + 1 ∧ _lastBoundsID o' = _lastBoundsID o ∧
    _bounds o' = _bounds o ∧ _boundsRect o' = _boundsRect o ∧
    calculateBounds_calls w' = calculateBounds_calls w ∧
    pixiChanged w' = pixiChanged w ∧
    (∀ k ok, objects w !! k = Some ok → k ≠ n → objects w' !! k = Some ok).
Proof.
  intros (Ho & Hp & (t & T & Ht & HT) & Hs).
  destruct (tempDisplayObjectParent o) as [s|] eqn:Hts.
  - destruct (Hs s Hts) as (so & st & ST & Hso & Hst & HST). clear Hs.
    destruct (decide (s = n)) as [->|Hsn]; destruct (decide (st = t)) as [->|Hstt];
      simplify_eq.
    all: by_run sentinel_get; mrun; by_run updateTransform_run; mrun.
    all: eexists _, _; split; [reflexivity|]; fields.
    all: split; [by simplify_map_eq|]; fields; repeat (split; [done|]).
    all: intros k ok Hk Hkn; by simplify_map_eq.
  - clear Hs.
    destruct (fresh_object w n o Ho) as [Hfo Hfn].
    destruct (fresh_transform w t T HT) as [Hft Hftn].
    pose proof (sentinel_build w n o Ho Hts) as Hbuild. cbv zeta in Hbuild.
    set (s := fresh (dom (objects w))) in *.
    set (st := fresh (dom (transforms w))) in *. clearbody s st.
    erewrite bind_Return by exact Hbuild.
    mrun; by_run updateTransform_run; mrun.
    eexists _, _; split; [reflexivity|]; fields.
    split; [by simplify_map_eq|]; fields; repeat (split; [done|]).
    intros k ok Hk Hkn. assert (k ≠ s) by congruence. by simplify_map_eq.
Qed.

(** [getBounds()] on a detached node, with that update. *)
Lemma getBounds_detached_run stack n o b w rect :
  detached w n o →
  _bounds o = Some b →
  ∃ r w' o',
    getBounds calculateBounds stack n false rect w = (Return r, w') ∧
    calculateBounds_calls w' =
      calculateBounds_calls w ++
        (if bool_decide (_boundsID o + 1 ≠ _lastBoundsID o) then [n] else []) ∧
    pixiChanged w' = pixiChanged w ∧
    objects w' !! n = Some o' ∧ parent o' = None ∧
    _boundsID o' = _boundsID o + 1 ∧ _lastBoundsID o' = _boundsID o + 1 ∧
    _bounds o' = Some b ∧
    rectangles w' !! r = Some (Bounds_getRectangle b) ∧
    (∀ k ok, objects w !! k = Some ok → k ≠ n → objects w' !! k = Some ok).
Proof.
  intros Hd Hb. pose proof Hd as (Ho & Hp & _).
  destruct (borrow_counts n o w Hd)
    as (w1 & o1 & E1 & Ho1 & Hp1 & Hid1 & Hlast1 & Hb1 & Hr1 & Hc1 & Hx1 & Hkept).
  rewrite Hb in Hb1.
  unfold getBounds. rewrite bind_assoc.
  erewrite bind_Return by (by apply load_Some). rewrite Hp.
  erewrite bind_Return by exact E1.
  mrun. unfold invoke_calculateBounds, calculateBounds.
  case_bool_decide as Hids.
  all: destruct rect as [r|]; [|destruct (_boundsRect o) as [r|] eqn:Hr].
  all: unfold new_Rectangle; mrun.
  all: eexists _, _, _; split; [reflexivity|]; fields.
  all: rewrite ?Hc1, ?Hx1, ?app_nil_r; split; [done|]; split; [done|].
  all: split; [by simplify_map_eq|]; fields.
  all: repeat (split; [first [done | lia | by simplify_map_eq]|]).
  all: intros k ok Hk Hkn; simplify_map_eq; first [done | by apply Hkept].
Qed.

(** One such call on a node whose [_lastBoundsID] is not ahead of
    [_boundsID]. *)
Lemma getBounds_recomputes_once stack n o b w rect :
  detached w n o →
  _bounds o = Some b →
  _lastBoundsID o ≤ _boundsID o →
  ∃ r w' o',
    getBounds calculateBounds stack n false rect w = (Return r, w') ∧
    calculateBounds_calls w' = calculateBounds_calls w ++ [n] ∧
    objects w' !! n = Some o' ∧ parent o' = None ∧
    _boundsID o' = _boundsID o + 1 ∧ _lastBoundsID o' = _boundsID o + 1 ∧
    _bounds o' = Some b ∧
    rectangles w' !! r = Some (Bounds_getRectangle b) ∧
    (∀ k ok, objects w !! k = Some ok → k ≠ n → objects w' !! k = Some ok) ∧
    detached w' n o'.
Proof.
  intros Hd Hb Hid.
  destruct (getBounds_detached_run stack n o b w rect Hd Hb)
    as (r & w' & o' & E & Hc & _ & Ho' & Hp' & Hid' & Hlast' & Hb' & Hrect & Hkept).
  rewrite bool_decide_eq_true_2 in Hc by lia.
  destruct (getBounds_detached stack n o w rect Hd (mk_is_Some _ _ Hb))
    as (w1 & r2 & w2 & o2 & _ & _ & E2 & _ & Hd2 & _).
  rewrite E in E2. injection E2 as <- <-.
  assert (o2 = o') as -> by (destruct Hd2 as [Ho2 _]; congruence).
  exists r, w', o'. do 9 (split; [assumption|]). assumption.
Qed.

(** [getBounds()] that updates the transforms never answers from the
    cache.  On a detached node whose [_lastBoundsID] is not ahead of
    [_boundsID], each such call moves [_boundsID] on by one, invokes
    [calculateBounds] once and leaves the two ids equal and the node
    detached as it was, so the next call finds the node as this one did
    and computes again: [k] calls in a row all return, invoke
    [calculateBounds] [k] times and move [_boundsID] on by [k].  No other
    object that was there is changed by a call. *)
Theorem getBounds_update_always_recomputes (stack : nat) (n : ref) (o : DisplayObject)
    (b : Bounds) (w : World) (rect : option ref) :
  detached w n o →
  _bounds o = Some b →
  _lastBoundsID o ≤ _boundsID o →
  (∃ r w' o',
     getBounds calculateBounds stack n false rect w = (Return r, w') ∧
     calculateBounds_calls w' = calculateBounds_calls w ++ [n] ∧
     objects w' !! n = Some o' ∧ parent o' = None ∧
     _boundsID o' = _boundsID o + 1 ∧ _lastBoundsID o' = _boundsID o + 1 ∧
     _bounds o' = Some b ∧
     rectangles w' !! r = Some (Bounds_getRectangle b) ∧
     (∀ k ok, objects w !! k = Some ok → k ≠ n → objects w' !! k = Some ok) ∧
     detached w' n o')
  ∧ ∀ k : nat,
      ∃ w' o',
        times k (getBounds calculateBounds stack n false rect) w = (Return tt, w') ∧
        calculateBounds_calls w' = calculateBounds_calls w ++ replicate k n ∧
        detached w' n o' ∧
        _boundsID o' = _boundsID o + Z.of_nat k ∧
        _lastBoundsID o' ≤ _boundsID o' ∧
        _bounds o' = Some b.
Proof.
  intros Hd Hb Hid. split; [by apply getBounds_recomputes_once|].
  intros k. revert w o Hd Hb Hid. induction k as [|k IH]; intros w o Hd Hb Hid.
  - exists w, o. cbn [times replicate]. rewrite app_nil_r.
    repeat (split; [done|]). split; [lia|]. done.
  - destruct (getBounds_recomputes_once stack n o b w rect Hd Hb Hid)
      as (r & w1 & o1 & E & Hc & _ & _ & Hid1 & Hlast1 & Hb1 & _ & _ & Hd1).
    destruct (IH w1 o1 Hd1 Hb1 ltac:(lia)) as (w' & o' & Ek & Hck & Hd' & Hid' & Hlast' & Hb').
    exists w', o'. cbn [times replicate].
    split; [by rewrite (bind_Return _ _ _ _ _ E)|].
    split; [by rewrite Hck, Hc, <- app_assoc|].
    repeat (split; [first [assumption | lia]|]). assumption.
Qed.

Lemma constructor_run (w : World) :
  let n := fresh (dom (objects w)) in
  let t := fresh (dom (transforms w)) in
  constructor w =
    (Return n,
     set_objects (<[n := constructed t]> (objects w))
       (set_transforms (<[t := Transform_new]> (transforms w)) w)).
Proof. reflexivity. Qed.

(** A node fresh from the constructor is ready to be asked: it is a new
    object, detached, and [getBounds()] on it returns the rectangle of
    the empty bounds the constructor gave it, after one invocation of
    [calculateBounds]; the objects that were there are as they were. *)
Theorem constructor_then_getBounds (stack : nat) (w : World) :
  ∃ n r w',
    (n ← constructor; r ← getBounds calculateBounds stack n false None; mret (n, r)) w
      = (Return (n, r), w') ∧
    objects w !! n = None ∧
    calculateBounds_calls w' = calculateBounds_calls w ++ [n] ∧
    rectangles w' !! r = Some (Bounds_getRectangle Bounds_new) ∧
    (∃ o', objects w' !! n = Some o' ∧ parent o' = None ∧ _boundsID o' = 1 ∧
           _lastBoundsID o' = 1) ∧
    (∀ k ok, objects w !! k = Some ok → objects w' !! k = Some ok).
Proof.
  pose proof (constructor_run w) as Hnew. cbv zeta in Hnew.
  pose proof (is_fresh (dom (objects w))) as Hfresh.
  set (n := fresh (dom (objects w))) in *.
  set (t := fresh (dom (transforms w))) in *. clearbody t.
  assert (objects w !! n = None) as Hn by by apply not_elem_of_dom.
  clearbody n.
  set (w0 := set_objects (<[n := constructed t]> (objects w))
               (set_transforms (<[t := Transform_new]> (transforms w)) w)) in *.
  assert (detached w0 n (constructed t)) as Hd.
  { unfold detached, sentinel_ready, w0. fields.
    split; [by simplify_map_eq|]. split; [done|]. split; [|done].
    eexists _, _. split; [done|]. by simplify_map_eq. }
  destruct (getBounds_detached_run stack n (constructed t) Bounds_new w0 None Hd)
    as (r & w' & o' & E & Hc & _ & Ho' & Hp' & Hid & Hlast & Hb & Hrect & Hkept); [done|].
  cbn in Hc.
  exists n, r, w'. split; [|split; [done|split; [done|split; [done|split]]]].
  - erewrite bind_Return by exact Hnew. by erewrite bind_Return by exact E.
  - by exists o'.
  - intros k ok Hk. apply Hkept; [|congruence].
    unfold w0. fields. assert (k ≠ n) by congruence. by simplify_map_eq.
Qed.

End Recompute.

(** *** What a query of the local bounds does to the page *)

Section LocalBounds.
Context `{MathLib}.

Lemma transform_setter_compares (this v t : ref) (w : World) (o : DisplayObject)
    (T V : Transform) :
  objects w !! this = Some o →
  _transform o = Some t →
  transforms w !! t = Some T →
  transforms w !! v = Some V →
  pixiChanged w = false →
  transform_setter this (Some v) w =
    (Return tt,
     set_objects (<[this := set__transform (Some v) o]> (objects w))
       (set_pixiChanged (differ T V) w)).
Proof.
  intros Ho Ht HT HV Hc. unfold transform_setter, differ. mrun. reflexivity.
Qed.

(** The second half of [getLocalBounds], on a page marked as changed. *)
Lemma getLocalBounds_tail (stack : nat) (n r : ref) (value parentRef : option ref)
    (o1 : DisplayObject) (w1 : World) (b : Bounds) :
  detached w1 n o1 →
  _bounds o1 = Some b →
  pixiChanged w1 = true →
  ∃ r' w' o',
    (bounds ← getBounds calculateBounds stack n false (Some r);
     store n (set_parent parentRef) ;;
     transform_setter n value ;;
     mret bounds) w1 = (Return r', w') ∧
    pixiChanged w' = true ∧
    objects w' !! n = Some o' ∧ _transform o' = value ∧ parent o' = parentRef.
Proof.
  intros Hd Hb1 Hflag.
  destruct (getBounds_detached_run stack n o1 b w1 (Some r) Hd Hb1)
    as (r' & w2 & o2 & E & _ & Hflag2 & Ho2 & _).
  rewrite Hflag in Hflag2.
  erewrite bind_Return by exact E.
  unfold transform_setter. mrun.
  eexists _, _, _. split; [reflexivity|]. fields.
  split; [done|]. split; [by simplify_map_eq|]. done.
Qed.

(** [getLocalBounds] assigns to [this.transform], and the setter compares
    the node's transform with the sentinel's.  On a page not marked as
    changed, asking a node for its local bounds marks the page whenever
    the node's transform differs from the sentinel's (from a new
    [Transform], if the node has no sentinel yet) in a component the
    setter looks at, although the node is given back the transform and
    the parent it had. *)
Theorem getLocalBounds_marks_the_page (stack : nat) (w : World) (n t : ref)
    (o : DisplayObject) (T ST : Transform) (b : Bounds) (rect : option ref) :
  objects w !! n = Some o →
  _transform o = Some t →
  transforms w !! t = Some T →
  match tempDisplayObjectParent o with
  | Some s =>
      ∃ so st, objects w !! s = Some so ∧ _transform so = Some st ∧
               transforms w !! st = Some ST
  | None => ST = Transform_new
  end →
  _bounds o = Some b →
  pixiChanged w = false →
  differ T ST = true →
  ∃ r w' o',
    getLocalBounds calculateBounds stack n rect w = (Return r, w') ∧
    pixiChanged w' = true ∧
    objects w' !! n = Some o' ∧ _transform o' = Some t ∧ parent o' = parent o.
Proof.
  intros Ho Ht HT Hsen Hb Hc Hdiff.
  destruct (tempDisplayObjectParent o) as [s|] eqn:Hts.
  - destruct Hsen as (so & st & Hso & Hst & HST).
    unfold getLocalBounds. mrun.
    destruct (decide (s = n)) as [->|Hsn]; simplify_eq.
    all: by_run sentinel_get; mrun; by_run transform_setter_compares; rewrite Hdiff.
    all: destruct rect as [r|]; [|destruct (_localBoundsRect o) as [r|] eqn:Hr].
    all: unfold new_Rectangle; mrun.
    all: eapply getLocalBounds_tail; [ready | fields; exact Hb | reflexivity].
  - subst ST.
    destruct (fresh_object w n o Ho) as [Hfo Hfn].
    destruct (fresh_transform w t T HT) as [Hft Hftn].
    unfold getLocalBounds. mrun.
    pose proof (sentinel_build (set_objects (<[n := set_parent None o]> (objects w)) w)
                  n (set_parent None o)) as Hbuild.
    unfold set_objects in Hbuild. fields. rewrite lookup_insert_eq in Hbuild.
    rewrite ?Hc in Hbuild.
    specialize (Hbuild eq_refl Hts). cbv zeta in Hbuild.
    rewrite dom_insert_lookup_L in Hbuild by eauto.
    set (s := fresh (dom (objects w))) in *.
    set (st := fresh (dom (transforms w))) in *. clearbody s st.
    erewrite bind_Return by exact Hbuild.
    mrun. by_run transform_setter_compares. rewrite Hdiff.
    destruct rect as [r|]; [|destruct (_localBoundsRect o) as [r|] eqn:Hr].
    all: unfold new_Rectangle; mrun.
    all: eapply getLocalBounds_tail; [ready | fields; exact Hb | reflexivity].
Qed.

End LocalBounds.

(** *** What the coordinate queries compute and change *)

Section Coordinates.
Context `{MathLib}.

(** The update that [toGlobal] and [toLocal] run on a detached node,
    with what it writes. *)
Lemma borrow_updates stack n t o w (T ST : Transform) (A : float) :
  objects w !! n = Some o →
  parent o = None →
  _transform o = Some t →
  transforms w !! t = Some T →
  match tempDisplayObjectParent o with
  | Some s =>
      ∃ so st, objects w !! s = Some so ∧ _transform so = Some st ∧ st ≠ t ∧
               transforms w !! st = Some ST ∧ worldAlpha so = A
  | None => ST = Transform_new ∧ A = 1%float
  end →
  stack ≠ O →
  ∃ w' o',
    (_recursivePostUpdateTransform stack n ;;
     o ← load n;
     match parent o with
     | None =>
         p ← _tempDisplayObjectParent n;
         store n (set_parent (Some p)) ;;
         displayObjectUpdateTransform n ;;
         store n (set_parent None)
     | Some _ => displayObjectUpdateTransform n
     end) w = (Return tt, w') ∧
    objects w' !! n = Some o' ∧ _transform o' = Some t ∧ parent o' = None ∧
    transforms w' !! t =
      Some (Transform_updateTransform (Transform_updateTransform T ST) ST) ∧
    _boundsID o' = _boundsID o + 1 ∧
    worldAlpha o' = (_alpha o * A)%float.
Proof.
  intros Ho Hp Ht HT Hsen Hstack.
  destruct stack as [|depth]; [done|]. clear Hstack.
  unfold _recursivePostUpdateTransform, displayObjectUpdateTransform.
  cbn [_recursivePostUpdateTransform_at].
  destruct (tempDisplayObjectParent o) as [s|] eqn:Hts.
  - destruct Hsen as (so & st & Hso & Hst & Hstt & HST & HA).
    assert (s ≠ n) as Hsn by (intros ->; congruence).
    mrun; by_run sentinel_get; mrun; by_run transform_updateTransform_run.
    mrun; by_run sentinel_get; mrun; by_run updateTransform_run; mrun.
    eexists _, _; split; [reflexivity|]; fields.
    split; [by simplify_map_eq|]. fields. rewrite HA.
    repeat (split; [first [done | by simplify_map_eq]|]). done.
  - destruct Hsen as [-> ->].
    destruct (fresh_object w n o Ho) as [Hfo Hfn].
    destruct (fresh_transform w t T HT) as [Hft Hftn].
    pose proof (sentinel_build w n o Ho Hts) as Hbuild. cbv zeta in Hbuild.
    set (s := fresh (dom (objects w))) in *.
    set (st := fresh (dom (transforms w))) in *. clearbody s st.
    mrun. erewrite bind_Return by exact Hbuild.
    mrun; by_run transform_updateTransform_run.
    mrun; by_run sentinel_get; mrun; by_run updateTransform_run; mrun.
    eexists _, _; split; [reflexivity|]; fields.
    split; [by simplify_map_eq|]. fields.
    repeat (split; [first [done | by simplify_map_eq]|]). done.
Qed.

(** [toGlobal] and [toLocal] on a detached node, transforms not skipped.
    The node's transform is updated twice against the sentinel's (once
    by [_recursivePostUpdateTransform], once by the update that
    follows), the answer is the position taken through the world matrix
    that results, or back through it, and the query is not without
    effect on the node: its [_boundsID] has moved on by one and its
    [worldAlpha] is its alpha times the sentinel's [worldAlpha] (which
    is 1 for a sentinel just built). *)
Theorem coordinates_of_a_detached_node (stack : nat) (n t : ref) (o : DisplayObject)
    (w : World) (T ST : Transform) (A : float) (position : Point.t) :
  objects w !! n = Some o →
  parent o = None →
  _transform o = Some t →
  transforms w !! t = Some T →
  match tempDisplayObjectParent o with
  | Some s =>
      ∃ so st, objects w !! s = Some so ∧ _transform so = Some st ∧ st ≠ t ∧
               transforms w !! st = Some ST ∧ worldAlpha so = A
  | None => ST = Transform_new ∧ A = 1%float
  end →
  stack ≠ O →
  let T' := Transform_updateTransform (Transform_updateTransform T ST) ST in
  (∃ w' o',
     toGlobal stack n position false w = (Return (Matrix_apply T' position), w') ∧
     objects w' !! n = Some o' ∧ parent o' = None ∧ transforms w' !! t = Some T' ∧
     _boundsID o' = _boundsID o + 1 ∧ worldAlpha o' = (_alpha o * A)%float)
  ∧ (∃ w' o',
       toLocal stack n position None false w
         = (Return (Matrix_applyInverse T' position), w') ∧
       objects w' !! n = Some o' ∧ parent o' = None ∧ transforms w' !! t = Some T' ∧
       _boundsID o' = _boundsID o + 1 ∧ worldAlpha o' = (_alpha o * A)%float).
Proof.
  intros Ho Hp Ht HT Hsen Hstack T'.
  destruct (borrow_updates stack n t o w T ST A Ho Hp Ht HT Hsen Hstack)
    as (w1 & o1 & E1 & Ho1 & Ht1 & Hp1 & HT1 & Hid1 & Ha1).
  split.
  - exists w1, o1. split; [|done].
    unfold toGlobal. etrans; [exact (bind_Return _ _ _ _ _ E1)|]. mrun. reflexivity.
  - exists w1, o1. split; [|done].
    unfold toLocal. etrans; [exact (bind_Return _ _ _ _ _ eq_refl)|].
    etrans; [exact (bind_Return _ _ _ _ _ E1)|]. mrun. reflexivity.
Qed.

End Coordinates.

(** *** What every method keeps *)

Section Reads.
Context `{MathLib}.
Variable P : World → Prop.

Lemma keeps_ret {A} (a : A) : keeps P (mret a).
Proof. by intros w out w' HP [= _ <-]. Qed.

Lemma keeps_throw {A} (e : Exn) : keeps P (throw e : M World A).
Proof. by intros w out w' HP [= _ <-]. Qed.

Lemma keeps_bind {A B} (m : M World A) (f : A → M World B) :
  keeps P m → (∀ a, keeps P (f a)) → keeps P (m ≫= f).
Proof.
  intros Hm Hf w out w' HP. unfold mbind, M_bind.
  destruct (m w) as [[a|e] w1] eqn:E.
  - apply Hf. by eapply Hm.
  - intros [= _ <-]. by eapply Hm.
Qed.

Lemma keeps_nonnull {A} (v : option A) : keeps P (nonnull v).
Proof. destruct v; [apply keeps_ret | apply keeps_throw]. Qed.

Lemma keeps_load this : keeps P (load this).
Proof. intros w out w' HP. unfold load. by destruct (objects w !! this); intros [= _ <-]. Qed.

Lemma keeps_load_transform t : keeps P (load_transform t).
Proof.
  intros w out w' HP. unfold load_transform.
  by destruct (transforms w !! t); intros [= _ <-].
Qed.

Lemma keeps_modify (g : World → World) :
  (∀ w, P w → P (g w)) → keeps P (modify_state g).
Proof. intros Hg w out w' HP [= _ <-]. by apply Hg. Qed.

End Reads.

Section Keeps.
Context `{MathLib}.
Variable P : World → Prop.
Hypothesis P_stable : stable P.

Lemma keeps_store this (f : DisplayObject → DisplayObject) :
  (∀ o, _boundsID o ≤ _boundsID (f o)) → keeps P (store this f).
Proof.
  intros Hf w out w' HP. unfold store.
  destruct (objects w !! this) as [o|] eqn:Ho; intros [= _ <-]; [|done].
  by apply (stable_store P P_stable).
Qed.

Lemma keeps_new_Transform : keeps P new_Transform.
Proof. intros w out w' HP [= _ <-]. by apply (stable_transforms P P_stable). Qed.

Lemma keeps_new_Rectangle : keeps P new_Rectangle.
Proof. intros w out w' HP [= _ <-]. by apply (stable_rectangles P P_stable). Qed.

Lemma keeps_new_object o : keeps P (new_object o).
Proof. intros w out w' HP [= _ <-]. by apply (stable_new P P_stable). Qed.

Lemma keeps_raise (x : World → bool) :
  keeps P (modify_state (λ w, set_pixiChanged (pixiChanged w || x w) w)).
Proof.
  apply keeps_modify. intros w HP. apply (stable_flag P P_stable); [done|].
  by intros ->.
Qed.

(** [keeping] goes through a method body write by write. *)
Ltac keeping :=
  repeat first
    [ apply keeps_ret | apply keeps_throw | apply keeps_nonnull | apply keeps_load
    | apply keeps_load_transform | apply keeps_new_Transform | apply keeps_new_Rectangle
    | apply keeps_new_object
    | apply keeps_store; intros ?; fields; lia
    | apply (keeps_raise (λ _, _))
    | apply keeps_modify; intros ? ?;
      first [ by apply (stable_transforms P P_stable)
            | by apply (stable_rectangles P P_stable) ]
    | assumption
    | match goal with
      | Hk : _ |- keeps _ _ => apply Hk
      end
    | apply keeps_bind; [|intros ?]
    | match goal with
      | |- keeps _ (match ?x with _ => _ end) => destruct x
      end ].

Lemma keeps_constructor : keeps P constructor.
Proof. unfold constructor. keeping. Qed.

Lemma keeps_transform_setter this value : keeps P (transform_setter this value).
Proof.
  intros w out w' HP. unfold transform_setter.
  rewrite (bind_Return _ _ w w w) by reflexivity.
  destruct (pixiChanged w) eqn:Hc.
  - rewrite (bind_Return _ _ w true w) by reflexivity.
    rewrite (bind_Return _ _ w tt (set_pixiChanged true w)) by reflexivity.
    apply keeps_store; [intros ?; fields; lia|].
    by apply (stable_flag P P_stable).
  - unfold mbind at 1, M_bind.
    match goal with |- context [?m w] =>
      assert (keeps (λ w', w' = w) m) as Hread
    end.
    { repeat first
        [ apply keeps_ret | apply keeps_nonnull | apply keeps_load
        | apply keeps_load_transform | apply keeps_bind; [|intros ?] ]. }
    match goal with |- context [?m w] => destruct (m w) as [[changed|e] w1] eqn:E end.
    + rewrite (Hread w _ w1 eq_refl E).
      rewrite (bind_Return _ _ w tt (set_pixiChanged changed w)) by reflexivity.
      apply keeps_store; [intros ?; fields; lia|].
      apply (stable_flag P P_stable); [done|]. congruence.
    + rewrite (Hread w _ w1 eq_refl E). by intros [= _ <-].
Qed.

Lemma keeps_visible_setter this value : keeps P (visible_setter this value).
Proof. unfold visible_setter. keeping. Qed.

Lemma keeps_alpha_setter this value : keeps P (alpha_setter this value).
Proof. unfold alpha_setter. keeping. Qed.

Lemma keeps_renderable_setter this value : keeps P (renderable_setter this value).
Proof. unfold renderable_setter. keeping. Qed.

Lemma keeps_mask_setter this value : keeps P (mask_setter this value).
Proof.
  pose proof keeps_renderable_setter.
  unfold mask_setter. keeping.
Qed.

Lemma keeps_sentinel this : keeps P (_tempDisplayObjectParent this).
Proof. pose proof keeps_constructor. unfold _tempDisplayObjectParent. keeping. Qed.

Lemma keeps_transform_updateTransform t p : keeps P (transform_updateTransform t p).
Proof. unfold transform_updateTransform. keeping. Qed.

Lemma keeps_updateTransform this : keeps P (updateTransform this).
Proof. pose proof keeps_transform_updateTransform. unfold updateTransform. keeping. Qed.

Lemma keeps_recursive depth this : keeps P (_recursivePostUpdateTransform_at depth this).
Proof.
  pose proof keeps_transform_updateTransform. pose proof keeps_sentinel.
  revert this. induction depth as [|depth IH]; intros this;
    cbn [_recursivePostUpdateTransform_at]; keeping.
Qed.

Variable hook : ref → M World unit.
Variable stack : nat.
Hypothesis hook_keeps : ∀ this, keeps P (hook this).

Lemma keeps_invoke this : keeps P (invoke_calculateBounds hook this).
Proof.
  intros w out w' HP. unfold invoke_calculateBounds.
  destruct (hook this w) as [r w1] eqn:E. intros [= _ <-].
  apply (stable_calls P P_stable). by eapply hook_keeps.
Qed.

Lemma keeps_getBounds this skipUpdate rect :
  keeps P (getBounds hook stack this skipUpdate rect).
Proof.
  pose proof keeps_sentinel. pose proof keeps_updateTransform.
  pose proof keeps_invoke. pose proof (λ this, keeps_recursive stack this).
  unfold getBounds, _recursivePostUpdateTransform.
  destruct skipUpdate; keeping.
  all: case_bool_decide; keeping.
Qed.

Lemma keeps_getLocalBounds this rect : keeps P (getLocalBounds hook stack this rect).
Proof.
  pose proof keeps_sentinel. pose proof keeps_transform_setter.
  pose proof keeps_getBounds.
  unfold getLocalBounds. keeping.
Qed.

Lemma keeps_toGlobal this position skipUpdate :
  keeps P (toGlobal stack this position skipUpdate).
Proof.
  pose proof keeps_sentinel. pose proof keeps_updateTransform.
  pose proof (λ this, keeps_recursive stack this).
  unfold toGlobal, _recursivePostUpdateTransform, displayObjectUpdateTransform.
  destruct skipUpdate; keeping.
Qed.

Lemma keeps_toLocal this position from skipUpdate :
  keeps P (toLocal stack this position from skipUpdate).
Proof.
  pose proof keeps_sentinel. pose proof keeps_updateTransform.
  pose proof keeps_toGlobal. pose proof (λ this, keeps_recursive stack this).
  unfold toLocal, _recursivePostUpdateTransform, displayObjectUpdateTransform.
  destruct skipUpdate; keeping.
Qed.

Lemma keeps_destroy this : keeps P (destroy this).
Proof.
  pose proof keeps_transform_setter.
  unfold destroy, removeAllListeners, Container_removeChild. keeping.
  all: case_bool_decide; keeping.
Qed.

Lemma keeps_every_method : every_method hook stack P.
Proof.
  unfold every_method.
  auto 20 using keeps_constructor, keeps_transform_setter, keeps_visible_setter,
    keeps_alpha_setter, keeps_renderable_setter, keeps_mask_setter, keeps_sentinel,
    keeps_updateTransform, keeps_recursive, keeps_getBounds, keeps_getLocalBounds,
    keeps_toGlobal, keeps_toLocal, keeps_destroy.
Qed.

End Keeps.

Section Invariants.
Context `{MathLib}.

(** No method of the class clears [window.pixiChanged]: once the page is
    marked as changed it stays so through every call, whether the call
    returns or throws, as long as the [calculateBounds] in force does
    not clear the mark itself. *)
Theorem pixiChanged_is_never_cleared (hook : ref → M World unit) (stack : nat) :
  (∀ this, keeps marked (hook this)) →
  every_method hook stack marked.
Proof.
  intros Hhook. apply keeps_every_method; [|done].
  split; try done. unfold marked. intros w b Hw Hb. by apply Hb.
Qed.

(** No method of the class lowers the [_boundsID] of a node or makes a
    node disappear: a node whose [_boundsID] has reached [k] is still
    there with a [_boundsID] of at least [k] after every call, whether
    the call returns or throws, as long as the [calculateBounds] in
    force does as much. *)
Theorem boundsID_never_decreases (hook : ref → M World unit) (stack : nat)
    (n : ref) (k : Z) :
  (∀ this, keeps (counted n k) (hook this)) →
  every_method hook stack (counted n k).
Proof.
  intros Hhook. apply keeps_every_method; [|done].
  split; try done.
  - intros w this o f (on & Hon & Hk) Ho Hf. unfold counted. fields.
    destruct (decide (this = n)) as [->|Hne].
    + exists (f o). split; [by simplify_map_eq|]. simplify_eq. lia.
    + exists on. by simplify_map_eq.
  - intros w o (on & Hon & Hk). unfold counted. fields. exists on.
    split; [|done]. rewrite lookup_insert_ne; [done|].
    intros E. pose proof (is_fresh (dom (objects w))) as Hf. rewrite E in Hf.
    apply Hf, elem_of_dom. eauto.
Qed.

End Invariants.

(** *** The statements above at work *)

Section MoreExamples.
Local Existing Instance translations.

Lemma worldVisible_answers_witness :
  worldVisible 5 child family = Some (Return true)
  ∧ worldVisible 5 child hidden_root = Some (Return false).
Proof.
  split.
  - destruct (worldVisible_answers family child
                [set__alpha 0.5%float (set_parent (Some root) (constructed 2%positive));
                 set_worldAlpha 0.5%float (set_children [child] (constructed 1%positive))]
                None 5) as [Hup _].
    + split; [vm_compute; reflexivity|]. exists root. split; [reflexivity|].
      split; [vm_compute; reflexivity | reflexivity].
    + cbn. lia.
    + by apply Hup.
  - destruct (worldVisible_answers hidden_root child
                [set__alpha 0.5%float (set_parent (Some root) (constructed 2%positive));
                 set__visible false
                   (set_worldAlpha 0.5%float (set_children [child] (constructed 1%positive)))]
                None 5) as [_ Hhidden].
    + split; [vm_compute; reflexivity|]. exists root. split; [reflexivity|].
      split; [vm_compute; reflexivity | reflexivity].
    + cbn. lia.
    + by apply (Hhidden
                  [set__alpha 0.5%float (set_parent (Some root) (constructed 2%positive))]
                  (set__visible false
                     (set_worldAlpha 0.5%float
                        (set_children [child] (constructed 1%positive))))).
Defined.

Lemma worldVisible_never_ends_on_a_cycle_witness :
  worldVisible 1000 root knot = None.
Proof.
  apply (worldVisible_never_ends_on_a_cycle knot (λ k, k = root) root).
  - intros k ->. eexists _, root. split; [vm_compute; reflexivity|]. split; reflexivity.
  - intros k o -> Ho. vm_compute in Ho. by injection Ho as <-.
  - reflexivity.
Defined.

Lemma updates_overflow_on_a_cycle_witness :
  getBounds calculateBounds 1000 root false None knot = (Throw RangeError, knot)
  ∧ toGlobal 1000 root origin false knot = (Throw RangeError, knot).
Proof.
  destruct (updates_overflow_on_a_cycle calculateBounds knot (λ k, k = root) root 1000)
    as (_ & Hbounds & Hglobal & _).
  - intros k ->. eexists _, root. split; [vm_compute; reflexivity|]. split; reflexivity.
  - reflexivity.
  - split; [apply Hbounds | apply Hglobal].
Defined.

Lemma updateTransform_without_parent_witness :
  (updateTransform root two_nodes).1 = Throw TypeError
  ∧ _boundsID <$> objects (updateTransform root two_nodes).2 !! root = Some 1.
Proof.
  rewrite (updateTransform_without_parent two_nodes root (constructed 1%positive));
    [|vm_compute; reflexivity | reflexivity].
  split; [reflexivity | vm_compute; reflexivity].
Defined.

Lemma mask_shared_last_write_wins_witness :
  ∃ w' b' m',
    (mask_setter root (Some third) ;; mask_setter child (Some third) ;; mask_setter root None)
      three_nodes = (Return tt, w') ∧
    objects w' !! child = Some b' ∧ _mask b' = Some third ∧
    objects w' !! third = Some m' ∧ _renderable m' = true ∧ isMask m' = false.
Proof.
  apply (mask_shared_last_write_wins three_nodes root child third
           (constructed 1%positive) (constructed 2%positive) (constructed 3%positive));
    first [vm_compute; reflexivity | discriminate].
Defined.

Lemma mask_wrapper_marks_its_object_witness :
  ∃ w1 q1,
    mask_setter root (Some child) wrapped = (Return tt, w1) ∧
    objects w1 !! child = Some (set_maskObject (Some third) (constructed 2%positive)) ∧
    objects w1 !! third = Some q1 ∧ _renderable q1 = false ∧ isMask q1 = true.
Proof.
  destruct (mask_wrapper_marks_its_object wrapped root child third
              (constructed 1%positive)
              (set_maskObject (Some third) (constructed 2%positive))
              (constructed 3%positive))
    as (w1 & q1 & E & Hd & Hq & Hr & Hm & _);
    [first [vm_compute; reflexivity | discriminate] ..|].
  exists w1, q1. repeat (split; [assumption|]). assumption.
Defined.

Lemma destroy_leaves_the_mask_hidden_witness :
  ∃ w' o' m',
    (mask_setter root (Some child) ;; destroy root) two_nodes = (Return tt, w') ∧
    objects w' !! root = Some o' ∧ _destroyed o' = true ∧ _mask o' = None ∧
    objects w' !! child = Some m' ∧ _renderable m' = false ∧ isMask m' = true.
Proof.
  apply (destroy_leaves_the_mask_hidden two_nodes root child
           (constructed 1%positive) (constructed 2%positive));
    first [vm_compute; reflexivity | discriminate].
Defined.

Lemma destroy_twice_witness :
  let destroyed := after (alpha_setter child 0.25%float ;; destroy child) family in
  destroy child destroyed = (Return tt, destroyed).
Proof.
  intros destroyed.
  apply (destroy_twice (after (alpha_setter child 0.25%float) family) destroyed child).
  vm_compute. reflexivity.
Defined.

Lemma getBounds_update_always_recomputes_witness :
  (∃ r w' o',
     getBounds calculateBounds 8 root false None two_nodes = (Return r, w') ∧
     calculateBounds_calls w' = calculateBounds_calls two_nodes ++ [root] ∧
     objects w' !! root = Some o' ∧ parent o' = None ∧
     _boundsID o' = 1 ∧ _lastBoundsID o' = 1)
  ∧ ∃ w' o',
      times 2 (getBounds calculateBounds 8 root false None) two_nodes = (Return tt, w') ∧
      calculateBounds_calls w' = calculateBounds_calls two_nodes ++ [root; root] ∧
      detached w' root o' ∧ _boundsID o' = 2.
Proof.
  destruct (getBounds_update_always_recomputes 8 root (constructed 1%positive)
              Bounds_new two_nodes None)
    as [(r & w' & o' & E & Hc & Ho' & Hp & Hid & Hlast & _) Hmany].
  - split; [vm_compute; reflexivity|]. split; [reflexivity|]. split.
    + eexists _, _. split; [reflexivity | vm_compute; reflexivity].
    + intros s [=].
  - reflexivity.
  - cbn. lia.
  - split.
    + exists r, w', o'. repeat (split; [assumption|]). assumption.
    + destruct (Hmany 2%nat) as (w2 & o2 & E2 & Hc2 & Hd2 & Hid2 & _).
      exists w2, o2. repeat (split; [assumption|]). assumption.
Defined.

Lemma getLocalBounds_marks_the_page_witness :
  pixiChanged moved = false ∧
  ∃ r w' o',
    getLocalBounds calculateBounds 8 root None moved = (Return r, w') ∧
    pixiChanged w' = true ∧
    objects w' !! root = Some o' ∧ _transform o' = Some 1%positive ∧ parent o' = None.
Proof.
  split; [reflexivity|].
  apply (getLocalBounds_marks_the_page 8 moved root 1%positive (constructed 1%positive)
           away Transform_new
           Bounds_new None); vm_compute; reflexivity.
Defined.

Lemma pixiChanged_is_never_cleared_witness :
  pixiChanged faded = true
  ∧ pixiChanged (after (getLocalBounds calculateBounds 8 child None) faded) = true
  ∧ pixiChanged (after (destroy child) faded) = true.
Proof.
  destruct (pixiChanged_is_never_cleared calculateBounds 8)
    as (_ & _ & _ & _ & _ & _ & _ & _ & _ & _ & Hlocal & _ & _ & Hdestroy).
  - intros this. apply keeps_ret.
  - split; [reflexivity|]. split.
    + apply (Hlocal child None faded
               (getLocalBounds calculateBounds 8 child None faded).1);
        [reflexivity | apply surjective_pairing].
    + apply (Hdestroy child faded (destroy child faded).1);
        [reflexivity | apply surjective_pairing].
Defined.

Lemma boundsID_never_decreases_witness :
  let updated := after (updateTransform child) family in
  counted child 1 updated
  ∧ counted child 1 (after (toGlobal 8 child origin false) updated)
  ∧ counted child 1 (after (destroy child) updated).
Proof.
  intros updated.
  assert (counted child 1 updated) as Hk.
  { eexists. split; [vm_compute; reflexivity | cbn; lia]. }
  destruct (boundsID_never_decreases calculateBounds 8 child 1)
    as (_ & _ & _ & _ & _ & _ & _ & _ & _ & _ & _ & Hglobal & _ & Hdestroy).
  - intros this. apply keeps_ret.
  - split; [exact Hk|]. split.
    + apply (Hglobal child origin false updated (toGlobal 8 child origin false updated).1);
        [exact Hk | apply surjective_pairing].
    + apply (Hdestroy child updated (destroy child updated).1);
        [exact Hk | apply surjective_pairing].
Defined.

Lemma coordinates_of_a_detached_node_witness :
  (toGlobal 8 root {| Point.x := 1; Point.y := 1 |}%float false moved).1
    = Return {| Point.x := 4; Point.y := 5 |}%float
  ∧ (toLocal 8 root {| Point.x := 4; Point.y := 5 |}%float None false moved).1
    = Return {| Point.x := 1; Point.y := 1 |}%float.
Proof.
  split.
  - destruct (coordinates_of_a_detached_node 8 root 1%positive (constructed 1%positive)
                moved away Transform_new 1%float {| Point.x := 1; Point.y := 1 |}%float)
      as [(w' & o' & E & _) _];
      [first [vm_compute; reflexivity | discriminate | split; reflexivity] ..|].
    rewrite E. vm_compute. reflexivity.
  - destruct (coordinates_of_a_detached_node 8 root 1%positive (constructed 1%positive)
                moved away Transform_new 1%float {| Point.x := 4; Point.y := 5 |}%float)
      as [_ (w' & o' & E & _)];
      [first [vm_compute; reflexivity | discriminate | split; reflexivity] ..|].
    rewrite E. vm_compute. reflexivity.
Defined.

End MoreExamples.
End SceneFacts.

(** ** The extension registry *)

Module RegistryFacts.
Import Registry.

(** *** Facts about normalisation and [add] *)

Lemma normalizeExtension_class_without_extension (v : Value) :
  typeof v = "function" →
  lookup_chain "extension" v = VUndefined →
  normalizeExtension v = Throw (Error "Extension class must have an extension object").
Proof.
  intros Hf Hx. unfold normalizeExtension. rewrite Hf.
  destruct v; try discriminate. cbn [get]. rewrite Hx. reflexivity.
Qed.

Lemma map_normalizeExtension_app (l1 l2 : list Value) :
  map_normalizeExtension (l1 ++ l2) =
    (a ← map_normalizeExtension l1; b ← map_normalizeExtension l2; mret (a ++ b)).
Proof.
  induction l1 as [|x l1 IH]; cbn [map_normalizeExtension app].
  - unfold mbind, mret, Outcome_bind, Outcome_ret.
    by destruct (map_normalizeExtension l2).
  - rewrite IH. unfold mbind, mret, Outcome_bind, Outcome_ret.
    destruct (normalizeExtension x); [|done].
    destruct (map_normalizeExtension l1); [|done].
    by destruct (map_normalizeExtension l2).
Qed.

(** A submission that does not normalise stops [add] before it has
    touched anything. *)
Lemma add_not_normalised {Env} (l : list Value) (e : Exn) (p : Page Env) :
  map_normalizeExtension l = Throw e → add l p = (Throw e, p).
Proof. intros E. unfold add, lift. unfold mbind, M_bind. by rewrite E. Qed.

(** C10.  A class with no [extension] member, own or inherited, is
    refused by [add]: submitted alone it raises "Extension class must
    have an extension object", and a call that has it among its
    arguments raises and registers nothing.  [NegationBlend] and
    [ExclusionBlend], whose metadata sits under [extensions], are such
    classes whenever [BlendModeFilter] brings no [extension] with it. *)
Theorem add_rejects_class_without_extension {Env} (p : Page Env) :
  (∀ v,
     typeof v = "function" →
     lookup_chain "extension" v = VUndefined →
     add [v] p = (Throw (Error "Extension class must have an extension object"), p) ∧
     ∀ before after, ∃ e, add (before ++ v :: after) p = (Throw e, p))
  ∧ (∀ BlendModeFilter,
       lookup_chain "extension" BlendModeFilter = VUndefined →
       add [NegationBlend BlendModeFilter] p =
         (Throw (Error "Extension class must have an extension object"), p) ∧
       add [ExclusionBlend BlendModeFilter] p =
         (Throw (Error "Extension class must have an extension object"), p)).
Proof.
  assert (∀ v, typeof v = "function" → lookup_chain "extension" v = VUndefined →
    add [v] p = (Throw (Error "Extension class must have an extension object"), p))
    as Hone.
  { intros v Hf Hx. apply add_not_normalised. cbn [map_normalizeExtension].
    by rewrite normalizeExtension_class_without_extension. }
  split.
  - intros v Hf Hx. split; [by apply Hone|].
    intros before after.
    destruct (map_normalizeExtension (before ++ v :: after)) as [a|e] eqn:E.
    + rewrite map_normalizeExtension_app in E. cbn [map_normalizeExtension] in E.
      rewrite normalizeExtension_class_without_extension in E by done.
      unfold mbind, Outcome_bind in E.
      by destruct (map_normalizeExtension before).
    + exists e. by apply add_not_normalised.
  - intros base Hbase. split; apply Hone; try done; cbn; by rewrite Hbase.
Qed.


(** *** Facts about [handle] and the queue *)

Lemma read_Own {A} (table : gmap string A) (type : string) (a : A) :
  table !! type = Some a → read table type = Own a.
Proof. intros E. unfold read. by rewrite E. Qed.

Lemma read_Inherited {A} (table : gmap string A) (type : string) :
  table !! type = None → type ∈ Object_prototype_members →
  read table type = Inherited type.
Proof. intros E Hin. unfold read. by rewrite E, bool_decide_eq_true_2. Qed.

Lemma read_Missing {A} (table : gmap string A) (type : string) :
  table !! type = None → type ∉ Object_prototype_members →
  read table type = Missing.
Proof. intros E Hin. unfold read. by rewrite E, bool_decide_eq_false_2. Qed.

Lemma read_found {A} (table : gmap string A) (type : string) :
  is_Some (table !! type) ∨ type ∈ Object_prototype_members →
  is_missing (read table type) = false.
Proof.
  unfold read. destruct (table !! type); [done|].
  intros [[? [=]]|Hin]. by rewrite bool_decide_eq_true_2.
Qed.

(** An inherited member called as a handler leaves everything as it is. *)
Lemma call_inherited_state {S} (name : string) (s : S) (out : Outcome unit) (s' : S) :
  call_inherited name s = (out, s') → s' = s.
Proof. unfold call_inherited. by case_bool_decide; intros [= _ <-]. Qed.

Section Handle.
Context {Env : Type}.
Implicit Types (r : Extensions Env) (e : Env) (p : Page Env).
Implicit Types (onAdd onRemove : ExtensionHandler Env).

Lemma forEach_call (q : list ExtensionFormat) (h : ExtensionHandler Env) r e :
  forEach q (call h) (r, e) =
    let '(out, e') := forEach q h e in (out, (r, e')).
Proof.
  revert e. induction q as [|x q IH]; intros e; [done|].
  cbn [forEach]. unfold mbind, M_bind, call at 1. cbn [fst snd].
  destruct (h x e) as [[[]|err] e1]; [|done]. apply IH.
Qed.

Lemma handle_taken type onAdd onRemove p :
  is_Some (_addHandlers p.1 !! type) ∨ is_Some (_removeHandlers p.1 !! type)
  ∨ type ∈ Object_prototype_members →
  handle type onAdd onRemove p = (Throw (already type), p).
Proof.
  intros Ht. unfold handle. unfold mbind at 1, M_bind, get_state.
  destruct Ht as [Ha|[Hr|Hin]].
  - by rewrite (read_found (_addHandlers p.1)) by eauto.
  - rewrite (read_found (_removeHandlers p.1)) by eauto. by rewrite orb_true_r.
  - by rewrite (read_found (_addHandlers p.1)) by eauto.
Qed.

Lemma handle_free type onAdd onRemove r e :
  type ∉ Object_prototype_members →
  _addHandlers r !! type = None →
  _removeHandlers r !! type = None →
  handle type onAdd onRemove (r, e) =
    let '(out, e') := forEach (pending r type) onAdd e in
    (out,
     (match out with
      | Return _ => set__queue (delete type (_queue r)) (claimed type onAdd onRemove r)
      | Throw _ => claimed type onAdd onRemove r
      end, e')).
Proof.
  intros Hin Ha Hr. unfold handle. unfold mbind at 1, M_bind, get_state. cbn [fst snd].
  rewrite !read_Missing by done. cbn [is_missing negb orb].
  unfold mbind, M_bind, modify_state, pending. cbn [fst snd claimed _queue].
  destruct (_queue r !! type) as [q|] eqn:Hq; cbn [default from_option id].
  - fold (claimed type onAdd onRemove r). rewrite forEach_call.
    destruct (forEach q onAdd e) as [[[]|err] e']; reflexivity.
  - cbn. unfold set__queue. cbn. by rewrite delete_id.
Qed.





(** Submitted in one call or in two, it is the same. *)
Lemma add_two (A B : Value) (a b : ExtensionFormat) p :
  normalizeExtension A = Return a →
  normalizeExtension B = Return b →
  add [A; B] p = (add [A] ;; add [B]) p.
Proof.
  intros HA HB. unfold add, lift. cbn [map_normalizeExtension]. rewrite HA, HB.
  cbn [mbind Outcome_bind mret Outcome_ret].
  unfold mbind, M_bind, mret, M_ret. cbn [forEach].
  unfold Outcome_ret. cbn [forEach]. unfold mbind, M_bind, mret, M_ret.
  destruct (type_forEach a (add_under a) p) as [[[]|err] p1]; [|done].
  by destruct (type_forEach b (add_under b) p1) as [[[]|err] p2].
Qed.


End Handle.


(** *** Facts about the sort and [handleByList] *)

Section Sorting.
Variable defaultPriority : Z.

Local Abbreviation key := (Registry.key defaultPriority).
Local Abbreviation goes_before := (Registry.goes_before defaultPriority).
Local Abbreviation insert_desc := (Registry.insert_desc defaultPriority).
Local Abbreviation sort_desc := (Registry.sort_desc defaultPriority).

Lemma by_priority_numbers (a b : Value) :
  is_Some (priority_of defaultPriority a) →
  is_Some (priority_of defaultPriority b) →
  by_priority defaultPriority a b = Return (Some (key b - key a)).
Proof.
  unfold Registry.key, priority_of, by_priority. intros [pa Ha] [pb Hb].
  destruct (normalizeExtensionPriority b defaultPriority) as [[]|]; try discriminate.
  destruct (normalizeExtensionPriority a defaultPriority) as [[]|]; try discriminate.
  by simplify_eq.
Qed.

Lemma resolved_defined (v : Value) :
  is_Some (priority_of defaultPriority v) → is_undefined v = false.
Proof. destruct v; try done. by intros [? [=]]. Qed.

Lemma insert_desc_Forall (P : Value → Prop) x l :
  P x → Forall P l → Forall P (insert_desc x l).
Proof.
  intros Hx. induction 1 as [|y l Hy Hl IH]; cbn; [by constructor|].
  case_bool_decide; repeat constructor; auto.
Qed.

Lemma sort_desc_Forall (P : Value → Prop) l : Forall P l → Forall P (sort_desc l).
Proof. induction 1; cbn; [constructor|]. by apply insert_desc_Forall. Qed.

Lemma insert_sorted_numbers x l :
  is_Some (priority_of defaultPriority x) →
  Forall (λ v, is_Some (priority_of defaultPriority v)) l →
  insert_sorted (by_priority defaultPriority) x l = Return (insert_desc x l).
Proof.
  intros Hx. induction 1 as [|y l Hy Hl IH]; [done|].
  cbn [insert_sorted Registry.insert_desc]. rewrite by_priority_numbers by done.
  cbn [mbind Outcome_bind is_positive].
  destruct (decide (key x < key y)) as [Hlt|Hge].
  - rewrite !bool_decide_eq_true_2 by lia. by rewrite IH.
  - by rewrite !bool_decide_eq_false_2 by lia.
Qed.

Lemma sort_defined_numbers l :
  Forall (λ v, is_Some (priority_of defaultPriority v)) l →
  sort_defined (by_priority defaultPriority) l = Return (sort_desc l).
Proof.
  induction 1 as [|x l Hx Hl IH]; [done|].
  cbn [sort_defined]. rewrite IH. cbn [mbind Outcome_bind].
  apply insert_sorted_numbers; [done|]. by apply sort_desc_Forall.
Qed.

Lemma Array_sort_numbers l :
  Forall (λ v, is_Some (priority_of defaultPriority v)) l →
  Array_sort (by_priority defaultPriority) l = Return (sort_desc l).
Proof.
  intros Hl. unfold Array_sort.
  assert (filter (λ v, is_undefined v = false) l = l) as ->.
  { induction Hl as [|x l Hx Hl IH]; [done|].
    rewrite filter_cons_True by by apply resolved_defined. by rewrite IH. }
  assert (filter (λ v, is_undefined v = true) l = []) as ->.
  { induction Hl as [|x l Hx Hl IH]; [done|].
    rewrite filter_cons_False; [done|]. by rewrite resolved_defined. }
  rewrite sort_defined_numbers by done. cbn. by rewrite app_nil_r.
Qed.

Lemma insert_desc_Permutation x l : insert_desc x l ≡ₚ x :: l.
Proof.
  induction l as [|y l IH]; cbn; [done|].
  case_bool_decide; [|done]. rewrite IH. apply Permutation_swap.
Qed.

Lemma sort_desc_Permutation l : sort_desc l ≡ₚ l.
Proof.
  induction l as [|x l IH]; cbn; [done|].
  by rewrite insert_desc_Permutation, IH.
Qed.

Lemma insert_desc_sorted x l :
  StronglySorted goes_before l → StronglySorted goes_before (insert_desc x l).
Proof.
  induction 1 as [|y l Hl IH Hy]; cbn; [repeat constructor|].
  case_bool_decide as Hlt.
  - constructor; [done|]. apply insert_desc_Forall; [unfold Registry.goes_before; lia | done].
  - constructor; [by constructor|]. constructor; [unfold Registry.goes_before; lia|].
    eapply Forall_impl; [exact Hy|]. unfold Registry.goes_before. intros; lia.
Qed.

Lemma sort_desc_sorted l : StronglySorted goes_before (sort_desc l).
Proof. induction l; cbn; [constructor|]. by apply insert_desc_sorted. Qed.

(** The sort is stable: among entries of one priority the order is kept. *)
Lemma insert_desc_stable (k : Z) x l :
  filter (λ v, key v = k) (insert_desc x l) = filter (λ v, key v = k) (x :: l).
Proof.
  induction l as [|y l IH]; cbn [Registry.insert_desc]; [done|].
  case_bool_decide as Hlt; [|done].
  rewrite filter_cons, IH, !filter_cons.
  repeat case_decide; try done; lia.
Qed.

Lemma sort_desc_stable (k : Z) l :
  filter (λ v, key v = k) (sort_desc l) = filter (λ v, key v = k) l.
Proof.
  induction l as [|x l IH]; [done|].
  cbn [Registry.sort_desc foldr]. rewrite insert_desc_stable, !filter_cons.
  fold (Registry.sort_desc defaultPriority l). by rewrite IH.
Qed.

End Sorting.


(** *** The registry at work *)

Lemma prop_set_prop_eq (name : string) (v : Value) (o : Properties) :
  prop name (set_prop name v o) = v.
Proof.
  unfold prop. induction o as [|[k x] o IH]; cbn.
  - by rewrite String.eqb_refl.
  - destruct (String.eqb k name) eqn:E; cbn; rewrite E; [done|exact IH].
Qed.

Lemma prop_set_prop_ne (name name' : string) (v : Value) (o : Properties) :
  name ≠ name' → prop name' (set_prop name v o) = prop name' o.
Proof.
  intros Hne. unfold prop. induction o as [|[k x] o IH]; cbn.
  - by rewrite (proj2 (String.eqb_neq _ _) Hne).
  - destruct (String.eqb k name) eqn:E; cbn.
    + apply String.eqb_eq in E as ->. by rewrite (proj2 (String.eqb_neq _ _) Hne).
    + destruct (String.eqb k name'); [done|exact IH].
Qed.

Lemma same_value_refl (v : Value) : same_value v v = true.
Proof.
  destruct v; cbn; try done.
  - by destruct b.
  - apply Z.eqb_refl.
  - apply String.eqb_refl.
  - apply Pos.eqb_refl.
  - apply Pos.eqb_refl.
Qed.

Lemma includes_cons (v x : Value) (l : list Value) :
  includes (x :: l) v = same_value v x || includes l v.
Proof. reflexivity. Qed.

Lemma includes_elem (v : Value) (l : list Value) : v ∈ l → includes l v = true.
Proof.
  induction 1 as [x l|x y l _ IH]; rewrite includes_cons.
  - by rewrite same_value_refl.
  - by rewrite IH, orb_true_r.
Qed.

Lemma includes_none (v : Value) (l : list Value) :
  Forall (λ x, same_value v x = false) l → includes l v = false.
Proof.
  induction 1 as [|x l Hx _ IH]; [done|]. by rewrite includes_cons, Hx, IH.
Qed.

(** The record of a submission that carries its metadata has the
    submission itself for [ref]. *)
Lemma normalizeExtension_ref (v : Value) (e : ExtensionFormat) :
  carries_metadata v = true → normalizeExtension v = Return e → prop "ref" e = v.
Proof.
  unfold normalizeExtension, carries_metadata.
  destruct v as [| | | | |id l|id c own proto]; try discriminate.
  all: cbn [typeof get].
  2: destruct c.
  all: rewrite ?bool_decide_eq_true_2 by done.
  all: rewrite ?(bool_decide_eq_false_2 ("object" = "function")) by done.
  all: rewrite ?bool_decide_eq_true_2 by done.
  all: cbn [mbind Outcome_bind mret Outcome_ret orb andb].
  all: destruct (truthy _) eqn:Ht; cbn [negb mbind Outcome_bind mret Outcome_ret];
    try discriminate.
  all: rewrite ?bool_decide_eq_true_2 by done.
  all: cbn [mbind Outcome_bind mret Outcome_ret].
  all: intros _.
  all: match goal with
       | |- (if ?b then mret ?x else mret ?y) = Return ?r → _ =>
           intros He; assert (r = if b then x else y) as ->
             by (destruct b; by injection He); clear He
       end.
  all: case_bool_decide; rewrite ?prop_set_prop_ne by done; apply prop_set_prop_eq.
Qed.

(** C4.  The priority of an entry of the list is the one
    [normalizeExtensionPriority] reads off the stored ref itself (its
    [extension] metadata, or its own [priority] if it is a plain object),
    [defaultPriority] when that gives none, and -1 when [handleByList] is
    given no [defaultPriority]; for a submission that carries its
    metadata this is the priority of its record, for a descriptor the
    priority written in the descriptor is not looked at.  Adding a record
    whose ref is an entry of the list already changes nothing.  Adding
    one whose ref is no entry, all priorities being numbers, leaves the
    old entries and the new ref sorted by descending priority, entries of
    equal priority in the order they had.  Classes of priority 5, -1 and
    10 added in that order end up as [10, 5, -1]; with one of no priority
    added after the -1, as [10, 5, -1, none]; under a [defaultPriority]
    of 7 the one of no priority goes ahead of the 5; a class added twice
    is there once, and two classes alike in everything but identity are
    both there, as they came. *)
Theorem handleByList_orders_by_ref_priority (array : positive) (defaultPriority : Z)
    (h : Arrays) (l : list Value) (ext : ExtensionFormat) :
  h !! array = Some l →
  (prop "ref" ext ∈ l →
     handleByList_onAdd array defaultPriority ext h = (Return tt, h))
  ∧ (Forall (λ x, same_value (prop "ref" ext) x = false) l →
     Forall (λ v, is_Some (priority_of defaultPriority v)) (l ++ [prop "ref" ext]) →
     ∃ l',
       handleByList_onAdd array defaultPriority ext h = (Return tt, <[array := l']> h) ∧
       l' ≡ₚ l ++ [prop "ref" ext] ∧
       StronglySorted (goes_before defaultPriority) l' ∧
       ∀ k, filter (λ v, key defaultPriority v = k) l'
            = filter (λ v, key defaultPriority v = k) (l ++ [prop "ref" ext]))
  ∧ (∀ v e,
       normalizeExtension v = Return e →
       (prop "priority" e = VUndefined →
          priority_of defaultPriority v = Some defaultPriority)
       ∧ (∀ n, prop "priority" e = VNumber n → priority_of defaultPriority v = Some n)
       ∧ (carries_metadata v = true → prop "ref" e = v))
  ∧ (∀ type dp,
       handleByList type array dp =
         handle type (handleByList_onAdd array (default (-1) dp))
                     (handleByList_onRemove array))
  ∧ target (ran (handleByList "x" 1 None ;;
                 add [plugin 21 "x" (Some 5)] ;;
                 add [plugin 22 "x" (Some (-1))] ;;
                 add [plugin 23 "x" (Some 10)]))
    = Some [plugin 23 "x" (Some 10); plugin 21 "x" (Some 5); plugin 22 "x" (Some (-1))]
  ∧ target (ran (handleByList "x" 1 None ;;
                 add [plugin 21 "x" (Some 5)] ;;
                 add [plugin 22 "x" (Some (-1))] ;;
                 add [plugin 24 "x" None] ;;
                 add [plugin 23 "x" (Some 10)]))
    = Some [plugin 23 "x" (Some 10); plugin 21 "x" (Some 5);
            plugin 22 "x" (Some (-1)); plugin 24 "x" None]
  ∧ target (ran (handleByList "x" 1 (Some 7) ;;
                 add [plugin 21 "x" (Some 5)] ;;
                 add [plugin 24 "x" None] ;;
                 add [plugin 23 "x" (Some 10)]))
    = Some [plugin 23 "x" (Some 10); plugin 24 "x" None; plugin 21 "x" (Some 5)]
  ∧ target (ran (handleByList "x" 1 None ;;
                 add [plugin 21 "x" (Some 5)] ;;
                 add [plugin 23 "x" (Some 10)] ;;
                 add [plugin 21 "x" (Some 5)]))
    = Some [plugin 23 "x" (Some 10); plugin 21 "x" (Some 5)]
  ∧ target (ran (handleByList "x" 1 None ;;
                 add [plugin 21 "x" (Some 5)] ;;
                 add [plugin 22 "x" (Some 5)]))
    = Some [plugin 21 "x" (Some 5); plugin 22 "x" (Some 5)].
Proof.
  intros Hl. repeat apply conj.
  - intros Hin. unfold handleByList_onAdd, read_array.
    unfold mbind, M_bind. by rewrite Hl, (includes_elem _ _ Hin).
  - intros Hin Hall. exists (sort_desc defaultPriority (l ++ [prop "ref" ext])).
    split; [|split; [|split]].
    + unfold handleByList_onAdd, read_array, write_array, lift, modify_state.
      unfold mbind, M_bind. rewrite Hl, (includes_none _ _ Hin).
      rewrite Array_sort_numbers by done. f_equal. apply insert_insert_eq.
    + apply sort_desc_Permutation.
    + apply sort_desc_sorted.
    + intros k. apply sort_desc_stable.
  - intros v e Hn. unfold priority_of, normalizeExtensionPriority.
    rewrite Hn. cbn. split; [|split].
    + by intros ->.
    + by intros n ->.
    + intros Hc. by apply normalizeExtension_ref.
  - reflexivity.
  - vm_compute. reflexivity.
  - vm_compute. reflexivity.
  - vm_compute. reflexivity.
  - vm_compute. reflexivity.
  - vm_compute. reflexivity.
Qed.

(** Three bare objects submitted by descriptors of priority 5, -1 and 10:
    the list keeps them as they came. *)
Lemma descriptor_priority_not_used :
  target (ran (handleByList "x" 1 None ;;
               add [descriptor 31 "x" (bare 21) 5] ;;
               add [descriptor 32 "x" (bare 22) (-1)] ;;
               add [descriptor 33 "x" (bare 23) 10]))
  = Some [bare 21; bare 22; bare 23]
  ∧ (λ v, match normalizeExtension v with
          | Return e => prop "priority" e
          | Throw _ => VUndefined
          end)
    <$> [descriptor 31 "x" (bare 21) 5; descriptor 32 "x" (bare 22) (-1);
         descriptor 33 "x" (bare 23) 10]
    = [VNumber 5; VNumber (-1); VNumber 10].
Proof. vm_compute. done. Qed.

(** Three classes of priority 1, 2 and 3 submitted by descriptors that
    give them the priorities 5, -1 and 10: the records carry 5, -1 and
    10, and the list is in the order of 3, 2 and 1. *)
Lemma handleByList_sorts_by_the_ref_not_the_record :
  target (ran (handleByList "x" 1 None ;;
               add [descriptor 31 "x" (plugin 21 "x" (Some 1)) 5] ;;
               add [descriptor 32 "x" (plugin 22 "x" (Some 2)) (-1)] ;;
               add [descriptor 33 "x" (plugin 23 "x" (Some 3)) 10]))
  = Some [plugin 23 "x" (Some 3); plugin 22 "x" (Some 2); plugin 21 "x" (Some 1)]
  ∧ prop "priority" <$>
      [normalized (descriptor 31 "x" (plugin 21 "x" (Some 1)) 5);
       normalized (descriptor 32 "x" (plugin 22 "x" (Some 2)) (-1));
       normalized (descriptor 33 "x" (plugin 23 "x" (Some 3)) 10)]
    = [VNumber 5; VNumber (-1); VNumber 10]
  ∧ prop "ref" <$>
      [normalized (descriptor 31 "x" (plugin 21 "x" (Some 1)) 5);
       normalized (descriptor 32 "x" (plugin 22 "x" (Some 2)) (-1));
       normalized (descriptor 33 "x" (plugin 23 "x" (Some 3)) 10)]
    = [plugin 21 "x" (Some 1); plugin 22 "x" (Some 2); plugin 23 "x" (Some 3)].
Proof. vm_compute. done. Qed.






Lemma add_rejects_class_without_extension_witness :
  add [NegationBlend Function_prototype] start =
    (Throw (Error "Extension class must have an extension object"), start) ∧
  add [ExclusionBlend Function_prototype] start =
    (Throw (Error "Extension class must have an extension object"), start).
Proof.
  apply (proj2 (add_rejects_class_without_extension start) Function_prototype).
  reflexivity.
Defined.

Lemma handleByList_orders_by_ref_priority_witness :
  let h : Arrays := {[1%positive := [plugin 21 "x" (Some 5); plugin 22 "x" None]]} in
  (∃ l',
    handleByList_onAdd 1 (-1) (normalized (plugin 23 "x" (Some 10))) h
      = (Return tt, <[1%positive := l']> h) ∧
    l' ≡ₚ [plugin 21 "x" (Some 5); plugin 22 "x" None] ++ [plugin 23 "x" (Some 10)] ∧
    StronglySorted (goes_before (-1)) l')
  ∧ handleByList_onAdd 1 (-1) (normalized (plugin 22 "x" None)) h = (Return tt, h).
Proof.
  intros h.
  destruct (handleByList_orders_by_ref_priority 1 (-1) h
              [plugin 21 "x" (Some 5); plugin 22 "x" None]
              (normalized (plugin 23 "x" (Some 10))))
    as (_ & Hnew & _); [reflexivity|].
  destruct (handleByList_orders_by_ref_priority 1 (-1) h
              [plugin 21 "x" (Some 5); plugin 22 "x" None]
              (normalized (plugin 22 "x" None)))
    as (Hold & _); [reflexivity|].
  split.
  - destruct Hnew as (l' & Hrun & Hperm & Hsorted & _).
    + repeat constructor.
    + repeat constructor; vm_compute; eauto.
    + exists l'. split; [exact Hrun|]. split; [exact Hperm | exact Hsorted].
  - apply Hold. vm_compute. apply list_elem_of_further, list_elem_of_here.
Defined.


(** *** Which submissions normalise, and to what *)

(** The last step of [normalizeExtension]. *)
Lemma type_wrapped (e : Properties) :
  typeof (prop "type"
    (if bool_decide (typeof (prop "type" e) = "string")
     then set_prop "type" (new_array [prop "type" e]) e else e)) ≠ "string".
Proof.
  case_bool_decide as Hs; [|done]. by rewrite prop_set_prop_eq.
Qed.

(** [normalizeExtension] turns down every primitive with "Invalid
    extension type", [null] with a TypeError (it reads [null.extension]),
    and a function whose [extension] is missing or falsy with "Extension
    class must have an extension object".  Everything else, an array, an
    object, a function with a truthy [extension] of any kind, it takes. *)
Theorem normalizeExtension_outcomes (v : Value) :
  match v with
  | VUndefined | VBoolean _ | VNumber _ | VString _ =>
      normalizeExtension v = Throw (Error "Invalid extension type")
  | VNull => normalizeExtension v = Throw TypeError
  | VObject _ true _ _ =>
      if truthy (lookup_chain "extension" v)
      then ∃ e, normalizeExtension v = Return e
      else normalizeExtension v = Throw (Error "Extension class must have an extension object")
  | VObject _ false _ _ | VArray _ _ => ∃ e, normalizeExtension v = Return e
  end.
Proof.
  destruct v as [| | | | |id l|id [] own proto]; try reflexivity.
  all: unfold normalizeExtension; cbn [typeof get].
  all: rewrite ?bool_decide_eq_true_2 by done.
  all: rewrite ?(bool_decide_eq_false_2 ("object" = "function")) by done.
  all: rewrite ?bool_decide_eq_true_2 by done.
  all: cbn [mbind Outcome_bind mret Outcome_ret].
  all: destruct (truthy _) eqn:Ht; cbn [negb mbind Outcome_bind mret Outcome_ret]; try done.
  all: rewrite ?bool_decide_eq_true_2 by done.
  all: cbn [mbind Outcome_bind mret Outcome_ret]; case_bool_decide; eauto.
Qed.

(** What [normalizeExtension] returns.  Its [type] is never a bare
    string.  For a submission that carries its metadata, [ref] is the
    submission itself, whatever the metadata says of a [ref].  For a
    descriptor, every property but [type] is the descriptor's own
    property of that name, and [undefined] where it has none of its own:
    what it inherits is left behind. *)
Theorem normalizeExtension_shape (v : Value) (e : ExtensionFormat) :
  normalizeExtension v = Return e →
  typeof (prop "type" e) ≠ "string"
  ∧ (carries_metadata v = true → prop "ref" e = v)
  ∧ (carries_metadata v = false →
     ∀ name, name ≠ "type" → prop name e = prop name (own_properties v)).
Proof.
  unfold normalizeExtension, carries_metadata.
  destruct v as [| | | | |id l|id c own proto]; try discriminate.
  all: cbn [typeof get].
  2: destruct c.
  all: rewrite ?bool_decide_eq_true_2 by done.
  all: rewrite ?(bool_decide_eq_false_2 ("object" = "function")) by done.
  all: rewrite ?bool_decide_eq_true_2 by done.
  all: cbn [mbind Outcome_bind mret Outcome_ret orb andb].
  all: destruct (truthy _) eqn:Ht; cbn [negb mbind Outcome_bind mret Outcome_ret];
    try discriminate.
  all: rewrite ?bool_decide_eq_true_2 by done.
  all: cbn [mbind Outcome_bind mret Outcome_ret].
  all: match goal with
       | |- (if ?b then mret ?x else mret ?y) = Return ?r → _ =>
           intros He; assert (r = if b then x else y) as ->
             by (destruct b; by injection He); clear He
       end.
  all: (split; [apply type_wrapped|]); split; try discriminate; intros _.
  all: try (intros name Hname); case_bool_decide;
    rewrite ?prop_set_prop_ne by done; try apply prop_set_prop_eq; done.
Qed.

Lemma Outcome_bind_inv {A B} (m : Outcome A) (f : A → Outcome B) (b : B) :
  (a ← m; f a) = Return b → ∃ a, m = Return a ∧ f a = Return b.
Proof. destruct m as [a|]; [|discriminate]. intros H. by exists a. Qed.

Lemma normalizeExtension_type (v : Value) (e : ExtensionFormat) :
  normalizeExtension v = Return e → typeof (prop "type" e) ≠ "string".
Proof.
  unfold normalizeExtension. intros H.
  apply Outcome_bind_inv in H as (submitted & _ & H).
  apply Outcome_bind_inv in H as (ext & _ & H).
  apply Outcome_bind_inv in H as (ext' & _ & H).
  revert H. case_bool_decide as Hs; intros [= <-]; [by rewrite prop_set_prop_eq | done].
Qed.

(** A record that [normalizeExtension] has returned, handed in again as
    a plain object with no truthy [extension], comes back as it is. *)
Theorem normalizeExtension_again (v : Value) (e : ExtensionFormat) (id : positive)
    (proto : Value) :
  normalizeExtension v = Return e →
  truthy (lookup_chain "extension" (VObject id false e proto)) = false →
  normalizeExtension (VObject id false e proto) = Return e.
Proof.
  intros Hn Hx. apply normalizeExtension_type in Hn.
  unfold normalizeExtension. cbn [typeof get].
  rewrite !(bool_decide_eq_false_2 ("object" = "function")) by done.
  rewrite bool_decide_eq_true_2 by done.
  cbn [mbind Outcome_bind mret Outcome_ret]. rewrite Hx.
  cbn [mbind Outcome_bind mret Outcome_ret].
  rewrite bool_decide_eq_true_2 by done.
  cbn [mbind Outcome_bind mret Outcome_ret own_properties].
  by rewrite bool_decide_eq_false_2.
Qed.

(** *** [add] and [remove] around [handle] *)

Section Dispatch.
Context {Env : Type}.
Implicit Types (r : Extensions Env) (e : Env) (p : Page Env).
Implicit Types (onAdd onRemove : ExtensionHandler Env).

Lemma add_one (A : Value) (a : ExtensionFormat) p :
  normalizeExtension A = Return a →
  add [A] p = (type_forEach a (add_under a) ;; mret tt) p.
Proof.
  intros Hn. unfold add, lift. cbn [map_normalizeExtension]. rewrite Hn.
  reflexivity.
Qed.

Lemma remove_one (A : Value) (a : ExtensionFormat) p :
  normalizeExtension A = Return a →
  remove [A] p =
    (type_forEach a (λ type,
       p ← get_state;
       match read (_removeHandlers p.1) type with
       | Own handler => call handler a
       | Inherited name => call_inherited name
       | Missing => mret tt
       end) ;; mret tt) p.
Proof.
  intros Hn. unfold remove, lift. cbn [map_normalizeExtension]. rewrite Hn.
  reflexivity.
Qed.

Lemma bind_unit (m : M (Page Env) unit) p : (m ;; mret tt) p = m p.
Proof. unfold mbind, M_bind. by destruct (m p) as [[[]|] ?]. Qed.

Lemma add_under_dispatch (a : ExtensionFormat) (k : string) r e :
  is_Some (_addHandlers r !! k) →
  add_under a k (r, e) = let '(out, e') := dispatch r a k e in (out, (r, e')).
Proof.
  intros [h Hh]. unfold add_under, dispatch, mbind, M_bind, get_state.
  cbn [fst snd]. rewrite (read_Own _ _ h) by done.
  unfold ExtensionHandler in *. rewrite Hh. reflexivity.
Qed.

Lemma forEach_dispatch (a : ExtensionFormat) (keys : list string) r e :
  Forall (λ k, is_Some (_addHandlers r !! k)) keys →
  forEach keys (add_under a) (r, e) =
    let '(out, e') := forEach keys (dispatch r a) e in (out, (r, e')).
Proof.
  intros Hk. revert e. induction Hk as [|k keys Hh Hk IH]; intros e; [done|].
  cbn [forEach]. unfold mbind, M_bind. rewrite add_under_dispatch by done.
  destruct (dispatch r a k e) as [[[]|err] e1]; [|done]. apply IH.
Qed.

Lemma add_handled (X : string) (A : Value) (a : ExtensionFormat) (i : positive)
    (handler : ExtensionHandler Env) r e :
  _addHandlers r !! X = Some handler →
  normalizeExtension A = Return a →
  prop "type" a = VArray i [VString X] →
  add [A] (r, e) = let '(out, e') := handler a e in (out, (r, e')).
Proof.
  intros Hh Hn Ht. rewrite (add_one A a) by done. rewrite bind_unit.
  unfold type_forEach. rewrite Ht. cbn [map to_key forEach]. rewrite bind_unit.
  rewrite add_under_dispatch by eauto.
  unfold dispatch. unfold ExtensionHandler in *. by rewrite Hh.
Qed.

(** Once every point a record names has its handler, [add] calls these
    handlers on the record, in the order of its types and up to the
    first that throws; nothing is queued and the registry stays as it
    is. *)
Theorem add_calls_the_handlers (A : Value) (a : ExtensionFormat) (i : positive)
    (types : list Value) r e :
  normalizeExtension A = Return a →
  prop "type" a = VArray i types →
  Forall (λ t, is_Some (_addHandlers r !! to_key t)) types →
  add [A] (r, e) =
    let '(out, e') := forEach (map to_key types) (dispatch r a) e in (out, (r, e')).
Proof.
  intros Hn Ht Hh. rewrite (add_one A a) by done. rewrite bind_unit.
  unfold type_forEach. rewrite Ht. apply forEach_dispatch.
  by apply Forall_fmap.
Qed.

Lemma add_queues (X : string) (A : Value) (a : ExtensionFormat) (i : positive) r e :
  X ∉ Object_prototype_members →
  _addHandlers r !! X = None →
  normalizeExtension A = Return a →
  prop "type" a = VArray i [VString X] →
  add [A] (r, e) = (Return tt, (queued X a r, e)).
Proof.
  intros Hin Ha Hn Ht. rewrite (add_one A a) by done. rewrite bind_unit.
  unfold type_forEach. rewrite Ht. cbn [map to_key forEach].
  rewrite bind_unit. unfold add_under, mbind, M_bind, get_state. cbn [fst snd].
  by rewrite read_Missing.
Qed.

Lemma remove_unhandled (X : string) (A : Value) (a : ExtensionFormat) (i : positive) p :
  X ∉ Object_prototype_members →
  _removeHandlers p.1 !! X = None →
  normalizeExtension A = Return a →
  prop "type" a = VArray i [VString X] →
  remove [A] p = (Return tt, p).
Proof.
  intros Hin Hr Hn Ht. rewrite (remove_one A a) by done. rewrite bind_unit.
  unfold type_forEach. rewrite Ht. cbn [map to_key forEach].
  rewrite bind_unit. unfold mbind, M_bind, get_state. by rewrite read_Missing.
Qed.

(** A record submitted for a point that has no handler yet, and whose
    name is not that of a member of [Object.prototype], is not withdrawn
    by [remove]: [remove] does nothing, the record stays in the queue,
    and the handler that claims the point later is called on it. *)
Theorem remove_leaves_the_queue (X : string) (A : Value) (a : ExtensionFormat)
    (i : positive) onAdd onRemove r e :
  X ∉ Object_prototype_members →
  _addHandlers r !! X = None →
  _removeHandlers r !! X = None →
  normalizeExtension A = Return a →
  prop "type" a = VArray i [VString X] →
  (add [A] ;; remove [A]) (r, e) = (Return tt, (queued X a r, e))
  ∧ pending (queued X a r) X = pending r X ++ [a]
  ∧ (add [A] ;; remove [A] ;; handle X onAdd onRemove) (r, e) =
      (add [A] ;; handle X onAdd onRemove) (r, e).
Proof.
  intros Hin Ha Hr Hn Ht.
  assert (∀ B (k : M (Page Env) B),
    (add [A] ;; remove [A] ;; k) (r, e) = (add [A] ;; k) (r, e)) as Hk.
  { intros B k. unfold mbind, M_bind.
    rewrite (add_queues X A a i) by done.
    by rewrite (remove_unhandled X A a i). }
  split; [|split].
  - unfold mbind, M_bind. rewrite (add_queues X A a i) by done.
    by rewrite (remove_unhandled X A a i).
  - unfold pending, queued. cbn. by rewrite lookup_insert_eq.
  - apply Hk.
Qed.

(** A record for one point, whose name is not that of a member of
    [Object.prototype], comes to its handler whether it is submitted
    before the point is claimed or after: the handler is called on it
    once, on the same state, and when the call returns the registry is
    the same either way.  When the call throws, the record submitted
    first is left in the queue of the claimed point. *)
Theorem add_before_or_after_handle (X : string) (A : Value) (a : ExtensionFormat)
    (i : positive) onAdd onRemove r e out e' :
  X ∉ Object_prototype_members →
  _addHandlers r !! X = None →
  _removeHandlers r !! X = None →
  _queue r !! X = None →
  normalizeExtension A = Return a →
  prop "type" a = VArray i [VString X] →
  onAdd a e = (out, e') →
  (handle X onAdd onRemove ;; add [A]) (r, e) = (out, (claimed X onAdd onRemove r, e'))
  ∧ (add [A] ;; handle X onAdd onRemove) (r, e) =
      (out,
       (match out with
        | Return _ => claimed X onAdd onRemove r
        | Throw _ => claimed X onAdd onRemove (queued X a r)
        end, e')).
Proof.
  intros Hin Ha Hr Hq Hn Ht Hcall. split.
  - unfold mbind at 1, M_bind. rewrite handle_free by done.
    unfold pending. rewrite Hq. cbn [default from_option id forEach mret M_ret].
    rewrite delete_id by done.
    assert (set__queue (_queue r) (claimed X onAdd onRemove r) = claimed X onAdd onRemove r)
      as -> by done.
    rewrite (add_handled X A a i onAdd); [|by apply lookup_insert_eq|done|done].
    by rewrite Hcall.
  - unfold mbind at 1, M_bind. rewrite (add_queues X A a i) by done.
    rewrite handle_free by done.
    unfold pending at 1, queued at 1. cbn [_queue set__queue].
    rewrite lookup_insert_eq. unfold pending. rewrite Hq.
    cbn [default from_option id forEach app]. unfold mbind, M_bind. rewrite Hcall.
    destruct out as [[]|err]; [|done].
    cbn [mret M_ret]. f_equal. f_equal.
    unfold set__queue, claimed, queued. cbn. f_equal.
    unfold pending. rewrite Hq. by rewrite delete_insert_id.
Qed.

(** A descriptor whose [type] after normalisation has no [forEach] to
    call (it has no [type], say, or a number for one) passes
    [normalizeExtension] and stops [add] with a TypeError only when its
    turn comes: the submissions ahead of it in the same call have been
    queued or handed to their handlers by then, and stay so. *)
Theorem add_stops_at_a_record_without_types (A D : Value) (a d : ExtensionFormat) p :
  normalizeExtension A = Return a →
  normalizeExtension D = Return d →
  has_forEach (prop "type" d) = false →
  add [D] p = (Throw TypeError, p)
  ∧ add [A; D] p = (add [A] ;; throw TypeError) p.
Proof.
  intros HA HD Ht.
  assert (∀ q : Page Env, add [D] q = (Throw TypeError, q)) as Hd.
  { intros q. rewrite (add_one D d) by done. unfold type_forEach.
    by destruct (prop "type" d). }
  split; [apply Hd|].
  rewrite (add_two A D a d) by done. unfold mbind, M_bind.
  destruct (add [A] p) as [[[]|err] p1]; [apply Hd | done].
Qed.

End Dispatch.

(** *** What [add], [remove] and [handle] leave alone *)

Lemma forEach_rel {S A} (R : S → S → Prop) (l : list A) (f : A → M S unit) :
  Reflexive R → Transitive R →
  (∀ a s out s', f a s = (out, s') → R s s') →
  ∀ s out s', forEach l f s = (out, s') → R s s'.
Proof.
  intros Hrefl Htrans Hf. induction l as [|a l IH]; intros s out s'.
  - intros [= _ <-]. apply Hrefl.
  - cbn [forEach]. unfold mbind, M_bind.
    destruct (f a s) as [[[]|err] s1] eqn:E.
    + intros E'. eapply Htrans; [by eapply Hf | by eapply IH].
    + intros [= _ <-]. by eapply Hf.
Qed.

Section Frame.
Context {Env : Type}.
Implicit Types (r : Extensions Env) (e : Env) (p : Page Env).
Implicit Types (onAdd onRemove : ExtensionHandler Env).

Lemma type_forEach_rel (R : Page Env → Page Env → Prop) (ext : ExtensionFormat)
    (f : string → M (Page Env) unit) :
  Reflexive R → Transitive R →
  (∀ k p out p', f k p = (out, p') → R p p') →
  ∀ p out p', type_forEach ext f p = (out, p') → R p p'.
Proof.
  intros Hrefl Htrans Hf p out p'. unfold type_forEach.
  destruct (prop "type" ext); try (intros [= _ <-]; apply Hrefl).
  by apply forEach_rel.
Qed.

(** [remove] never changes the registry: whatever it is given and
    however it ends, the handlers and the queues are as they were.  All
    it does is done by the handlers of removal it calls. *)
Theorem remove_never_touches_the_registry (l : list Value) p (out : Outcome unit) p' :
  remove l p = (out, p') → p'.1 = p.1.
Proof.
  unfold remove, lift. unfold mbind at 1, M_bind.
  destruct (map_normalizeExtension l) as [exts|err]; [|by intros [= _ <-]].
  apply (forEach_rel (λ p p', p'.1 = p.1)); [done | by intros ??? -> | ].
  intros ext. apply (type_forEach_rel (λ p p', p'.1 = p.1)); [done | by intros ??? -> | ].
  intros k q o q'. unfold mbind, M_bind, get_state.
  destruct (read (_removeHandlers q.1) k) as [h|name|]; [| |by intros [= _ <-]].
  - unfold call. destruct (h ext q.2). by intros [= _ <-].
  - intros E. by apply call_inherited_state in E as ->.
Qed.

(** [add] never changes a handler and never takes a record out of a
    queue or moves one: at the end, however it ends, every queue begins
    with the records it held, in their order, and the queue of a point
    that has its handler is as it was. *)
Theorem add_only_appends_to_queues (l : list Value) p (out : Outcome unit) p' :
  add l p = (out, p') →
  _addHandlers p'.1 = _addHandlers p.1
  ∧ _removeHandlers p'.1 = _removeHandlers p.1
  ∧ ∀ X, pending p.1 X `prefix_of` pending p'.1 X
         ∧ (is_Some (_addHandlers p.1 !! X) → pending p'.1 X = pending p.1 X).
Proof.
  set (R := λ p p' : Page Env,
    _addHandlers p'.1 = _addHandlers p.1
    ∧ _removeHandlers p'.1 = _removeHandlers p.1
    ∧ ∀ X, pending p.1 X `prefix_of` pending p'.1 X
           ∧ (is_Some (_addHandlers p.1 !! X) → pending p'.1 X = pending p.1 X)).
  assert (Reflexive R) as Hrefl by (intros q; repeat split; done).
  assert (Transitive R) as Htrans.
  { intros q1 q2 q3 (Ha & Hr & Hq) (Ha' & Hr' & Hq').
    split; [congruence|]. split; [congruence|]. intros X.
    destruct (Hq X) as [Hpre Hsame]. destruct (Hq' X) as [Hpre' Hsame'].
    split; [by etrans|]. intros HX. rewrite Hsame', Hsame; [done|done|].
    by rewrite Ha. }
  change (add l p = (out, p') → R p p').
  unfold add, lift. unfold mbind at 1, M_bind.
  destruct (map_normalizeExtension l) as [exts|err]; [|intros [= _ <-]; apply Hrefl].
  apply (forEach_rel R); [done..|].
  intros ext. apply (type_forEach_rel R); [done..|].
  intros k [r e] o q'. unfold add_under, mbind, M_bind, get_state. cbn [fst snd].
  unfold read. destruct (_addHandlers r !! k) as [h|] eqn:Hk.
  - unfold call. cbn [fst snd]. destruct (h ext e). intros [= _ <-].
    unfold R. cbn. by repeat split.
  - case_bool_decide.
    { intros E. apply call_inherited_state in E as ->. apply Hrefl. }
    unfold modify_state. intros [= _ <-]. unfold R. cbn.
    split; [done|]. split; [done|]. intros X. unfold pending. cbn.
    destruct (decide (k = X)) as [->|Hne].
    + rewrite lookup_insert_eq. cbn. split; [by apply prefix_app_r|].
      rewrite Hk. by intros [? [=]].
    + by rewrite lookup_insert_ne.
Qed.

(** [handle] for one point leaves every other point alone: its
    handlers and its queue are as they were, however the call ends. *)
Theorem handle_touches_only_its_point (X Y : string) onAdd onRemove p
    (out : Outcome unit) p' :
  handle X onAdd onRemove p = (out, p') →
  Y ≠ X →
  _addHandlers p'.1 !! Y = _addHandlers p.1 !! Y
  ∧ _removeHandlers p'.1 !! Y = _removeHandlers p.1 !! Y
  ∧ pending p'.1 Y = pending p.1 Y.
Proof.
  destruct p as [r e]. intros E HY.
  destruct (_addHandlers r !! X) as [h|] eqn:Ha.
  { rewrite handle_taken in E by (left; cbn; rewrite Ha; eauto). by injection E as _ <-. }
  destruct (_removeHandlers r !! X) as [h|] eqn:Hr.
  { rewrite handle_taken in E by (right; left; cbn; rewrite Hr; eauto).
    by injection E as _ <-. }
  destruct (decide (X ∈ Object_prototype_members)) as [Hin|Hin].
  { rewrite handle_taken in E by (right; right; done). by injection E as _ <-. }
  rewrite handle_free in E by done.
  destruct (forEach (pending r X) onAdd e) as [o e'].
  injection E as _ <-. cbn [fst]. unfold pending.
  destruct o; cbn; rewrite ?lookup_insert_ne, ?lookup_delete_ne by done; done.
Qed.

End Frame.

(** *** Taking entries out of a list *)

Lemma without_cons (v x : Value) (l : list Value) :
  without v (x :: l) = if same_value v x then l else x :: without v l.
Proof.
  unfold without. cbn [indexOf]. destruct (same_value v x); [done|].
  by destruct (indexOf l v).
Qed.

Section Removal.
Variable defaultPriority : Z.

Local Abbreviation key := (Registry.key defaultPriority).
Local Abbreviation goes_before := (Registry.goes_before defaultPriority).
Local Abbreviation insert_desc := (Registry.insert_desc defaultPriority).
Local Abbreviation sort_desc := (Registry.sort_desc defaultPriority).

Lemma insert_desc_head y l :
  StronglySorted goes_before l → Forall (goes_before y) l → insert_desc y l = y :: l.
Proof.
  intros _ Hy. destruct Hy as [|z l Hz _]; [done|].
  cbn. rewrite bool_decide_eq_false_2; [done|]. unfold Registry.goes_before in Hz. lia.
Qed.

Lemma sort_desc_sorted_id l : StronglySorted goes_before l → sort_desc l = l.
Proof.
  induction 1 as [|y l Hl IH Hy]; [done|].
  cbn [Registry.sort_desc foldr]. fold (sort_desc l). rewrite IH.
  by apply insert_desc_head.
Qed.

Lemma without_insert_desc x y s :
  StronglySorted goes_before s →
  same_value x y = false →
  without x (insert_desc y s) = insert_desc y (without x s).
Proof.
  intros Hs Hxy. induction Hs as [|z s Hs IH Hz].
  - cbn. by rewrite without_cons, Hxy.
  - cbn [Registry.insert_desc]. case_bool_decide as Hlt.
    + rewrite !without_cons. destruct (same_value x z); [done|].
      rewrite IH. cbn [Registry.insert_desc]. by rewrite bool_decide_eq_true_2.
    + rewrite !without_cons, Hxy. destruct (same_value x z).
      * symmetry. apply insert_desc_head; [done|].
        eapply Forall_impl; [exact Hz|]. unfold Registry.goes_before. intros; lia.
      * cbn [Registry.insert_desc]. by rewrite bool_decide_eq_false_2.
Qed.

Lemma foldr_insert_desc_sorted x l :
  StronglySorted goes_before (foldr insert_desc [x] l).
Proof.
  induction l; cbn; [repeat constructor|]. by apply insert_desc_sorted.
Qed.

Lemma without_sorted_snoc x l :
  includes l x = false →
  without x (sort_desc (l ++ [x])) = sort_desc l.
Proof.
  unfold Registry.sort_desc. rewrite foldr_app. cbn [foldr Registry.insert_desc].
  induction l as [|y l IH]; intros Hin.
  - cbn. by rewrite without_cons, same_value_refl.
  - rewrite includes_cons in Hin. apply orb_false_elim in Hin as [Hxy Hin].
    cbn [foldr]. rewrite without_insert_desc by (done || apply foldr_insert_desc_sorted).
    by rewrite IH.
Qed.

(** The handler of removal undoes the handler of addition.  On a list
    whose priorities are all numbers, adding a ref that was not there
    and removing it again leaves the old entries, sorted by descending
    priority with equal ones in the order they had; a list that was in
    that order comes back as it was. *)
Theorem handleByList_remove_undoes_add (array : positive) (h : Arrays) (l : list Value)
    (ext : ExtensionFormat) :
  h !! array = Some l →
  includes l (prop "ref" ext) = false →
  Forall (λ v, is_Some (priority_of defaultPriority v)) (l ++ [prop "ref" ext]) →
  (handleByList_onAdd array defaultPriority ext ;; handleByList_onRemove array ext) h
    = (Return tt, <[array := sort_desc l]> h)
  ∧ (StronglySorted goes_before l →
     (handleByList_onAdd array defaultPriority ext ;; handleByList_onRemove array ext) h
       = (Return tt, h)).
Proof.
  intros Hl Hin Hall.
  assert ((handleByList_onAdd array defaultPriority ext ;; handleByList_onRemove array ext) h
            = (Return tt, <[array := sort_desc l]> h)) as Hrun.
  { unfold handleByList_onAdd, handleByList_onRemove, read_array, write_array, lift,
      modify_state.
    unfold mbind, M_bind. rewrite Hl, Hin.
    rewrite Array_sort_numbers by done.
    unfold Arrays in *. rewrite insert_insert_eq, lookup_insert_eq.
    pose proof (without_sorted_snoc (prop "ref" ext) l Hin) as Hw.
    unfold without in Hw.
    destruct (indexOf (sort_desc (l ++ [prop "ref" ext])) (prop "ref" ext)) as [i|];
      rewrite Hw; [by rewrite insert_insert_eq | done]. }
  split; [exact Hrun|].
  intros Hs. rewrite Hrun, sort_desc_sorted_id by done. f_equal. by apply insert_id.
Qed.

(** A ref that does not normalise is taken into an empty list without a
    word, since nothing is compared.  Into a list that has entries it is
    pushed as well, but then the sort throws what [normalizeExtension]
    throws for it: the handler fails, and the list is left with the ref
    at its end, unsorted. *)
Theorem handleByList_keeps_a_ref_it_cannot_sort (array : positive) (h : Arrays)
    (l : list Value) (ext : ExtensionFormat) (err : Exn) :
  h !! array = Some l →
  includes l (prop "ref" ext) = false →
  Forall (λ v, is_Some (priority_of defaultPriority v)) l →
  is_undefined (prop "ref" ext) = false →
  normalizeExtension (prop "ref" ext) = Throw err →
  handleByList_onAdd array defaultPriority ext h =
    match l with
    | [] => (Return tt, <[array := [prop "ref" ext]]> h)
    | _ => (Throw err, <[array := l ++ [prop "ref" ext]]> h)
    end.
Proof.
  intros Hl Hin Hall Hdef Herr.
  unfold handleByList_onAdd, read_array, write_array, lift, modify_state.
  unfold mbind, M_bind. rewrite Hl, Hin. unfold Array_sort.
  assert (filter (λ v, is_undefined v = false) (l ++ [prop "ref" ext])
            = l ++ [prop "ref" ext]) as ->.
  { rewrite filter_app, filter_cons_True, filter_nil by done. f_equal.
    clear Hl Hin. induction Hall as [|x l Hx Hall IH]; [done|].
    rewrite filter_cons_True by by apply (resolved_defined defaultPriority).
    by rewrite IH. }
  destruct l as [|x l].
  - cbn [app sort_defined insert_sorted mbind Outcome_bind mret Outcome_ret].
    rewrite filter_cons_False, filter_nil by by rewrite Hdef.
    cbn. f_equal. apply insert_insert_eq.
  - assert (sort_defined (by_priority defaultPriority) ((x :: l) ++ [prop "ref" ext])
              = Throw err) as ->; [|done].
    clear Hl Hin Hall. revert x. induction l as [|y l IH]; intros x.
    + cbn [app sort_defined insert_sorted mbind Outcome_bind mret Outcome_ret].
      unfold by_priority, normalizeExtensionPriority. rewrite Herr. reflexivity.
    + change (sort_defined (by_priority defaultPriority) ((x :: y :: l) ++ [prop "ref" ext]))
        with (s ← sort_defined (by_priority defaultPriority) ((y :: l) ++ [prop "ref" ext]);
              insert_sorted (by_priority defaultPriority) x s).
      by rewrite IH.
Qed.

End Removal.

(** *** [handleByMap] *)

Section ByMap.
Implicit Types (r : Extensions Maps) (h : Maps) (m : gmap string Value).



End ByMap.

(** *** The sort under any comparison by a key *)

Section SortBy.
Variable comparefn : Value → Value → Outcome (option Z).
Variable k : Value → Z.
Variable P : Value → Prop.
Hypothesis comparefn_P : ∀ a b, P a → P b → comparefn a b = Return (Some (k b - k a)).
Hypothesis P_defined : ∀ v, P v → is_undefined v = false.

Local Abbreviation before := (λ a b : Value, k b ≤ k a).

Lemma insert_by_Forall (Q : Value → Prop) x l :
  Q x → Forall Q l → Forall Q (insert_by k x l).
Proof.
  intros Hx. induction 1 as [|y l Hy Hl IH]; cbn; [by constructor|].
  case_bool_decide; repeat constructor; auto.
Qed.

Lemma sort_by_Forall (Q : Value → Prop) l : Forall Q l → Forall Q (sort_by k l).
Proof. induction 1; cbn; [constructor|]. by apply insert_by_Forall. Qed.

Lemma insert_sorted_by x l :
  P x → Forall P l → insert_sorted comparefn x l = Return (insert_by k x l).
Proof.
  intros Hx. induction 1 as [|y l Hy Hl IH]; [done|].
  cbn [insert_sorted insert_by]. rewrite comparefn_P by done.
  cbn [mbind Outcome_bind is_positive].
  destruct (decide (k x < k y)) as [Hlt|Hge].
  - rewrite !bool_decide_eq_true_2 by lia. by rewrite IH.
  - by rewrite !bool_decide_eq_false_2 by lia.
Qed.

Lemma sort_defined_by l :
  Forall P l → sort_defined comparefn l = Return (sort_by k l).
Proof.
  induction 1 as [|x l Hx Hl IH]; [done|].
  cbn [sort_defined]. rewrite IH. cbn [mbind Outcome_bind].
  apply insert_sorted_by; [done|]. by apply sort_by_Forall.
Qed.

Lemma Array_sort_by l :
  Forall P l → Array_sort comparefn l = Return (sort_by k l).
Proof.
  intros Hl. unfold Array_sort.
  assert (filter (λ v, is_undefined v = false) l = l) as ->.
  { induction Hl as [|x l Hx Hl IH]; [done|].
    rewrite filter_cons_True by by apply P_defined. by rewrite IH. }
  assert (filter (λ v, is_undefined v = true) l = []) as ->.
  { induction Hl as [|x l Hx Hl IH]; [done|].
    rewrite filter_cons_False; [done|]. by rewrite P_defined. }
  rewrite sort_defined_by by done. cbn. by rewrite app_nil_r.
Qed.

Lemma insert_by_Permutation x l : insert_by k x l ≡ₚ x :: l.
Proof.
  induction l as [|y l IH]; cbn; [done|].
  case_bool_decide; [|done]. rewrite IH. apply Permutation_swap.
Qed.

Lemma sort_by_Permutation l : sort_by k l ≡ₚ l.
Proof.
  induction l as [|x l IH]; cbn; [done|].
  by rewrite insert_by_Permutation, IH.
Qed.

Lemma insert_by_sorted x l :
  StronglySorted before l → StronglySorted before (insert_by k x l).
Proof.
  induction 1 as [|y l Hl IH Hy]; cbn; [repeat constructor|].
  case_bool_decide as Hlt.
  - constructor; [done|]. apply insert_by_Forall; [lia | done].
  - constructor; [by constructor|]. constructor; [lia|].
    eapply Forall_impl; [exact Hy|]. cbn. intros; lia.
Qed.

Lemma sort_by_sorted l : StronglySorted before (sort_by k l).
Proof. induction l; cbn; [constructor|]. by apply insert_by_sorted. Qed.

Lemma insert_by_stable (n : Z) x l :
  filter (λ v, k v = n) (insert_by k x l) = filter (λ v, k v = n) (x :: l).
Proof.
  induction l as [|y l IH]; cbn [insert_by]; [done|].
  case_bool_decide as Hlt; [|done].
  rewrite filter_cons, IH, !filter_cons.
  repeat case_decide; try done; lia.
Qed.

Lemma sort_by_stable (n : Z) l :
  filter (λ v, k v = n) (sort_by k l) = filter (λ v, k v = n) l.
Proof.
  induction l as [|x l IH]; [done|].
  cbn [sort_by foldr]. rewrite insert_by_stable, !filter_cons.
  fold (sort_by k l). by rewrite IH.
Qed.

End SortBy.

(** *** [handleByNamedList] *)

Section ByName.
Variable defaultPriority : Z.

(** The priority of an entry is the one of the value it holds. *)
Local Abbreviation rank := (λ item : Value, key defaultPriority (value_of item)).
Local Abbreviation ranked :=
  (λ item : Value, is_object item ∧ is_Some (priority_of defaultPriority (value_of item))).

Lemma by_value_priority_ranked (a b : Value) :
  ranked a → ranked b →
  by_value_priority defaultPriority a b = Return (Some (rank b - rank a)).
Proof.
  intros [Ha [pa Hpa]] [Hb [pb Hpb]]. unfold by_value_priority, value_of in *.
  destruct a; try done. destruct b; try done. cbn [get mbind Outcome_bind].
  unfold key. rewrite Hpa, Hpb. unfold priority_of in Hpa, Hpb.
  destruct (normalizeExtensionPriority (lookup_chain "value" (VObject id0 _ _ _)) _)
    as [[]|]; try discriminate.
  destruct (normalizeExtensionPriority (lookup_chain "value" (VObject id _ _ _)) _)
    as [[]|]; try discriminate.
  by simplify_eq.
Qed.

Lemma ranked_defined (v : Value) : ranked v → is_undefined v = false.
Proof. intros [Hv _]. by destruct v. Qed.

Lemma findIndex_name_absent (l : list Value) (name : Value) :
  Forall is_object l →
  Forall (λ item, same_value (name_of item) name = false) l →
  findIndex_name l name = Return None.
Proof.
  intros Ho Hn. induction Ho as [|x l Hx Ho IH]; [done|].
  apply Forall_cons in Hn as [Hxn Hn]. cbn [findIndex_name].
  destruct x; try done. cbn [get mbind Outcome_bind].
  unfold name_of in Hxn. rewrite Hxn, IH by done. reflexivity.
Qed.

Lemma findIndex_name_first (l1 l2 : list Value) (item name : Value) :
  Forall is_object l1 →
  Forall (λ item, same_value (name_of item) name = false) l1 →
  is_object item →
  same_value (name_of item) name = true →
  findIndex_name (l1 ++ item :: l2) name = Return (Some (length l1)).
Proof.
  intros Ho Hn Hi Hin. induction Ho as [|x l Hx Ho IH].
  - cbn [app findIndex_name]. destruct item; try done. cbn [get mbind Outcome_bind].
    unfold name_of in Hin. by rewrite Hin.
  - apply Forall_cons in Hn as [Hxn Hn]. cbn [app findIndex_name].
    destruct x; try done. cbn [get mbind Outcome_bind].
    unfold name_of in Hxn. rewrite Hxn, IH by done. reflexivity.
Qed.

(** In a named list the first record under a name wins, and removal
    goes by the name alone.  A record whose name an entry has already is
    dropped, whatever its ref and priority.  A record of a new name is
    entered as [{ name, value: ref }], and the entries, when the
    priorities of their values are all numbers, are left in descending
    order of these, equal ones in the order they had.  Removing takes
    out the first entry of the record's name without looking at the
    value it holds. *)
Theorem handleByNamedList_first_name_wins (map : positive) (h : Arrays) (l : list Value)
    (ext : ExtensionFormat) :
  h !! map = Some l →
  Forall is_object l →
  (∀ l1 item l2,
     l = l1 ++ item :: l2 →
     Forall (λ item, same_value (name_of item) (prop "name" ext) = false) l1 →
     same_value (name_of item) (prop "name" ext) = true →
     handleByNamedList_onAdd map defaultPriority ext h = (Return tt, h)
     ∧ handleByNamedList_onRemove map ext h = (Return tt, <[map := l1 ++ l2]> h))
  ∧ (Forall (λ item, same_value (name_of item) (prop "name" ext) = false) l →
     handleByNamedList_onRemove map ext h = (Return tt, h)
     ∧ let item := new_item (prop "name" ext) (prop "ref" ext) in
       (Forall (λ item, is_Some (priority_of defaultPriority (value_of item))) (l ++ [item]) →
        ∃ l',
          handleByNamedList_onAdd map defaultPriority ext h = (Return tt, <[map := l']> h) ∧
          l' ≡ₚ l ++ [item] ∧
          StronglySorted (λ a b, rank b ≤ rank a) l' ∧
          ∀ n, filter (λ v, rank v = n) l' = filter (λ v, rank v = n) (l ++ [item]))).
Proof.
  intros Hl Ho. split.
  - intros l1 item l2 -> Hn Hin.
    apply Forall_app in Ho as [Ho1 Ho2]. apply Forall_cons in Ho2 as [Hi Ho2].
    unfold handleByNamedList_onAdd, handleByNamedList_onRemove, read_array, write_array,
      lift, modify_state.
    unfold mbind, M_bind. rewrite Hl.
    rewrite (findIndex_name_first l1 l2 item) by done.
    split; [done|]. f_equal. f_equal.
    rewrite delete_middle || (rewrite list_delete_middle; done). done.
  - intros Hn. split.
    + unfold handleByNamedList_onRemove, read_array, lift. unfold mbind, M_bind.
      rewrite Hl. by rewrite findIndex_name_absent.
    + intros item Hall.
      assert (Forall ranked (l ++ [item])) as Hranked.
      { apply Forall_and. split; [|done]. apply Forall_app. split; [done|].
        by repeat constructor. }
      exists (sort_by rank (l ++ [item])). split; [|split; [|split]].
      * unfold handleByNamedList_onAdd, read_array, write_array, lift, modify_state.
        unfold mbind, M_bind. rewrite Hl. rewrite findIndex_name_absent by done.
        fold item.
        rewrite (Array_sort_by (by_value_priority defaultPriority) rank ranked
                   by_value_priority_ranked ranked_defined) by done.
        f_equal. apply insert_insert_eq.
      * apply sort_by_Permutation.
      * apply sort_by_sorted.
      * intros n. apply sort_by_stable.
Qed.

End ByName.

(** *** The statements above at work *)

Lemma normalizeExtension_shape_witness :
  prop "ref" (normalized (plugin 21 "x" (Some 5))) = plugin 21 "x" (Some 5)
  ∧ prop "priority" (normalized (descriptor 31 "x" (bare 21) 5)) = VNumber 5.
Proof.
  split.
  - destruct (normalizeExtension_shape (plugin 21 "x" (Some 5))
                (normalized (plugin 21 "x" (Some 5))) eq_refl) as (_ & Href & _).
    apply Href. reflexivity.
  - destruct (normalizeExtension_shape (descriptor 31 "x" (bare 21) 5)
                (normalized (descriptor 31 "x" (bare 21) 5)) eq_refl) as (_ & _ & Hown).
    rewrite Hown; [reflexivity | reflexivity | discriminate].
Defined.

Lemma normalizeExtension_again_witness :
  normalizeExtension (VObject 60 false (normalized (plugin 21 "x" (Some 5))) Object_prototype)
    = Return (normalized (plugin 21 "x" (Some 5))).
Proof.
  apply (normalizeExtension_again (plugin 21 "x" (Some 5))); reflexivity.
Defined.

Lemma add_calls_the_handlers_witness :
  add [plugin 21 "x" (Some 5)] (claimed "x" note note empty_extensions, [])
    = (Return tt,
       (claimed "x" note note empty_extensions, [normalized (plugin 21 "x" (Some 5))])).
Proof.
  rewrite (add_calls_the_handlers (plugin 21 "x" (Some 5))
             (normalized (plugin 21 "x" (Some 5))) 1 [VString "x"]).
  - reflexivity.
  - reflexivity.
  - reflexivity.
  - repeat constructor. vm_compute. eauto.
Defined.

Lemma remove_leaves_the_queue_witness :
  (add [plugin 21 "x" (Some 5)] ;; remove [plugin 21 "x" (Some 5)] ;; handle "x" note note)
    (empty_extensions, [])
  = (Return tt,
     (claimed "x" note note empty_extensions, [normalized (plugin 21 "x" (Some 5))])).
Proof.
  destruct (remove_leaves_the_queue "x" (plugin 21 "x" (Some 5))
              (normalized (plugin 21 "x" (Some 5))) 1 note note empty_extensions [])
    as (_ & _ & Hhandle); [|reflexivity ..|].
  { apply (bool_decide_unpack _). vm_compute. exact I. }
  rewrite Hhandle. vm_compute. reflexivity.
Defined.

Lemma add_before_or_after_handle_witness :
  (handle "x" note note ;; add [plugin 21 "x" (Some 5)]) (empty_extensions, [])
    = (Return tt,
       (claimed "x" note note empty_extensions, [normalized (plugin 21 "x" (Some 5))]))
  ∧ (add [plugin 21 "x" (Some 5)] ;; handle "x" note note) (empty_extensions, [])
    = (Return tt,
       (claimed "x" note note empty_extensions, [normalized (plugin 21 "x" (Some 5))])).
Proof.
  apply (add_before_or_after_handle "x" (plugin 21 "x" (Some 5))
           (normalized (plugin 21 "x" (Some 5))) 1 note note empty_extensions []
           (Return tt) [normalized (plugin 21 "x" (Some 5))]); [|reflexivity ..].
  apply (bool_decide_unpack _). vm_compute. exact I.
Defined.

Lemma add_stops_at_a_record_without_types_witness :
  add [typeless 40 (bare 21)] start = (Throw TypeError, start)
  ∧ add [plugin 21 "x" (Some 5); typeless 40 (bare 21)] start
    = (Throw TypeError, (queued "x" (normalized (plugin 21 "x" (Some 5))) start.1, start.2)).
Proof.
  destruct (add_stops_at_a_record_without_types (plugin 21 "x" (Some 5))
              (typeless 40 (bare 21)) (normalized (plugin 21 "x" (Some 5)))
              (normalized (typeless 40 (bare 21))) start) as [Hone Htwo]; [reflexivity ..|].
  split; [exact Hone|]. rewrite Htwo. vm_compute. reflexivity.
Defined.

Lemma handleByList_remove_undoes_add_witness :
  let h : Arrays := {[1%positive := [plugin 21 "x" (Some 5); plugin 22 "x" None]]} in
  let ext := normalized (plugin 23 "x" (Some 10)) in
  (handleByList_onAdd 1 (-1) ext ;; handleByList_onRemove 1 ext) h = (Return tt, h).
Proof.
  intros h ext.
  destruct (handleByList_remove_undoes_add (-1) 1 h
              [plugin 21 "x" (Some 5); plugin 22 "x" None] ext) as [_ Hsorted].
  - reflexivity.
  - reflexivity.
  - repeat constructor; vm_compute; eauto.
  - apply Hsorted. repeat constructor; vm_compute; discriminate.
Defined.

Lemma handleByList_keeps_a_ref_it_cannot_sort_witness :
  let h : Arrays := {[1%positive := [plugin 21 "x" (Some 5)]]} in
  handleByList_onAdd 1 (-1) (normalized (descriptor 31 "x" (unmarked 50) 7)) h
    = (Throw (Error "Extension class must have an extension object"),
       <[1%positive := [plugin 21 "x" (Some 5); unmarked 50]]> h).
Proof.
  intros h.
  apply (handleByList_keeps_a_ref_it_cannot_sort (-1) 1 h [plugin 21 "x" (Some 5)]
           (normalized (descriptor 31 "x" (unmarked 50) 7))).
  - reflexivity.
  - reflexivity.
  - repeat constructor; vm_compute; eauto.
  - reflexivity.
  - reflexivity.
Defined.


Lemma handleByNamedList_first_name_wins_witness :
  let first := new_item (VString "blur") (plugin 21 "x" (Some 5)) in
  let h : Arrays := {[1%positive := [first]]} in
  let again := normalized (named_plugin 22 "blur" "x" (Some 10)) in
  let other := normalized (named_plugin 23 "glow" "x" (Some 10)) in
  handleByNamedList_onAdd 1 (-1) again h = (Return tt, h)
  ∧ handleByNamedList_onRemove 1 again h = (Return tt, <[1%positive := []]> h)
  ∧ ∃ l',
      handleByNamedList_onAdd 1 (-1) other h = (Return tt, <[1%positive := l']> h) ∧
      l' ≡ₚ [first] ++ [new_item (VString "glow") (named_plugin 23 "glow" "x" (Some 10))].
Proof.
  intros first h again other.
  destruct (handleByNamedList_first_name_wins (-1) 1 h [first] again eq_refl)
    as [Hpresent _]; [by repeat constructor|].
  destruct (Hpresent [] first [] eq_refl) as [Hadd Hremove]; [constructor | reflexivity |].
  destruct (handleByNamedList_first_name_wins (-1) 1 h [first] other eq_refl)
    as [_ Habsent]; [by repeat constructor|].
  destruct Habsent as [_ Hnew]; [by repeat constructor|].
  destruct Hnew as (l' & Hrun & Hperm & _); [repeat constructor; vm_compute; eauto|].
  split; [exact Hadd|]. split; [exact Hremove|]. exists l'. split; [exact Hrun | exact Hperm].
Defined.

Lemma remove_never_touches_the_registry_witness :
  let p : Page (list ExtensionFormat) := (claimed "x" note note empty_extensions, []) in
  (remove [plugin 21 "x" (Some 5)] p).2.1 = p.1.
Proof.
  intros p.
  apply (remove_never_touches_the_registry [plugin 21 "x" (Some 5)] p
           (remove [plugin 21 "x" (Some 5)] p).1).
  apply surjective_pairing.
Defined.

Lemma add_only_appends_to_queues_witness :
  let p : Page (list ExtensionFormat) :=
    (queued "x" (normalized (plugin 21 "x" (Some 5))) empty_extensions, []) in
  pending p.1 "x" `prefix_of` pending (add [plugin 22 "x" None; typeless 40 (bare 21)] p).2.1 "x".
Proof.
  intros p.
  destruct (add_only_appends_to_queues [plugin 22 "x" None; typeless 40 (bare 21)] p
              (add [plugin 22 "x" None; typeless 40 (bare 21)] p).1
              (add [plugin 22 "x" None; typeless 40 (bare 21)] p).2) as (_ & _ & Hq).
  - apply surjective_pairing.
  - apply Hq.
Defined.

Lemma handle_touches_only_its_point_witness :
  let p : Page (list ExtensionFormat) :=
    (queued "y" (normalized (plugin 21 "y" (Some 5))) empty_extensions, []) in
  pending (handle "x" note note p).2.1 "y" = pending p.1 "y".
Proof.
  intros p.
  destruct (handle_touches_only_its_point "x" "y" note note p
              (handle "x" note note p).1 (handle "x" note note p).2) as (_ & _ & Hq).
  - apply surjective_pairing.
  - discriminate.
  - exact Hq.
Defined.
End RegistryFacts.
